(** * dice-typescript: the dice parser and the tree-mutating interpreter

    A shallow embedding of [DiceParser] (parser/dice-parser.ts) and of
    [DiceInterpreter] (interpreter/dice-interpreter.ts), and the properties
    of the specification that concern them.

    Conventions of the embedding.
    - A JavaScript number is an exact rational extended with [NaN] and the
      two infinities; rounding of IEEE doubles and the sign of zero are not
      represented.
    - A node of the syntax tree is a value; a method that mutates a node
      returns the new node, and the caller puts it back where the object
      lives.  Objects that are shared between calls (the tree handed to
      [interpret], the table of default functions) live in a store and are
      named by a location.
    - A computation either returns, throws (a JavaScript exception) or
      diverges (a loop or a recursion that never ends; the embedding runs
      on fuel, and a computation diverges when no amount of fuel lets it
      return or throw). *)

From Stdlib Require Import ZArith QArith Qround Qabs Lia Lqa Ascii String.
From stdpp Require Import gmap strings list fin_maps pretty sorting.

Local Open Scope Z_scope.

(** ** JavaScript numbers *)

Module Js.

Inductive number : Type :=
  | Fin (q : Q)
  | PInf
  | NInf
  | NaN.

(** Finite numbers are kept in lowest terms, so that equal numbers are
    equal terms. *)
Definition fin (q : Q) : number := Fin (Qred q).
Definition ofZ (z : Z) : number := Fin (inject_Z z).

Definition Qsgn (q : Q) : Z := Z.sgn (Qnum q).
Definition Qis_int (q : Q) : bool := Z.eqb (Zpos (Qden (Qred q))) 1.
Definition Qis_zero (q : Q) : bool := Z.eqb (Qnum q) 0.

(** The sign of a number, [0] for zero and for [NaN]. *)
Definition sgn (a : number) : Z :=
  match a with
  | Fin q => Qsgn q
  | PInf => 1
  | NInf => -1
  | NaN => 0
  end.

Definition inf_of_sign (s : Z) : number :=
  if Z.ltb s 0 then NInf else PInf.

Definition neg (a : number) : number :=
  match a with
  | Fin q => fin (- q)
  | PInf => NInf
  | NInf => PInf
  | NaN => NaN
  end.

Definition add (a b : number) : number :=
  match a, b with
  | NaN, _ | _, NaN => NaN
  | PInf, NInf | NInf, PInf => NaN
  | PInf, _ | _, PInf => PInf
  | NInf, _ | _, NInf => NInf
  | Fin x, Fin y => fin (x + y)
  end.

Definition sub (a b : number) : number := add a (neg b).

Definition mul (a b : number) : number :=
  match a, b with
  | NaN, _ | _, NaN => NaN
  | Fin x, Fin y => fin (x * y)
  | _, _ => if Z.eqb (sgn a * sgn b) 0 then NaN else inf_of_sign (sgn a * sgn b)
  end.

Definition div (a b : number) : number :=
  match a, b with
  | NaN, _ | _, NaN => NaN
  | Fin x, Fin y =>
      if Qis_zero y
      then (if Qis_zero x then NaN else inf_of_sign (Qsgn x))
      else fin (x / y)
  | Fin _, _ => Fin 0
  | _, Fin y => inf_of_sign (if Qis_zero y then sgn a else sgn a * Qsgn y)
  | _, _ => NaN
  end.

(** Truncation towards zero, as the remainder operator [%] uses it. *)
Definition Qtrunc (q : Q) : Z :=
  if Z.ltb (Qnum q) 0 then Qceiling q else Qfloor q.

Definition rem (a b : number) : number :=
  match a, b with
  | NaN, _ | _, NaN => NaN
  | PInf, _ | NInf, _ => NaN
  | Fin x, Fin y =>
      if Qis_zero y then NaN else fin (x - y * inject_Z (Qtrunc (x / y)))
  | Fin x, _ => Fin x
  end.

(** [Math.round]: the nearest integer, a tie going up. *)
Definition round (a : number) : number :=
  match a with
  | Fin q => ofZ (Qfloor (q + (1 # 2)))
  | _ => a
  end.

Definition Qpow_int (x : Q) (n : Z) : number :=
  if Z.leb 0 n then fin (Qpower x n)
  else if Qis_zero x then PInf
  else fin (Qpower x n).

Section Pow.

(** [Math.pow] of a positive base other than 1 to an exponent that is not an
    integer is in general irrational; what the runtime returns there is a
    parameter. *)
Variable pow_frac : Q -> Q -> number.

Definition pow (a b : number) : number :=
  match b with
  | NaN => NaN
  | Fin y =>
      if Qis_zero y then Fin 1 else
      match a with
      | NaN => NaN
      | Fin x =>
          if Qis_int y then Qpow_int x (Qfloor y)
          else if Z.ltb (Qsgn x) 0 then NaN
          else if Qis_zero x then (if Z.ltb (Qsgn y) 0 then PInf else Fin 0)
          else if Qeq_bool x 1 then Fin 1
          else pow_frac x y
      | PInf => if Z.ltb (Qsgn y) 0 then Fin 0 else PInf
      | NInf =>
          if Z.ltb (Qsgn y) 0 then Fin 0
          else if Qis_int y && Z.odd (Qfloor y) then NInf else PInf
      end
  | PInf | NInf =>
      match a with
      | NaN => NaN
      | Fin x =>
          match Qcompare (Qabs x) 1 with
          | Eq => NaN
          | Gt => if b is PInf then PInf else Fin 0
          | Lt => if b is PInf then Fin 0 else PInf
          end
      | _ => if b is PInf then PInf else Fin 0
      end
  end.

End Pow.

(** Comparisons; every comparison with [NaN] is false. *)
Definition ltb (a b : number) : bool :=
  match a, b with
  | NaN, _ | _, NaN => false
  | Fin x, Fin y => match Qcompare x y with Lt => true | _ => false end
  | NInf, NInf => false
  | NInf, _ => true
  | _, PInf => if a is PInf then false else true
  | _, _ => false
  end.

Definition eqb (a b : number) : bool :=
  match a, b with
  | Fin x, Fin y => Qeq_bool x y
  | PInf, PInf | NInf, NInf => true
  | _, _ => false
  end.

Definition leb (a b : number) : bool := ltb a b || eqb a b.

(** A number as a condition: zero and [NaN] are falsy. *)
Definition truthy (a : number) : bool :=
  match a with
  | Fin q => negb (Qis_zero q)
  | NaN => false
  | _ => true
  end.

End Js.

(** ** Values held by attributes and returned by [evaluate] *)

Inductive value : Type :=
  | VNum (n : Js.number)
  | VStr (s : string)
  | VUndef.

Definition VInt (z : Z) : value := VNum (Js.ofZ z).

Fixpoint digits_value (acc : Z) (s : string) : option Z :=
  match s with
  | EmptyString => Some acc
  | String c s' =>
      let n := Z.of_N (Ascii.N_of_ascii c) in
      if Z.leb 48 n && Z.leb n 57
      then digits_value (10 * acc + (n - 48)) s'
      else None
  end.

(** [Number(s)] for the strings this program converts: the empty string is
    0, a string of decimal digits is its value, any other string is
    [NaN]. *)
Definition Number_of_string (s : string) : Js.number :=
  match digits_value 0 s with
  | Some z => Js.ofZ z
  | None => Js.NaN
  end.

Definition toNumber (v : value) : Js.number :=
  match v with
  | VNum n => n
  | VStr s => Number_of_string s
  | VUndef => Js.NaN
  end.

(** [!v] is [negb (truthy v)]. *)
Definition truthy (v : value) : bool :=
  match v with
  | VNum n => Js.truthy n
  | VStr s => negb (String.eqb s "")
  | VUndef => false
  end.

(** [a === b] *)
Definition strict_eq (a b : value) : bool :=
  match a, b with
  | VNum x, VNum y => Js.eqb x y
  | VStr x, VStr y => String.eqb x y
  | VUndef, VUndef => true
  | _, _ => false
  end.

(** [a < b]: two strings compare as strings, anything else as numbers. *)
Definition js_lt (a b : value) : bool :=
  match a, b with
  | VStr x, VStr y => if String.compare x y is Lt then true else false
  | _, _ => Js.ltb (toNumber a) (toNumber b)
  end.

Definition js_le (a b : value) : bool :=
  match a, b with
  | VStr x, VStr y => if String.compare x y is Gt then false else true
  | _, _ => Js.leb (toNumber a) (toNumber b)
  end.

Definition js_minus (a b : value) : value := VNum (Js.sub (toNumber a) (toNumber b)).
Definition js_times (a b : value) : value := VNum (Js.mul (toNumber a) (toNumber b)).
Definition js_divide (a b : value) : value := VNum (Js.div (toNumber a) (toNumber b)).
Definition js_modulo (a b : value) : value := VNum (Js.rem (toNumber a) (toNumber b)).
Definition js_negate (a : value) : value := VNum (Js.neg (toNumber a)).
Definition Math_round (a : value) : Js.number := Js.round (toNumber a).

(** ** The syntax tree (ast/) *)

Module NodeType.
Inductive t : Type :=
  | Integer | DiceSides | Dice | DiceRoll
  | Add | Subtract | Multiply | Divide | Modulo | Exponent | Negate
  | Equal | Greater | GreaterOrEqual | Less | LessOrEqual
  | Function | Group
  | Explode | Keep | Drop | Critical | Reroll | Sort.

#[global] Instance eq_dec : EqDecision t.
Proof. solve_decision. Defined.

Definition name (ty : t) : string :=
  match ty with
  | Integer => "Integer" | DiceSides => "DiceSides" | Dice => "Dice"
  | DiceRoll => "DiceRoll" | Add => "Add" | Subtract => "Subtract"
  | Multiply => "Multiply" | Divide => "Divide" | Modulo => "Modulo"
  | Exponent => "Exponent" | Negate => "Negate" | Equal => "Equal"
  | Greater => "Greater" | GreaterOrEqual => "GreaterOrEqual"
  | Less => "Less" | LessOrEqual => "LessOrEqual" | Function => "Function"
  | Group => "Group" | Explode => "Explode" | Keep => "Keep" | Drop => "Drop"
  | Critical => "Critical" | Reroll => "Reroll" | Sort => "Sort"
  end.
End NodeType.

(** Modelled from the spec: the class [ExpressionNode] and the [Factory] of
    ast/ are not among the sources.  A node is a type tag, an ordered list
    of children that it owns, and a map from attribute names to values; the
    factory makes a node with no children and no attributes; [getAttribute]
    of a name that was never set is [undefined]. *)
#[warnings="-register-all"]
Inductive ExpressionNode : Type :=
  Node (type : NodeType.t) (children : list ExpressionNode)
       (attributes : gmap string value).

Definition type (e : ExpressionNode) : NodeType.t :=
  let 'Node ty _ _ := e in ty.
Definition children (e : ExpressionNode) : list ExpressionNode :=
  let 'Node _ cs _ := e in cs.
Definition attributes (e : ExpressionNode) : gmap string value :=
  let 'Node _ _ a := e in a.

Module Factory.
Definition create (ty : NodeType.t) : ExpressionNode := Node ty [] ∅.
End Factory.

Definition getAttribute (key : string) (e : ExpressionNode) : value :=
  default VUndef (attributes e !! key).
Definition setAttribute (key : string) (v : value) (e : ExpressionNode)
  : ExpressionNode :=
  Node (type e) (children e) (<[key := v]> (attributes e)).
Definition getChildCount (e : ExpressionNode) : nat := length (children e).
Definition getChild (i : nat) (e : ExpressionNode) : option ExpressionNode :=
  children e !! i.
Definition addChild (c : ExpressionNode) (e : ExpressionNode) : ExpressionNode :=
  Node (type e) (children e ++ [c]) (attributes e).
Definition clearChildren (e : ExpressionNode) : ExpressionNode :=
  Node (type e) [] (attributes e).

(** Writing a node back in the place of the [i]th child, and replacing all
    the children: these stand for mutations made through a reference to a
    child. *)
Definition putChild (i : nat) (c : ExpressionNode) (e : ExpressionNode)
  : ExpressionNode :=
  Node (type e) (<[i := c]> (children e)) (attributes e).
Definition putChildren (cs : list ExpressionNode) (e : ExpressionNode)
  : ExpressionNode :=
  Node (type e) cs (attributes e).

Fixpoint height (e : ExpressionNode) : nat :=
  let 'Node _ cs _ := e in
  S (foldr (fun c h => Nat.max (height c) h) O cs).

(** ** Computations: a state, a result or an exception, or divergence *)

Inductive result (A : Type) : Type :=
  | Ok (a : A)
  | Throw (message : string)
  | Diverge.
Arguments Ok {A} a.
Arguments Throw {A} message.
Arguments Diverge {A}.

Definition ErrorMessage : Type := string.

(** A computation over a state [S]. *)
Definition ST (S A : Type) : Type := S -> result (A * S).

Definition ret {S A} (a : A) : ST S A := fun st => Ok (a, st).
Definition throw {S A} (message : string) : ST S A := fun _ => Throw message.
Definition diverge {S A} : ST S A := fun _ => Diverge.
Definition bind {S A B} (c : ST S A) (k : A -> ST S B) : ST S B :=
  fun st =>
    match c st with
    | Ok (a, st') => k a st'
    | Throw message => Throw message
    | Diverge => Diverge
    end.

Notation "x <- c ; k" := (bind c (fun x => k))
  (at level 20, c at level 100, k at level 200, only parsing).
Notation "' p <- c ; k" := (bind c (fun x => let 'p := x in k))
  (at level 20, p pattern, c at level 100, k at level 200, only parsing).

(** ** Tokens and the lexer (lexer/) *)

Module TokenType.
Inductive t : Type :=
  | Integer | Identifier
  | Plus | Minus | Asterisk | Slash | Percent | DoubleAsterisk
  | Equals | Greater | GreaterOrEqual | Less | LessOrEqual
  | ParenthesisOpen | ParenthesisClose | BraceOpen | BraceClose
  | Comma | EndOfInput | Unknown.

#[global] Instance eq_dec : EqDecision t.
Proof. solve_decision. Defined.

Definition name (ty : t) : string :=
  match ty with
  | Integer => "Integer" | Identifier => "Identifier" | Plus => "Plus"
  | Minus => "Minus" | Asterisk => "Asterisk" | Slash => "Slash"
  | Percent => "Percent" | DoubleAsterisk => "DoubleAsterisk"
  | Equals => "Equals" | Greater => "Greater"
  | GreaterOrEqual => "GreaterOrEqual" | Less => "Less"
  | LessOrEqual => "LessOrEqual" | ParenthesisOpen => "ParenthesisOpen"
  | ParenthesisClose => "ParenthesisClose" | BraceOpen => "BraceOpen"
  | BraceClose => "BraceClose" | Comma => "Comma"
  | EndOfInput => "EndOfInput" | Unknown => "Unknown"
  end.
End TokenType.

Record Token : Type := mkToken {
  tokenType : TokenType.t;
  position : nat;
  tokenValue : string
}.

Module Lexer.

(** Modelled from the spec: the lexer is not among the sources.  Digits
    make an Integer token, letters an Identifier token, the fixed symbols
    their operator or bracket token; white space is skipped; any other
    character makes an Unknown token. *)
Definition is_digit (c : Ascii.ascii) : bool :=
  let n := Ascii.nat_of_ascii c in (48 <=? n)%nat && (n <=? 57)%nat.
Definition is_letter (c : Ascii.ascii) : bool :=
  let n := Ascii.nat_of_ascii c in
  ((65 <=? n)%nat && (n <=? 90)%nat) || ((97 <=? n)%nat && (n <=? 122)%nat).
Definition is_space (c : Ascii.ascii) : bool :=
  let n := Ascii.nat_of_ascii c in
  (n =? 32)%nat || ((9 <=? n)%nat && (n <=? 13)%nat).

(** The token that is being read, if any: its type, where it starts and the
    characters read so far. *)
Definition flush (pending : option Token) : list Token :=
  match pending with
  | Some tok => [tok]
  | None => []
  end.

Definition extend (ty : TokenType.t) (pos : nat) (c : Ascii.ascii)
    (pending : option Token) : list Token * option Token :=
  match pending with
  | Some tok =>
      if decide (tokenType tok = ty)
      then ([], Some (mkToken ty (position tok) (tokenValue tok ++ String c "")))
      else ([tok], Some (mkToken ty pos (String c "")))
  | None => ([], Some (mkToken ty pos (String c "")))
  end.

Definition symbol (c : Ascii.ascii) : TokenType.t :=
  if Ascii.eqb c "+"%char then TokenType.Plus
  else if Ascii.eqb c "-"%char then TokenType.Minus
  else if Ascii.eqb c "*"%char then TokenType.Asterisk
  else if Ascii.eqb c "/"%char then TokenType.Slash
  else if Ascii.eqb c "%"%char then TokenType.Percent
  else if Ascii.eqb c "="%char then TokenType.Equals
  else if Ascii.eqb c ">"%char then TokenType.Greater
  else if Ascii.eqb c "<"%char then TokenType.Less
  else if Ascii.eqb c "("%char then TokenType.ParenthesisOpen
  else if Ascii.eqb c ")"%char then TokenType.ParenthesisClose
  else if Ascii.eqb c "{"%char then TokenType.BraceOpen
  else if Ascii.eqb c "}"%char then TokenType.BraceClose
  else if Ascii.eqb c ","%char then TokenType.Comma
  else TokenType.Unknown.

(** The symbols made of two characters. *)
Definition symbol2 (c d : Ascii.ascii) : option TokenType.t :=
  if Ascii.eqb c "*"%char && Ascii.eqb d "*"%char then Some TokenType.DoubleAsterisk
  else if Ascii.eqb c ">"%char && Ascii.eqb d "="%char then Some TokenType.GreaterOrEqual
  else if Ascii.eqb c "<"%char && Ascii.eqb d "="%char then Some TokenType.LessOrEqual
  else None.

Fixpoint scan (pos : nat) (pending : option Token) (input : string)
  : list Token :=
  match input with
  | EmptyString => flush pending
  | String c rest =>
      if is_digit c then
        let '(done, pending) := extend TokenType.Integer pos c pending in
        done ++ scan (S pos) pending rest
      else if is_letter c then
        let '(done, pending) := extend TokenType.Identifier pos c pending in
        done ++ scan (S pos) pending rest
      else if is_space c then flush pending ++ scan (S pos) None rest
      else
        match rest with
        | String d rest' =>
            match symbol2 c d with
            | Some ty =>
                flush pending ++
                mkToken ty pos (String c (String d "")) :: scan (S (S pos)) None rest'
            | None =>
                flush pending ++
                mkToken (symbol c) pos (String c "") :: scan (S pos) None rest
            end
        | EmptyString =>
            flush pending ++ [mkToken (symbol c) pos (String c "")]
        end
  end.

Definition tokens (input : string) : list Token := scan 0 None input.

(** The lexer as the parser sees it: the tokens that remain.  Past the end
    of the input every token is the EndOfInput sentinel. *)
Definition endOfInput : Token := mkToken TokenType.EndOfInput 0 "".

Definition peekNextToken : ST (list Token) Token :=
  fun ts => Ok (default endOfInput (head ts), ts).
Definition getNextToken : ST (list Token) Token :=
  fun ts => Ok (default endOfInput (head ts), tail ts).

End Lexer.

(** ** The parser (parser/dice-parser.ts) *)

Module Parser.
Import Lexer.

Definition P (A : Type) : Type := ST (list Token) A.

Definition BooleanOperatorMap (ty : TokenType.t) : option NodeType.t :=
  match ty with
  | TokenType.Equals => Some NodeType.Equal
  | TokenType.Greater => Some NodeType.Greater
  | TokenType.Less => Some NodeType.Less
  | TokenType.GreaterOrEqual => Some NodeType.GreaterOrEqual
  | TokenType.LessOrEqual => Some NodeType.LessOrEqual
  | _ => None
  end.

Definition AddOperatorMap (ty : TokenType.t) : option NodeType.t :=
  match ty with
  | TokenType.Plus => Some NodeType.Add
  | TokenType.Minus => Some NodeType.Subtract
  | _ => None
  end.

Definition MultiOperatorMap (ty : TokenType.t) : option NodeType.t :=
  match ty with
  | TokenType.DoubleAsterisk => Some NodeType.Exponent
  | TokenType.Asterisk => Some NodeType.Multiply
  | TokenType.Slash => Some NodeType.Divide
  | TokenType.Percent => Some NodeType.Modulo
  | _ => None
  end.

(** Modelled from the spec: the class [BasicParser] is not among the
    sources.  [error] reports a token of the wrong type; the parsing methods
    of this parser take no object in which to record it, and the failure
    ends the parse. *)
Definition error {A} (expected : TokenType.t) (actual : Token) : P A :=
  throw ("Error at position " ++ pretty (position actual)
         ++ ". Expected token of type " ++ TokenType.name expected
         ++ ", found token of type " ++ TokenType.name (tokenType actual)
         ++ " of value " ++ tokenValue actual ++ ".").

Definition expectAndConsume (expected : TokenType.t) : P Token :=
  actual <- peekNextToken ;
  if decide (tokenType actual = expected) then getNextToken
  else error expected actual.

Definition parseInteger : P ExpressionNode :=
  numberToken <- getNextToken ;
  ret (setAttribute "value" (VNum (Number_of_string (tokenValue numberToken)))
         (Factory.create NodeType.Integer)).

Section Grammar.

(** [parseExpression], as the methods below call it. *)
Variable parseExpression : P ExpressionNode.

Definition parseBracketedExpression : P ExpressionNode :=
  _ <- getNextToken ;
  root <- parseExpression ;
  _ <- expectAndConsume TokenType.ParenthesisClose ;
  ret root.

(** [while (peek is Comma) { getNextToken(); root.addChild(parseExpression()) }] *)
Fixpoint parseMore (fuel : nat) (root : ExpressionNode) : P ExpressionNode :=
  match fuel with
  | O => diverge
  | S fuel =>
      token <- peekNextToken ;
      if decide (tokenType token = TokenType.Comma) then
        _ <- getNextToken ;
        child <- parseExpression ;
        parseMore fuel (addChild child root)
      else ret root
  end.

(** The list of a function call or of a group, up to the closing token. *)
Definition parseList (fuel : nat) (close : TokenType.t) (root : ExpressionNode)
  : P ExpressionNode :=
  token <- peekNextToken ;
  root <-
    (if decide (tokenType token = close) then ret root
     else
       child <- parseExpression ;
       parseMore fuel (addChild child root)) ;
  _ <- expectAndConsume close ;
  ret root.

Definition parseFunctionCall (fuel : nat) : P ExpressionNode :=
  functionName <- expectAndConsume TokenType.Identifier ;
  let root :=
    setAttribute "name" (VStr (tokenValue functionName))
      (Factory.create NodeType.Function) in
  _ <- expectAndConsume TokenType.ParenthesisOpen ;
  parseList fuel TokenType.ParenthesisClose root.

Definition parseExpressionGroup (fuel : nat) : P ExpressionNode :=
  _ <- getNextToken ;
  parseList fuel TokenType.BraceClose (Factory.create NodeType.Group).

Definition parseSimpleDiceRoll (rollTimes : option ExpressionNode)
  : P ExpressionNode :=
  rollTimes <-
    match rollTimes with
    | Some n => ret n
    | None =>
        rollToken <- peekNextToken ;
        match tokenType rollToken with
        | TokenType.Integer => parseInteger
        | TokenType.ParenthesisOpen => parseBracketedExpression
        | _ => error TokenType.Integer rollToken
        end
    end ;
  token <- expectAndConsume TokenType.Identifier ;
  let root := addChild rollTimes (Factory.create NodeType.Dice) in
  if String.eqb (tokenValue token) "d" then
    sidesToken <- expectAndConsume TokenType.Integer ;
    ret (addChild
           (setAttribute "value" (VNum (Number_of_string (tokenValue sidesToken)))
              (Factory.create NodeType.DiceSides)) root)
  else if String.eqb (tokenValue token) "dF" then
    ret (addChild
           (setAttribute "value" (VStr "fate") (Factory.create NodeType.DiceSides))
           root)
  else ret root.

Definition parseDiceRoll (rollTimes : option ExpressionNode) : P ExpressionNode :=
  parseSimpleDiceRoll rollTimes.

Definition parseFactor (fuel : nat) : P ExpressionNode :=
  token <- peekNextToken ;
  match tokenType token with
  | TokenType.Identifier => parseFunctionCall fuel
  | TokenType.ParenthesisOpen =>
      root <- parseBracketedExpression ;
      next <- peekNextToken ;
      if decide (tokenType next = TokenType.Identifier)
      then parseDiceRoll (Some root)
      else ret root
  | TokenType.BraceOpen => parseExpressionGroup fuel
  | TokenType.Integer =>
      number <- parseInteger ;
      next <- peekNextToken ;
      if decide (tokenType next <> TokenType.Identifier)
      then ret number
      else parseDiceRoll (Some number)
  | _ => error TokenType.Integer token
  end.

(** The loop of [parseTerm]. *)
Fixpoint parseTermLoop (fuel loops : nat) (root : ExpressionNode)
  : P ExpressionNode :=
  match loops with
  | O => diverge
  | S loops =>
      token <- peekNextToken ;
      match MultiOperatorMap (tokenType token) with
      | Some ty =>
          let newRoot := addChild root (Factory.create ty) in
          _ <- getNextToken ;
          factor <- parseFactor fuel ;
          parseTermLoop fuel loops (addChild factor newRoot)
      | None => ret root
      end
  end.

Definition parseTerm (fuel : nat) : P ExpressionNode :=
  root <- parseFactor fuel ;
  parseTermLoop fuel fuel root.

(** The loop of [parseSimpleExpression]. *)
Fixpoint parseSimpleLoop (fuel loops : nat) (root : ExpressionNode)
  : P ExpressionNode :=
  match loops with
  | O => diverge
  | S loops =>
      token <- peekNextToken ;
      match AddOperatorMap (tokenType token) with
      | Some ty =>
          let newRoot := addChild root (Factory.create ty) in
          _ <- getNextToken ;
          term <- parseTerm fuel ;
          parseSimpleLoop fuel loops (addChild term newRoot)
      | None => ret root
      end
  end.

Definition parseSimpleExpression (fuel : nat) : P ExpressionNode :=
  token <- peekNextToken ;
  let tokenType0 := tokenType token in
  _ <- (if AddOperatorMap tokenType0 is Some _ then getNextToken else ret token) ;
  root <- parseTerm fuel ;
  let root :=
    if decide (tokenType0 = TokenType.Minus)
    then addChild root (Factory.create NodeType.Negate)
    else root in
  parseSimpleLoop fuel fuel root.

Definition parseExpressionBody (fuel : nat) : P ExpressionNode :=
  root <- parseSimpleExpression fuel ;
  token <- peekNextToken ;
  match BooleanOperatorMap (tokenType token) with
  | Some ty =>
      let newRoot := Factory.create ty in
      _ <- getNextToken ;
      let newRoot := addChild root newRoot in
      rhs <- parseSimpleExpression fuel ;
      ret (addChild rhs newRoot)
  | None => ret root
  end.

End Grammar.

Fixpoint parseExpression (fuel : nat) : P ExpressionNode :=
  match fuel with
  | O => diverge
  | S fuel => parseExpressionBody (parseExpression fuel) fuel
  end.

(** [new DiceParser(input).parse()]: the recursion is never deeper, and no
    loop longer, than there are tokens. *)
Definition parse (input : list Token) : result ExpressionNode :=
  match parseExpression (S (length input)) input with
  | Ok (root, _) => Ok root
  | Throw message => Throw message
  | Diverge => Diverge
  end.

Definition parseString (input : string) : result ExpressionNode :=
  parse (Lexer.tokens input).

End Parser.

(** ** The interpreter (interpreter/dice-interpreter.ts) *)

Section Interpreter.

(** The internal state of the random provider. *)
Variable R : Type.
(** [Math.pow] at the exponents that are not integers, and the conversion of
    a number to a string, belong to the JavaScript runtime. *)
Variable pow_frac : Q -> Q -> Js.number.
Variable Number_toString : Js.number -> string.

(** What a call of [evaluate] can change besides the tree it is given: the
    state of the random provider and the array [errors]. *)
Record estate : Type := EState { rng : R; errors : list ErrorMessage }.

Definition M (A : Type) : Type := ST estate A.

(** [RandomProvider.numberBetween(min, max)] *)
Definition RandomProvider : Type := Js.number -> Js.number -> R -> Js.number * R.

(** The interpreter's own [evaluate], as a function definition receives it
    through [this]. *)
Definition Evaluator : Type := ExpressionNode -> M (value * ExpressionNode).

(** A function of the table is called with the interpreter, the function
    node and [errors]; it returns a value and leaves the node as its calls
    of [evaluate] made it. *)
Definition FunctionDefinition : Type := Evaluator -> Evaluator.
Local Abbreviation FunctionDefinitionList := (gmap string FunctionDefinition).

Definition toString (v : value) : string :=
  match v with
  | VStr s => s
  | VUndef => "undefined"
  | VNum n => Number_toString n
  end.

(** [a + b]: concatenation as soon as one side is a string. *)
Definition js_plus (a b : value) : value :=
  match a, b with
  | VStr _, _ | _, VStr _ => VStr (toString a ++ toString b)
  | _, _ => VNum (Js.add (toNumber a) (toNumber b))
  end.

Definition Math_pow (a b : value) : value :=
  VNum (Js.pow pow_frac (toNumber a) (toNumber b)).

Section Evaluate.

Variable random : RandomProvider.
Variable functions : FunctionDefinitionList.

Definition numberBetween (min max : Js.number) : M Js.number :=
  fun st =>
    let '(r, g) := random min max (rng st) in
    Ok (r, EState g (errors st)).

Definition expectChildCount (expression : ExpressionNode) (count : nat) : M unit :=
  let findCount := getChildCount expression in
  if (findCount <? count)%nat
  then throw ("Expected " ++ NodeType.name (type expression) ++ " node to have "
              ++ pretty count ++ " children, but found " ++ pretty findCount ++ ".")
  else ret tt.

(** [ev (expression.getChild(i))]: the child is evaluated in place; a
    missing child is the null reference that [evaluate] rejects. *)
Definition evaluateChild (ev : Evaluator) (i : nat) (expression : ExpressionNode)
  : M (value * ExpressionNode) :=
  match getChild i expression with
  | None => throw "Null node reference found."
  | Some child =>
      '(v, child) <- ev child ;
      ret (v, putChild i child expression)
  end.

Definition evaluateBinary (ev : Evaluator) (op : value -> value -> value)
    (expression : ExpressionNode) : M (value * ExpressionNode) :=
  _ <- expectChildCount expression 2 ;
  '(a, expression) <- evaluateChild ev 0 expression ;
  '(b, expression) <- evaluateChild ev 1 expression ;
  ret (op a b, expression).

(** [for (x = 0; x < getChildCount(); x++) f(evaluate(getChild(x)))] *)
Fixpoint evaluateChildrenFrom (ev : Evaluator) (idx : list nat) (total : value)
    (expression : ExpressionNode) : M (value * ExpressionNode) :=
  match idx with
  | [] => ret (total, expression)
  | x :: idx =>
      '(v, expression) <- evaluateChild ev x expression ;
      evaluateChildrenFrom ev idx (js_plus total v) expression
  end.

Definition evaluateDiceRoll (expression : ExpressionNode) : value :=
  if negb (strict_eq (getAttribute "drop" expression) (VStr "yes"))
  then getAttribute "value" expression
  else VInt 0.

(** [sides] is a node (the second child of the dice node) or the value of
    the attribute [sides]. *)
Definition createDiceRollValue (ev : Evaluator) (sides : ExpressionNode + value)
  : M (Js.number * (ExpressionNode + value)) :=
  let sidesValue :=
    match sides with inl n => getAttribute "value" n | inr v => v end in
  if strict_eq sidesValue (VStr "fate")
  then r <- numberBetween (Js.ofZ (-1)) (Js.ofZ 1) ; ret (r, sides)
  else
    match sides with
    | inl n =>
        '(v, n) <- ev n ;
        r <- numberBetween (Js.ofZ 1) (Math_round v) ;
        ret (r, inl n)
    | inr v =>
        r <- numberBetween (Js.ofZ 1) (Math_round v) ;
        ret (r, sides)
    end.

Definition createDiceRoll (ev : Evaluator) (sides : ExpressionNode + value)
  : M (ExpressionNode * (ExpressionNode + value)) :=
  '(diceRoll, sides) <- createDiceRollValue ev sides ;
  ret (setAttribute "drop" (VStr "no")
         (setAttribute "value" (VNum diceRoll) (Factory.create NodeType.DiceRoll)),
       sides).

(** The number of turns of [for (x = 0; x < num; x++)]; none when [num] is
    [Infinity], where the loop does not end. *)
Definition loopCount (num : Js.number) : option nat :=
  match num with
  | Js.Fin q => Some (Z.to_nat (Qceiling q))
  | Js.PInf => None
  | _ => Some O
  end.

(** The loop of [evaluateDice]; [sides] is the object that was the second
    child before the children were cleared. *)
Fixpoint rollDice (ev : Evaluator) (turns : nat) (sides : ExpressionNode + value)
    (total : value) (expression : ExpressionNode) : M (value * ExpressionNode) :=
  match turns with
  | O => ret (total, expression)
  | S turns =>
      '(diceRoll, sides) <- createDiceRoll ev sides ;
      '(v, diceRoll) <- ev diceRoll ;
      rollDice ev turns sides (js_plus total v) (addChild diceRoll expression)
  end.

Definition evaluateDice (ev : Evaluator) (expression : ExpressionNode)
  : M (value * ExpressionNode) :=
  _ <- expectChildCount expression 2 ;
  '(count, expression) <- evaluateChild ev 0 expression ;
  let num := Math_round count in
  match getChild 1 expression with
  | None => throw "Null node reference found."
  | Some sides =>
      '(sidesValue, sides) <- ev sides ;
      let expression := setAttribute "sides" sidesValue expression in
      let expression := clearChildren expression in
      match loopCount num with
      | None => diverge
      | Some turns => rollDice ev turns (inl sides) (VInt 0) expression
      end
  end.

Definition evaluateFunction (ev : Evaluator) (expression : ExpressionNode)
  : M (value * ExpressionNode) :=
  let fName := getAttribute "name" expression in
  match fName with
  | VStr name =>
      match functions !! name with
      | Some f => f ev expression
      | None => throw ("Unknown function: " ++ name)
      end
  | _ => throw ("Unknown function: " ++ toString fName)
  end.

Definition evaluateGroup (ev : Evaluator) (expression : ExpressionNode)
  : M (value * ExpressionNode) :=
  evaluateChildrenFrom ev (seq 0 (getChildCount expression)) (VInt 0) expression.

Definition evaluateComparison (ev : Evaluator) (lhs : value)
    (expression : ExpressionNode) : M (bool * ExpressionNode) :=
  _ <- expectChildCount expression 1 ;
  match type expression with
  | NodeType.Equal =>
      '(v, expression) <- evaluateChild ev 0 expression ;
      ret (strict_eq lhs v, expression)
  | NodeType.Greater =>
      '(v, expression) <- evaluateChild ev 0 expression ;
      ret (js_lt v lhs, expression)
  | NodeType.GreaterOrEqual =>
      '(v, expression) <- evaluateChild ev 0 expression ;
      ret (js_le v lhs, expression)
  | NodeType.Less =>
      '(v, expression) <- evaluateChild ev 0 expression ;
      ret (js_lt lhs v, expression)
  | NodeType.LessOrEqual =>
      '(v, expression) <- evaluateChild ev 0 expression ;
      ret (js_le lhs v, expression)
  | _ => throw "Unrecognized comparison operator."
  end.

(** *** Modifiers *)

(** [findLeftmostDiceNode] returns a reference to a node on the path of
    first children; here it returns how deep on that path the node is,
    together with the expression as the evaluations on the way left it. *)
Fixpoint findLeftmostDiceNode (ev : Evaluator) (fuel : nat)
    (expression : ExpressionNode) : M (nat * ExpressionNode) :=
  match fuel with
  | O => diverge
  | S fuel =>
      if decide (type expression = NodeType.Dice) then ret (O, expression)
      else if (getChildCount expression <? 1)%nat then throw "Missing dice node."
      else
        match getChild 0 expression with
        | None => throw "Null node reference found."
        | Some child =>
            '(_, child) <- ev child ;
            '(depth, child) <- findLeftmostDiceNode ev fuel child ;
            ret (S depth, putChild 0 child expression)
        end
  end.

(** Running [f] on the node that [findLeftmostDiceNode] returned: what [f]
    does to that node is done inside the expression. *)
Fixpoint atDice {A} (depth : nat) (f : ExpressionNode -> M (A * ExpressionNode))
    (expression : ExpressionNode) : M (A * ExpressionNode) :=
  match depth with
  | O => f expression
  | S depth =>
      match getChild 0 expression with
      | None => throw "Null node reference found."
      | Some child =>
          '(a, child) <- atDice depth f child ;
          ret (a, putChild 0 child expression)
      end
  end.

(** [Array.prototype.sort] with a comparison function: a stable sort; [a]
    stays before [b] unless the function returns a positive number. *)
Section Sort.
Context {A : Type} (before : A -> A -> bool).

Fixpoint insert_sorted (x : A) (l : list A) : list A :=
  match l with
  | [] => [x]
  | y :: l' => if before x y then x :: l else y :: insert_sorted x l'
  end.

Definition stable_sort (l : list A) : list A := foldr insert_sorted [] l.
End Sort.

Definition before_by (sortOrder : ExpressionNode -> ExpressionNode -> value)
    (a b : nat * ExpressionNode) : bool :=
  negb (Js.ltb (Js.Fin 0) (toNumber (sortOrder (snd a) (snd b)))).

Definition descending (a b : ExpressionNode) : value :=
  js_minus (getAttribute "value" b) (getAttribute "value" a).
Definition ascending (a b : ExpressionNode) : value :=
  js_minus (getAttribute "value" a) (getAttribute "value" b).

(** Every roll paired with its index among the children of the dice node:
    the sorted array holds the very objects that are the children. *)
Definition indexed (rolls : list ExpressionNode) : list (nat * ExpressionNode) :=
  zip (seq 0 (length rolls)) rolls.

Fixpoint evaluateRolls (ev : Evaluator) (rolls : list ExpressionNode)
    (total : value) : M (value * list ExpressionNode) :=
  match rolls with
  | [] => ret (total, [])
  | die :: rolls =>
      '(v, die) <- ev die ;
      '(total, rolls) <- evaluateRolls ev rolls (js_plus total v) ;
      ret (total, die :: rolls)
  end.

Definition sortRolls (direction : value) (rolls : list (nat * ExpressionNode))
  : list (nat * ExpressionNode) :=
  if strict_eq direction (VStr "descending")
  then stable_sort (before_by descending) rolls
  else if strict_eq direction (VStr "ascending")
  then stable_sort (before_by ascending) rolls
  else rolls.

Definition getSortedDiceRolls (ev : Evaluator) (dice : ExpressionNode)
    (direction : value)
  : M ((list (nat * ExpressionNode) * value) * ExpressionNode) :=
  '(total, rolls) <- evaluateRolls ev (children dice) (VInt 0) ;
  ret ((sortRolls direction (indexed rolls), total), putChildren rolls dice).

(** The rolls of the sorted array are the children of the dice node: an
    attribute set on one of them is set on the child. *)
Definition writeRolls (rolls : list (nat * ExpressionNode))
    (dice : ExpressionNode) : ExpressionNode :=
  putChildren
    (foldl (fun cs r => <[fst r := snd r]> cs) (children dice) rolls) dice.

Fixpoint keepRolls (rolls : list (nat * ExpressionNode)) (count : nat)
    (countTotal : value) (total : value)
  : list (nat * ExpressionNode) * value :=
  match rolls with
  | [] => ([], total)
  | (i, roll) :: rolls =>
      if js_lt (VInt (Z.of_nat count)) countTotal then
        let roll := setAttribute "drop" (VStr "no") roll in
        let '(rolls, total) :=
          keepRolls rolls (S count) countTotal
            (js_plus total (getAttribute "value" roll)) in
        ((i, roll) :: rolls, total)
      else
        let roll := setAttribute "drop" (VStr "yes") roll in
        let '(rolls, total) := keepRolls rolls (S count) countTotal total in
        ((i, roll) :: rolls, total)
  end.

Fixpoint dropRolls (rolls : list (nat * ExpressionNode)) (count : nat)
    (countTotal : value) (total : value)
  : list (nat * ExpressionNode) * value :=
  match rolls with
  | [] => ([], total)
  | (i, roll) :: rolls =>
      if js_lt (VInt (Z.of_nat count)) countTotal then
        let roll := setAttribute "drop" (VStr "yes") roll in
        let '(rolls, total) := dropRolls rolls (S count) countTotal total in
        ((i, roll) :: rolls, total)
      else
        let roll := setAttribute "drop" (VStr "no") roll in
        let '(rolls, total) :=
          dropRolls rolls (S count) countTotal
            (js_plus total (getAttribute "value" roll)) in
        ((i, roll) :: rolls, total)
  end.

Definition sortDirection (ty : value) : value :=
  if strict_eq ty (VStr "lowest") then VStr "ascending" else VStr "descending".

(** [(getChildCount() > 1) ? evaluate(getChild(1)) : 1] *)
Definition evaluateCountTotal (ev : Evaluator) (expression : ExpressionNode)
  : M (value * ExpressionNode) :=
  if (1 <? getChildCount expression)%nat
  then evaluateChild ev 1 expression
  else ret (VInt 1, expression).

Definition evaluateKeep (ev : Evaluator) (fuel : nat)
    (expression : ExpressionNode) : M (value * ExpressionNode) :=
  _ <- expectChildCount expression 1 ;
  '(depth, expression) <- findLeftmostDiceNode ev fuel expression ;
  '(countTotal, expression) <- evaluateCountTotal ev expression ;
  let ty := getAttribute "type" expression in
  atDice depth (fun dice =>
    '(_, dice) <- ev dice ;
    '((rolls, _), dice) <- getSortedDiceRolls ev dice (sortDirection ty) ;
    let '(rolls, total) := keepRolls rolls 0 countTotal (VInt 0) in
    ret (total, writeRolls rolls dice)) expression.

Definition evaluateDrop (ev : Evaluator) (fuel : nat)
    (expression : ExpressionNode) : M (value * ExpressionNode) :=
  _ <- expectChildCount expression 1 ;
  '(depth, expression) <- findLeftmostDiceNode ev fuel expression ;
  '(countTotal, expression) <- evaluateCountTotal ev expression ;
  let ty := getAttribute "type" expression in
  atDice depth (fun dice =>
    '(_, dice) <- ev dice ;
    '((rolls, _), dice) <- getSortedDiceRolls ev dice (sortDirection ty) ;
    let '(rolls, total) := dropRolls rolls 0 countTotal (VInt 0) in
    ret (total, writeRolls rolls dice)) expression.

Definition evaluateSort (ev : Evaluator) (fuel : nat)
    (expression : ExpressionNode) : M (value * ExpressionNode) :=
  _ <- expectChildCount expression 1 ;
  '(depth, expression) <- findLeftmostDiceNode ev fuel expression ;
  let direction := getAttribute "direction" expression in
  atDice depth (fun dice =>
    '((rolls, total), dice) <- getSortedDiceRolls ev dice direction ;
    ret (total, putChildren (snd <$> rolls) (clearChildren dice))) expression.

(** [if (getChildCount() > 1) { condition = getChild(1); evaluate(condition) }] *)
Definition evaluateCondition (ev : Evaluator) (expression : ExpressionNode)
  : M (option ExpressionNode * ExpressionNode) :=
  if (1 <? getChildCount expression)%nat then
    match getChild 1 expression with
    | None => throw "Null node reference found."
    | Some condition =>
        '(_, condition) <- ev condition ;
        ret (Some condition, putChild 1 condition expression)
    end
  else ret (None, expression).

(** The condition is the second child of the modifier: what the comparisons
    did to it is put back there. *)
Definition putCondition (condition : option ExpressionNode)
    (expression : ExpressionNode) : ExpressionNode :=
  match condition with
  | Some c => putChild 1 c expression
  | None => expression
  end.

(** [condition && evaluateComparison(dieValue, condition, errors)] *)
Definition testCondition (ev : Evaluator) (condition : option ExpressionNode)
    (dieValue : value) : M (bool * option ExpressionNode) :=
  match condition with
  | None => ret (false, None)
  | Some c =>
      '(b, c) <- evaluateComparison ev dieValue c ;
      ret (b, Some c)
  end.

(** The [while] loop of [evaluateExplode]. *)
Fixpoint explodeWhile (ev : Evaluator) (fuel : nat)
    (condition : option ExpressionNode) (sides : value) (penetrate : bool)
    (dieValue total : value) (newRolls : list ExpressionNode)
  : M (value * list ExpressionNode * option ExpressionNode) :=
  match fuel with
  | O => diverge
  | S fuel =>
      '(b, condition) <- testCondition ev condition dieValue ;
      if b || strict_eq dieValue sides then
        '(die, _) <- createDiceRoll ev (inr sides) ;
        '(dieValue, die) <- ev die ;
        let dieValue := if penetrate then js_minus dieValue (VInt 1) else dieValue in
        explodeWhile ev fuel condition sides penetrate dieValue
          (js_plus total dieValue) (newRolls ++ [die])
      else ret (total, newRolls, condition)
  end.

(** The [for] loop of [evaluateExplode] over the children of the dice
    node. *)
Fixpoint explodeRolls (ev : Evaluator) (fuel : nat)
    (condition : option ExpressionNode) (sides : value) (penetrate : bool)
    (rolls : list ExpressionNode) (total : value) (newRolls : list ExpressionNode)
  : M ((value * list ExpressionNode * option ExpressionNode) * list ExpressionNode) :=
  match rolls with
  | [] => ret ((total, newRolls, condition), [])
  | die :: rolls =>
      if strict_eq (getAttribute "drop" die) (VStr "yes") then
        '(r, rolls) <-
          explodeRolls ev fuel condition sides penetrate rolls total newRolls ;
        ret (r, die :: rolls)
      else
        '(dieValue, die) <- ev die ;
        '(total, newRolls, condition) <-
          explodeWhile ev fuel condition sides penetrate dieValue
            (js_plus total dieValue) newRolls ;
        '(r, rolls) <-
          explodeRolls ev fuel condition sides penetrate rolls total newRolls ;
        ret (r, die :: rolls)
  end.

Definition evaluateExplode (ev : Evaluator) (fuel : nat)
    (expression : ExpressionNode) : M (value * ExpressionNode) :=
  _ <- expectChildCount expression 1 ;
  '(depth, expression) <- findLeftmostDiceNode ev fuel expression ;
  let penetrate := strict_eq (getAttribute "penetrate" expression) (VStr "yes") in
  '(condition, expression) <- evaluateCondition ev expression ;
  '((total, condition), expression) <-
    atDice depth (fun dice =>
      '(_, dice) <- ev dice ;
      let sides := getAttribute "sides" dice in
      '((total, newRolls, condition), rolls) <-
        explodeRolls ev fuel condition sides penetrate (children dice)
          (VInt 0) [] ;
      ret ((total, condition), putChildren (rolls ++ newRolls) dice)) expression ;
  ret (total, putCondition condition expression).

(** The [while] loop of [evaluateReroll]. *)
Fixpoint rerollWhile (ev : Evaluator) (fuel : nat)
    (condition : option ExpressionNode) (sides : value) (once : bool)
    (dieValue : value) : M (value * option ExpressionNode) :=
  match fuel with
  | O => diverge
  | S fuel =>
      '(b, condition) <- testCondition ev condition dieValue ;
      if b || strict_eq dieValue (VInt 1) then
        '(r, _) <- createDiceRollValue ev (inr sides) ;
        if once then ret (VNum r, condition)
        else rerollWhile ev fuel condition sides once (VNum r)
      else ret (dieValue, condition)
  end.

Fixpoint rerollRolls (ev : Evaluator) (fuel : nat)
    (condition : option ExpressionNode) (sides : value) (once : bool)
    (rolls : list ExpressionNode) (total : value)
  : M ((value * option ExpressionNode) * list ExpressionNode) :=
  match rolls with
  | [] => ret ((total, condition), [])
  | die :: rolls =>
      if strict_eq (getAttribute "drop" die) (VStr "yes") then
        '(r, rolls) <- rerollRolls ev fuel condition sides once rolls total ;
        ret (r, die :: rolls)
      else
        '(dieValue, die) <- ev die ;
        '(dieValue, condition) <-
          rerollWhile ev fuel condition sides once dieValue ;
        let die := setAttribute "value" dieValue die in
        '(r, rolls) <-
          rerollRolls ev fuel condition sides once rolls (js_plus total dieValue) ;
        ret (r, die :: rolls)
  end.

Definition evaluateReroll (ev : Evaluator) (fuel : nat)
    (expression : ExpressionNode) : M (value * ExpressionNode) :=
  _ <- expectChildCount expression 1 ;
  '(depth, expression) <- findLeftmostDiceNode ev fuel expression ;
  let once := strict_eq (getAttribute "once" expression) (VStr "yes") in
  '(condition, expression) <- evaluateCondition ev expression ;
  '((total, condition), expression) <-
    atDice depth (fun dice =>
      '(_, dice) <- ev dice ;
      let sides := getAttribute "sides" dice in
      '(r, rolls) <-
        rerollRolls ev fuel condition sides once (children dice) (VInt 0) ;
      ret (r, putChildren rolls dice)) expression ;
  ret (total, putCondition condition expression).

Fixpoint criticalRolls (ev : Evaluator) (condition : ExpressionNode)
    (ty : value) (rolls : list ExpressionNode) (total : value)
  : M ((value * ExpressionNode) * list ExpressionNode) :=
  match rolls with
  | [] => ret ((total, condition), [])
  | die :: rolls =>
      '(dieValue, die) <- ev die ;
      '(b, condition) <- evaluateComparison ev dieValue condition ;
      let die := if b : bool then setAttribute "critical" ty die else die in
      '(r, rolls) <-
        criticalRolls ev condition ty rolls (js_plus total dieValue) ;
      ret (r, die :: rolls)
  end.

Definition integerNode (v : value) : ExpressionNode :=
  setAttribute "value" v (Factory.create NodeType.Integer).

(** The condition of [evaluateCritical]: the second child when there is
    one ([Some] is returned with the expression), else a fresh [Equal] node
    that is not part of the tree. *)
Definition criticalCondition (ev : Evaluator) (depth : nat) (ty : value)
    (expression : ExpressionNode)
  : M ((ExpressionNode * bool) * ExpressionNode) :=
  if (1 <? getChildCount expression)%nat then
    '(condition, expression) <- evaluateCondition ev expression ;
    match condition with
    | Some c => ret ((c, true), expression)
    | None => throw "Null node reference found."
    end
  else
    let condition := Factory.create NodeType.Equal in
    if strict_eq ty (VStr "success") then
      '(sides, expression) <-
        atDice depth (fun dice =>
          _ <- expectChildCount dice 2 ;
          ret (getAttribute "sides" dice, dice)) expression ;
      ret ((addChild (integerNode sides) condition, false), expression)
    else ret ((addChild (integerNode (VInt 1)) condition, false), expression).

Definition evaluateCritical (ev : Evaluator) (fuel : nat)
    (expression : ExpressionNode) : M (value * ExpressionNode) :=
  _ <- expectChildCount expression 1 ;
  '(depth, expression) <- findLeftmostDiceNode ev fuel expression ;
  let ty := getAttribute "type" expression in
  '((condition, attached), expression) <-
    criticalCondition ev depth ty expression ;
  '((total, condition), expression) <-
    atDice depth (fun dice =>
      '(_, dice) <- ev dice ;
      '(r, rolls) <- criticalRolls ev condition ty (children dice) (VInt 0) ;
      ret (r, putChildren rolls dice)) expression ;
  ret (total, if attached : bool then putChild 1 condition expression else expression).

(** *** [evaluate] *)

(** The loop over the children of a comparison node; the values are not
    used. *)
Fixpoint evaluateOperands (ev : Evaluator) (idx : list nat)
    (expression : ExpressionNode) : M ExpressionNode :=
  match idx with
  | [] => ret expression
  | x :: idx =>
      '(_, expression) <- evaluateChild ev x expression ;
      evaluateOperands ev idx expression
  end.

(** The body of [evaluate]; [ev] stands for the calls [this.evaluate(...)]
    that the body makes, [fuel] bounds the loops and the descent of the
    modifiers. *)
Definition evaluateNode (ev : Evaluator) (fuel : nat)
    (expression : ExpressionNode) : M (value * ExpressionNode) :=
  if decide (type expression = NodeType.DiceRoll)
  then ret (evaluateDiceRoll expression, expression)
  else if negb (truthy (getAttribute "value" expression)) then
    '(value, expression) <-
      match type expression with
      | NodeType.Add => evaluateBinary ev js_plus expression
      | NodeType.Subtract => evaluateBinary ev js_minus expression
      | NodeType.Multiply => evaluateBinary ev js_times expression
      | NodeType.Divide => evaluateBinary ev js_divide expression
      | NodeType.Modulo => evaluateBinary ev js_modulo expression
      | NodeType.Negate =>
          _ <- expectChildCount expression 1 ;
          '(v, expression) <- evaluateChild ev 0 expression ;
          ret (js_negate v, expression)
      | NodeType.DiceSides => ret (getAttribute "value" expression, expression)
      | NodeType.Dice => evaluateDice ev expression
      | NodeType.Integer => ret (getAttribute "value" expression, expression)
      | NodeType.Function => evaluateFunction ev expression
      | NodeType.Group => evaluateGroup ev expression
      | NodeType.Explode => evaluateExplode ev fuel expression
      | NodeType.Keep => evaluateKeep ev fuel expression
      | NodeType.Drop => evaluateDrop ev fuel expression
      | NodeType.Critical => evaluateCritical ev fuel expression
      | NodeType.Reroll => evaluateReroll ev fuel expression
      | NodeType.Sort => evaluateSort ev fuel expression
      | NodeType.Exponent => evaluateBinary ev Math_pow expression
      | NodeType.Equal | NodeType.Greater | NodeType.GreaterOrEqual
      | NodeType.Less | NodeType.LessOrEqual =>
          expression <-
            evaluateOperands ev (seq 0 (getChildCount expression)) expression ;
          ret (VInt 0, expression)
      | NodeType.DiceRoll => throw "Unrecognized node."
      end ;
    let expression := setAttribute "value" value expression in
    ret (getAttribute "value" expression, expression)
  else ret (getAttribute "value" expression, expression).

(** [evaluate]: the recursion runs on fuel. *)
Fixpoint evaluate (fuel : nat) (expression : ExpressionNode)
  : M (value * ExpressionNode) :=
  match fuel with
  | O => diverge
  | S fuel => evaluateNode (evaluate fuel) fuel expression
  end.

Definition countSuccesses (expression : ExpressionNode) : M Z := ret 0.
Definition countFailures (expression : ExpressionNode) : M Z := ret 0.

End Evaluate.

(** *** The interpreter object and the objects it shares *)

(** A location names an object of the heap. *)
Definition loc : Type := nat.

(** Modelled from the spec: the class [DiceResult] is not among the
    sources.  It holds the tree that was evaluated (by reference), the
    total, the two counters and the errors. *)
Record DiceResult : Type := mkDiceResult {
  reducedExpression : loc;
  total : value;
  successes : Z;
  failures : Z;
  resultErrors : list ErrorMessage
}.

(** The objects that outlive a call: the tables of functions, the trees,
    and the state of the random providers. *)
Record world : Type := World {
  randomState : R;
  tables : gmap loc FunctionDefinitionList;
  trees : gmap loc ExpressionNode
}.

(** [this.functions] is a reference to a table, [this.random] a provider. *)
Record DiceInterpreter : Type := mkDiceInterpreter {
  functions : loc;
  random : RandomProvider
}.

(** The table exported by interpreter/default-function-definitions.ts is one
    object, made when the module is loaded. *)
Definition DefaultFunctionDefinitions : loc := O.

(** What [new DefaultRandomProvider()] does is not part of this
    development. *)
Variable DefaultRandomProvider : RandomProvider.

Definition tableAt (l : loc) (w : world) : FunctionDefinitionList :=
  default ∅ (tables w !! l).

(** [Object.assign(target, source)]: every own property of [source] is
    written into the object [target]. *)
Definition Object_assign (target : loc) (source : option FunctionDefinitionList)
    (w : world) : world :=
  match source with
  | None => w
  | Some fs =>
      World (randomState w) (<[target := fs ∪ tableAt target w]> (tables w))
        (trees w)
  end.

Definition constructor (fns : option FunctionDefinitionList)
    (rnd : option RandomProvider) (w : world) : DiceInterpreter * world :=
  let this_functions := DefaultFunctionDefinitions in
  let w := Object_assign this_functions fns w in
  (mkDiceInterpreter this_functions (default DefaultRandomProvider rnd), w).

(** Modelled from the spec: [ExpressionNode.copy] is not among the sources;
    the copy is a deep clone, a new object that shares nothing with the
    original. *)
Definition copy (expression : loc) (w : world) : option (loc * world) :=
  match trees w !! expression with
  | None => None
  | Some t =>
      let exp := fresh (dom (trees w)) in
      Some (exp, World (randomState w) (tables w) (<[exp := t]> (trees w)))
  end.

Definition interpret (fuel : nat) (this : DiceInterpreter) (expression : loc)
    (w : world) : result (DiceResult * world) :=
  match copy expression w with
  | None => Throw "Cannot read properties of undefined (reading 'copy')"
  | Some (exp, w) =>
      match trees w !! exp with
      | None => Throw "Null node reference found."
      | Some t =>
          let run : M _ :=
            '(total, t) <-
              evaluate (random this) (tableAt (functions this) w) fuel t ;
            successes <- countSuccesses t ;
            fails <- countFailures t ;
            ret (total, successes, fails, t) in
          match run (EState (randomState w) []) with
          | Ok (total, successes, fails, t, st) =>
              Ok (mkDiceResult exp total successes fails (errors st),
                  World (rng st) (tables w) (<[exp := t]> (trees w)))
          | Throw message => Throw message
          | Diverge => Diverge
          end
      end
  end.

End Interpreter.

Abbreviation FunctionDefinitionList R := (gmap string (FunctionDefinition R)).

Arguments expectChildCount {R}.
Arguments evaluateChild {R}.
Arguments evaluateBinary {R}.
Arguments evaluateChildrenFrom {R}.
Arguments createDiceRollValue {R}.
Arguments createDiceRoll {R}.
Arguments rollDice {R}.
Arguments evaluateDice {R}.
Arguments evaluateFunction {R}.
Arguments evaluateGroup {R}.
Arguments evaluateComparison {R}.
Arguments findLeftmostDiceNode {R}.
Arguments atDice {R}.
Arguments evaluateRolls {R}.
Arguments getSortedDiceRolls {R}.
Arguments evaluateCountTotal {R}.
Arguments evaluateKeep {R}.
Arguments evaluateDrop {R}.
Arguments evaluateSort {R}.
Arguments evaluateCondition {R}.
Arguments testCondition {R}.
Arguments explodeWhile {R}.
Arguments explodeRolls {R}.
Arguments evaluateExplode {R}.
Arguments rerollWhile {R}.
Arguments rerollRolls {R}.
Arguments evaluateReroll {R}.
Arguments criticalRolls {R}.
Arguments criticalCondition {R}.
Arguments evaluateCritical {R}.
Arguments evaluateOperands {R}.
Arguments evaluateNode {R}.
Arguments evaluate {R}.
Arguments countSuccesses {R}.
Arguments countFailures {R}.
Arguments numberBetween {R}.
Arguments EState {R}.
Arguments rng {R}.
Arguments errors {R}.
Arguments World {R}.
Arguments randomState {R}.
Arguments tables {R}.
Arguments trees {R}.
Arguments mkDiceInterpreter {R}.
Arguments functions {R}.
Arguments random {R}.
Arguments interpret {R}.
Arguments constructor {R}.
Arguments Object_assign {R}.
Arguments tableAt {R}.
Arguments copy {R}.

(** ** The earlier interpreter (src/interpreter/dice-interpreter.ts)

    The earlier version of [DiceInterpreter] has no array of errors, no
    modifiers and no comparisons; a call of [evaluate] changes the tree and
    the state of the random provider. *)
Module Legacy.
Section Interpreter.

Context {R : Type}.
Variable pow_frac : Q -> Q -> Js.number.
Variable Number_toString : Js.number -> string.

Definition M (A : Type) : Type := ST R A.
Definition Evaluator : Type := ExpressionNode -> M (value * ExpressionNode).
Definition FunctionDefinition : Type := Evaluator -> Evaluator.

Variable random : RandomProvider R.
Variable functions : gmap string FunctionDefinition.

Definition numberBetween (min max : Js.number) : M Js.number :=
  fun g => Ok (random min max g).

(** [ev (expression.getChild(i))]: [evaluate] reads an attribute of its
    argument first, which fails on the [undefined] of a missing child. *)
Definition evaluateChild (ev : Evaluator) (i : nat) (expression : ExpressionNode)
  : M (value * ExpressionNode) :=
  match getChild i expression with
  | None => throw "Cannot read properties of undefined (reading 'getAttribute')"
  | Some child =>
      '(v, child) <- ev child ;
      ret (v, putChild i child expression)
  end.

Definition evaluateBinary (ev : Evaluator) (op : value -> value -> value)
    (expression : ExpressionNode) : M (value * ExpressionNode) :=
  '(a, expression) <- evaluateChild ev 0 expression ;
  '(b, expression) <- evaluateChild ev 1 expression ;
  ret (op a b, expression).

Definition evaluateDiceRoll (expression : ExpressionNode) : value :=
  if negb (strict_eq (getAttribute "success" expression) (VInt 0))
  then getAttribute "value" expression
  else VInt 0.

(** One turn of the loop of [evaluateDice]; [sides] is what [getChild(1)]
    returned before the children were cleared. *)
Definition rollOnce (ev : Evaluator) (sides : option ExpressionNode)
    (total : value) (expression : ExpressionNode)
  : M (option ExpressionNode * value * ExpressionNode) :=
  match sides with
  | None => throw "Cannot read properties of undefined (reading 'getAttribute')"
  | Some sidesNode =>
      let sidesValue := getAttribute "value" sidesNode in
      '(diceRoll, sidesNode) <-
        (if strict_eq sidesValue (VStr "fate")
         then r <- numberBetween (Js.ofZ (-1)) (Js.ofZ 1) ; ret (r, sidesNode)
         else
           '(v, sidesNode) <- ev sidesNode ;
           r <- numberBetween (Js.ofZ 1) (Math_round v) ;
           ret (r, sidesNode)) ;
      let rollNode :=
        setAttribute "sides" sidesValue
          (setAttribute "value" (VNum diceRoll)
             (Factory.create NodeType.DiceRoll)) in
      ret (Some sidesNode, js_plus Number_toString total (VNum diceRoll),
           addChild rollNode expression)
  end.

(** The loop [for (x = 0; x < num; x++)] for a number of turns. *)
Fixpoint rollDice (ev : Evaluator) (turns : nat) (sides : option ExpressionNode)
    (total : value) (expression : ExpressionNode) : M (value * ExpressionNode) :=
  match turns with
  | O => ret (total, expression)
  | S turns =>
      '(sides, total, expression) <- rollOnce ev sides total expression ;
      rollDice ev turns sides total expression
  end.

(** The loop when [num] is [Infinity]: it ends when a turn throws, and
    not otherwise. *)
Fixpoint rollForever (ev : Evaluator) (fuel : nat) (sides : option ExpressionNode)
    (total : value) (expression : ExpressionNode) : M (value * ExpressionNode) :=
  match fuel with
  | O => diverge
  | S fuel =>
      '(sides, total, expression) <- rollOnce ev sides total expression ;
      rollForever ev fuel sides total expression
  end.

Definition evaluateDice (ev : Evaluator) (fuel : nat) (expression : ExpressionNode)
  : M (value * ExpressionNode) :=
  '(count, expression) <- evaluateChild ev 0 expression ;
  let num := Math_round count in
  let sides := getChild 1 expression in
  let expression := clearChildren expression in
  match loopCount num with
  | None => rollForever ev fuel sides (VInt 0) expression
  | Some turns => rollDice ev turns sides (VInt 0) expression
  end.

Definition evaluateFunction (ev : Evaluator) (expression : ExpressionNode)
  : M (value * ExpressionNode) :=
  let fName := getAttribute "name" expression in
  match fName with
  | VStr name =>
      match functions !! name with
      | Some f => f ev expression
      | None => throw ("Unknown function: " ++ name)
      end
  | _ => throw ("Unknown function: " ++ toString Number_toString fName)
  end.

Fixpoint evaluateChildrenFrom (ev : Evaluator) (idx : list nat) (total : value)
    (expression : ExpressionNode) : M (value * ExpressionNode) :=
  match idx with
  | [] => ret (total, expression)
  | x :: idx =>
      '(v, expression) <- evaluateChild ev x expression ;
      evaluateChildrenFrom ev idx (js_plus Number_toString total v) expression
  end.

Definition evaluateGroup (ev : Evaluator) (expression : ExpressionNode)
  : M (value * ExpressionNode) :=
  evaluateChildrenFrom ev (seq 0 (getChildCount expression)) (VInt 0) expression.

(** The body of [evaluate]: a node type that the [switch] does not list
    leaves [value] undefined. *)
Definition evaluateNode (ev : Evaluator) (fuel : nat)
    (expression : ExpressionNode) : M (value * ExpressionNode) :=
  if negb (truthy (getAttribute "value" expression)) then
    '(value, expression) <-
      match type expression with
      | NodeType.Add => evaluateBinary ev (js_plus Number_toString) expression
      | NodeType.Subtract => evaluateBinary ev js_minus expression
      | NodeType.Multiply => evaluateBinary ev js_times expression
      | NodeType.Divide => evaluateBinary ev js_divide expression
      | NodeType.Modulo => evaluateBinary ev js_modulo expression
      | NodeType.Negate =>
          '(v, expression) <- evaluateChild ev 0 expression ;
          ret (js_negate v, expression)
      | NodeType.DiceSides => ret (getAttribute "value" expression, expression)
      | NodeType.Dice => evaluateDice ev fuel expression
      | NodeType.DiceRoll => ret (evaluateDiceRoll expression, expression)
      | NodeType.Integer => ret (getAttribute "value" expression, expression)
      | NodeType.Function => evaluateFunction ev expression
      | NodeType.Group => evaluateGroup ev expression
      | NodeType.Exponent => evaluateBinary ev (Math_pow pow_frac) expression
      | _ => ret (VUndef, expression)
      end ;
    let expression := setAttribute "value" value expression in
    ret (getAttribute "value" expression, expression)
  else ret (getAttribute "value" expression, expression).

(** [evaluate]: the recursion and the endless loop run on fuel. *)
Fixpoint evaluate (fuel : nat) (expression : ExpressionNode)
  : M (value * ExpressionNode) :=
  match fuel with
  | O => diverge
  | S fuel => evaluateNode (evaluate fuel) fuel expression
  end.

Definition countSuccesses (expression : ExpressionNode) : M Z := ret 0.
Definition countFailures (expression : ExpressionNode) : M Z := ret 0.

End Interpreter.
End Legacy.

(** ** Definitions for the statements *)

(** The trees that the parser builds for [n d s], [n dF] and for an integer
    literal. *)
Definition sidesNode (v : value) : ExpressionNode :=
  setAttribute "value" v (Factory.create NodeType.DiceSides).
Definition diceNode (count : ExpressionNode) (sides : value) : ExpressionNode :=
  addChild (sidesNode sides) (addChild count (Factory.create NodeType.Dice)).
Definition nds (n s : Z) : ExpressionNode :=
  diceNode (integerNode (VInt n)) (VInt s).
Definition binaryNode (ty : NodeType.t) (a b : ExpressionNode) : ExpressionNode :=
  addChild b (addChild a (Factory.create ty)).
Definition modifierNode (ty : NodeType.t) (attrs : gmap string value)
    (operands : list ExpressionNode) : ExpressionNode :=
  Node ty operands attrs.

(** A [DiceRoll] node as [createDiceRoll] makes it. *)
Definition rollNode (r : Js.number) : ExpressionNode :=
  setAttribute "drop" (VStr "no")
    (setAttribute "value" (VNum r) (Factory.create NodeType.DiceRoll)).

(** The bounds that [createDiceRollValue] passes to the provider. *)
Definition rollRange (sides : value) : Js.number * Js.number :=
  if strict_eq sides (VStr "fate") then (Js.ofZ (-1), Js.ofZ 1)
  else (Js.ofZ 1, Math_round sides).

(** What [n] successive calls of [numberBetween(min, max)] return. *)
Fixpoint draws {R} (random : RandomProvider R) (min max : Js.number) (n : nat)
    (g : R) : list Js.number * R :=
  match n with
  | O => ([], g)
  | S n =>
      let '(r, g) := random min max g in
      let '(rs, g) := draws random min max n g in
      (r :: rs, g)
  end.

(** The sum of numbers, as [total += v] builds it from [total]. *)
Definition sumFrom (total : Js.number) (rs : list Js.number) : Js.number :=
  foldl Js.add total rs.

(** The contract of a random provider at the bounds [min <= max]: the
    result is an integer of the range. *)
Definition inRange (min max : Z) (r : Js.number) : Prop :=
  exists z : Z, r = Js.ofZ z /\ min <= z <= max.
Definition meetsContract {R} (random : RandomProvider R) (min max : Z) : Prop :=
  forall g, inRange min max (fst (random (Js.ofZ min) (Js.ofZ max) g)).

(** Random providers for the examples: one that answers from a script
    (each answer brought into the range asked for; the lower bound once the
    script is over), and one that always answers the upper bound. *)
Definition clamp (min max : Js.number) (z : Z) : Js.number :=
  if Js.ltb (Js.ofZ z) min then min
  else if Js.ltb max (Js.ofZ z) then max
  else Js.ofZ z.
Definition scripted : RandomProvider (list Z) :=
  fun min max script =>
    match script with
    | [] => (min, [])
    | z :: script => (clamp min max z, script)
    end.
Definition highest : RandomProvider unit := fun min max g => (max, g).

(** Stand-ins for the two functions of the runtime, for the examples; no
    example reaches them. *)
Definition no_pow_frac : Q -> Q -> Js.number := fun _ _ => Js.NaN.
Definition no_toString : Js.number -> string := fun _ => "".

(** [evaluate] with the scripted provider and an empty table of functions. *)
Definition evaluateScripted := evaluate no_pow_frac no_toString scripted ∅.

(** A result that is a dice node with [n] rolls, each an integer of
    [lo..hi], and whose value is the sum of the rolls. *)
Definition rolledWith {R} (n : nat) (lo hi : Z)
    (r : result (value * ExpressionNode * estate R)) : Prop :=
  exists (zs : list Z) (dice : ExpressionNode) (st' : estate R),
    r = Ok (VInt (foldr Z.add 0 zs), dice, st') /\
    type dice = NodeType.Dice /\
    children dice = (fun z => rollNode (Js.ofZ z)) <$> zs /\
    getAttribute "value" dice = VInt (foldr Z.add 0 zs) /\
    length zs = n /\
    Forall (fun z => lo <= z <= hi) zs.

(** What every call [evaluate (S fuel)] does with a roll, and with a node
    whose value is already there and truthy. *)
Definition memoizing {R} (ev : Evaluator R) : Prop :=
  (forall e st, type e = NodeType.DiceRoll ->
     ev e st = Ok (evaluateDiceRoll e, e, st)) /\
  (forall e st, type e <> NodeType.DiceRoll ->
     truthy (getAttribute "value" e) = true ->
     ev e st = Ok (getAttribute "value" e, e, st)).

(** A world that holds one tree, at location 1, and an empty table of
    default functions. *)
Definition worldWith {R} (g : R) (t : ExpressionNode) : world R :=
  World g {[DefaultFunctionDefinitions := ∅]} {[1%nat := t]}.

(** The value of a roll as a number; a roll as [createDiceRoll] and the
    modifiers leave it: a [DiceRoll] node whose value is a finite number. *)
Definition rollValue (c : ExpressionNode) : Js.number :=
  toNumber (getAttribute "value" c).
Definition isRoll (c : ExpressionNode) : Prop :=
  type c = NodeType.DiceRoll /\ exists q, getAttribute "value" c = VNum (Js.Fin q).

(** [a] may stand before [b] in the direction of the sort. *)
Definition inOrder (direction : value) (a b : ExpressionNode) : Prop :=
  if strict_eq direction (VStr "descending")
  then Js.leb (rollValue b) (rollValue a) = true
  else Js.leb (rollValue a) (rollValue b) = true.

(** The children of a dice node as [evaluateSort] reorders them. *)
Definition sortedChildren (direction : value) (rolls : list ExpressionNode)
  : list ExpressionNode :=
  snd <$> sortRolls direction (indexed rolls).

(** What [getSortedDiceRolls] adds up: the rolls that are not dropped. *)
Definition countedValue (c : ExpressionNode) : Js.number :=
  toNumber (evaluateDiceRoll c).
Definition beforeNode (sortOrder : ExpressionNode -> ExpressionNode -> value)
    (a b : ExpressionNode) : bool :=
  negb (Js.ltb (Js.Fin 0) (toNumber (sortOrder a b))).

(** The exact sum of rationals, and the rational that a finite number is. *)
Definition Qsum (qs : list Q) : Q := foldr Qplus 0%Q qs.
Definition finitePart (x : Js.number) : Q :=
  match x with Js.Fin q => q | _ => 0%Q end.

(** The marks that Keep and Drop leave: the rolls of the sorted array, each
    with its index among the children, the first [n] with [drop = first]
    and the others with [drop = rest]. *)
Definition markRolls (first rest : string) (n : nat)
    (rolls : list (nat * ExpressionNode)) : list (nat * ExpressionNode) :=
  imap (fun rank r =>
          (fst r,
           setAttribute "drop" (VStr (if (rank <? n)%nat then first else rest))
             (snd r))) rolls.

(** A roll that counts: its attribute [drop] is ["no"]. *)
Definition isKept (c : ExpressionNode) : bool :=
  strict_eq (getAttribute "drop" c) (VStr "no").

(** The sum of the values of the rolls that count. *)
Definition keptTotal (rolls : list ExpressionNode) : Js.number :=
  sumFrom (Js.ofZ 0) (rollValue <$> filter (fun c => isKept c = true) rolls).

(** The operand that carries the argument of Keep and Drop, when there is
    one; the argument is 1 when there is none. *)
Definition countOperand (argument : option Z) : list ExpressionNode :=
  match argument with
  | Some n => [integerNode (VInt n)]
  | None => []
  end.

(** A roll that an earlier modifier has not dropped. *)
Definition notDropped (c : ExpressionNode) : bool :=
  negb (strict_eq (getAttribute "drop" c) (VStr "yes")).

(** Following the words of the specification: the total of Keep if only the
    rolls not already dropped were ordered and the first [n] of them
    kept. *)
Definition claimedKeepTotal (direction : value) (n : nat)
    (rolls : list ExpressionNode) : Js.number :=
  sumFrom (Js.ofZ 0)
    (rollValue <$> take n (sortedChildren direction
                             (filter (fun c => notDropped c = true) rolls))).

(** The value and the mark of every roll. *)
Definition marks (rolls : list ExpressionNode) : list (value * value) :=
  (fun c => (getAttribute "value" c, getAttribute "drop" c)) <$> rolls.

(** ** Trees on which the evaluation ends *)

(** A value that is a number other than the infinities. *)
Definition notInfinite (v : value) : bool :=
  match v with
  | VNum (Js.Fin _) | VNum Js.NaN => true
  | _ => false
  end.

(** The second child of a dice node as the parser makes it: a [DiceSides]
    node with a value that does not round to an infinity. *)
Definition isSidesLeaf (s : ExpressionNode) : bool :=
  bool_decide (type s = NodeType.DiceSides) &&
  bool_decide (is_Some (attributes s !! "value")) &&
  notInfinite (VNum (Math_round (getAttribute "value" s))).

(** No value is recorded yet. *)
Definition unevaluated (attrs : gmap string value) : bool :=
  bool_decide (attrs !! "value" = None).

(** The trees that the parser builds: integer literals, dice with a count
    and sides, arithmetic, negation, groups, comparisons and function
    calls, none of them evaluated yet, and no modifier.  With [strict], no
    count of a dice node has a division, an exponent or a function call in
    it; [count] tells that the tree is (part of) such a count. *)
Fixpoint shape (strict count : bool) (t : ExpressionNode) : bool :=
  let 'Node ty cs attrs := t in
  match ty with
  | NodeType.Integer => notInfinite (default VUndef (attrs !! "value"))
  | NodeType.Dice =>
      unevaluated attrs &&
      match cs with
      | [c; s] => shape strict strict c && isSidesLeaf s
      | [c] => shape strict count c
      | _ => false
      end
  | NodeType.Add | NodeType.Subtract | NodeType.Multiply | NodeType.Modulo
  | NodeType.Negate | NodeType.Group =>
      unevaluated attrs && forallb (shape strict count) cs
  | NodeType.Divide | NodeType.Exponent | NodeType.Function =>
      negb count && unevaluated attrs && forallb (shape strict false) cs
  | NodeType.Equal | NodeType.Greater | NodeType.GreaterOrEqual
  | NodeType.Less | NodeType.LessOrEqual =>
      unevaluated attrs && forallb (shape strict false) cs
  | _ => false
  end.

(** A random provider that returns a finite number when the bounds are an
    integer and a number other than the infinities. *)
Definition finiteProvider {R} (random : RandomProvider R) : Prop :=
  forall (min : Z) max g,
    notInfinite (VNum max) = true ->
    exists q, fst (random (Js.ofZ min) max g) = Js.Fin q.

(** A function of the table ends when the evaluations that it asks for, of
    the arguments of its node, end. *)
Definition endsWithArguments {R} (f : FunctionDefinition R) : Prop :=
  forall (ev : Evaluator R) e st,
    (forall c st', c ∈ children e -> ev c st' <> Diverge) ->
    f ev e st <> Diverge.

(** An evaluation that ends: it does not diverge, and when the node is part
    of a count, what it returns is a number that is not infinite. *)
Definition endsWell {R A} (count : bool) (r : result (value * A * estate R)) : Prop :=
  match r with
  | Diverge => False
  | Throw _ => True
  | Ok (v, _, _) => count = true -> notInfinite v = true
  end.

(** The operators whose result is not infinite when the operands are
    not. *)
Definition closedOperator (op : value -> value -> value) : Prop :=
  forall a b, notInfinite a = true -> notInfinite b = true ->
              notInfinite (op a b) = true.

(** The condition [>= z] of a modifier. *)
Definition atLeast (z : Z) : ExpressionNode :=
  addChild (integerNode (VInt z)) (Factory.create NodeType.GreaterOrEqual).

(** The custom function [floor] of the README:
    [Math.floor(interpreter.evaluate(functionNode.getChild(0), errors))]. *)
Definition Math_floor (a : value) : Js.number :=
  match toNumber a with
  | Js.Fin q => Js.ofZ (Qfloor q)
  | n => n
  end.
Definition customFloor {R} : FunctionDefinition R :=
  fun ev functionNode =>
    '(v, functionNode) <- evaluateChild ev 0 functionNode ;
    ret (VNum (Math_floor v), functionNode).

(** The trees of the parser: [shape] without the condition on roll
    counts. *)
Definition parserShape (t : ExpressionNode) : Prop := shape false false t = true.

(** The root of a function call or of a group while its list is parsed. *)
Definition listRoot (root : ExpressionNode) : Prop :=
  (type root = NodeType.Function \/ type root = NodeType.Group) /\
  unevaluated (attributes root) = true /\
  Forall parserShape (children root).

(** Every result of a computation satisfies [P]. *)
Definition yields {S A} (P : A -> Prop) (c : ST S A) : Prop :=
  forall st a st', c st = Ok (a, st') -> P a.

(** ** Trees without dice *)

(** No truthy value is recorded: [evaluate] computes the node. *)
Definition falsyValue (attrs : gmap string value) : bool :=
  negb (truthy (default VUndef (attrs !! "value"))).

(** Trees of literals, rolls that were made, arithmetic with the number of
    operands that [evaluate] expects, groups and comparisons; no operator
    node has a truthy value yet. *)
Fixpoint arithmetic (t : ExpressionNode) : bool :=
  let 'Node ty cs attrs := t in
  match ty with
  | NodeType.Integer | NodeType.DiceSides | NodeType.DiceRoll => true
  | NodeType.Add | NodeType.Subtract | NodeType.Multiply | NodeType.Divide
  | NodeType.Modulo | NodeType.Exponent =>
      falsyValue attrs &&
      match cs with
      | [a; b] => arithmetic a && arithmetic b
      | _ => false
      end
  | NodeType.Negate =>
      falsyValue attrs &&
      match cs with
      | [a] => arithmetic a
      | _ => false
      end
  | NodeType.Group
  | NodeType.Equal | NodeType.Greater | NodeType.GreaterOrEqual
  | NodeType.Less | NodeType.LessOrEqual =>
      falsyValue attrs && forallb arithmetic cs
  | _ => false
  end.

Section Denote.
Variable pow_frac : Q -> Q -> Js.number.
Variable Number_toString : Js.number -> string.

(** The value of an arithmetic tree. *)
Fixpoint denote (t : ExpressionNode) : value :=
  let 'Node ty cs attrs := t in
  match ty, cs with
  | (NodeType.Integer | NodeType.DiceSides), _ => default VUndef (attrs !! "value")
  | NodeType.DiceRoll, _ => evaluateDiceRoll t
  | NodeType.Add, [a; b] => js_plus Number_toString (denote a) (denote b)
  | NodeType.Subtract, [a; b] => js_minus (denote a) (denote b)
  | NodeType.Multiply, [a; b] => js_times (denote a) (denote b)
  | NodeType.Divide, [a; b] => js_divide (denote a) (denote b)
  | NodeType.Modulo, [a; b] => js_modulo (denote a) (denote b)
  | NodeType.Exponent, [a; b] => Math_pow pow_frac (denote a) (denote b)
  | NodeType.Negate, [a] => js_negate (denote a)
  | NodeType.Group, _ => foldl (js_plus Number_toString) (VInt 0) (denote <$> cs)
  | _, _ => VInt 0
  end.

(** The tree with the value of every node that [evaluate] computes recorded
    in the node. *)
Fixpoint annotate (t : ExpressionNode) : ExpressionNode :=
  let 'Node ty cs attrs := t in
  match ty with
  | NodeType.DiceRoll => t
  | NodeType.Integer | NodeType.DiceSides =>
      if falsyValue attrs then setAttribute "value" (denote t) t else t
  | _ => Node ty (annotate <$> cs) (<["value" := denote t]> attrs)
  end.
End Denote.

(** ** The marks of Critical *)

(** The value that a roll is compared with when Critical has no condition:
    the sides of the dice for the type ["success"], 1 for any other. *)
Definition criticalTarget (ty : value) (dice : ExpressionNode) : value :=
  if strict_eq ty (VStr "success") then getAttribute "sides" dice else VInt 1.

(** The rolls as [evaluateCritical] leaves them: a roll whose value, 0 when
    it is dropped, is the target has the attribute [critical]. *)
Definition markCritical (ty target : value) (rolls : list ExpressionNode)
  : list ExpressionNode :=
  (fun die =>
     if strict_eq (evaluateDiceRoll die) target
     then setAttribute "critical" ty die else die) <$> rolls.

(** ** Rolls that are integers *)

(** The rolls of a dice node that [evaluateDice] has just made, for a
    provider that returns integers. *)
Definition integerRolls (zs : list Z) : list ExpressionNode :=
  (fun z => rollNode (Js.ofZ z)) <$> zs.

(** How many of the rolls show [face]. *)
Definition showing (face : Z) (zs : list Z) : nat :=
  length (filter (fun z => z = face) zs).

(** The rolls after Reroll with [once]: each roll that shows 1 is replaced
    by the next of the new rolls. *)
Fixpoint rerolled (zs new : list Z) : list Z :=
  match zs with
  | [] => []
  | z :: zs =>
      if z =? 1 then
        match new with
        | r :: new => r :: rerolled zs new
        | [] => z :: rerolled zs []
        end
      else z :: rerolled zs new
  end.

(** ** Providers that leave a face *)

(** Asked for a number between [lo] and [hi] again and again, the provider
    in the state [g] returns a number other than [face] at the [b]th call
    at the latest. *)
Fixpoint settles {R} (random : RandomProvider R) (lo hi face : Z) (b : nat)
    (g : R) : bool :=
  match b with
  | O => false
  | S b =>
      let '(r, g) := random (Js.ofZ lo) (Js.ofZ hi) g in
      negb (strict_eq (VNum r) (VInt face)) || settles random lo hi face b g
  end.
Definition leaves {R} (random : RandomProvider R) (lo hi face : Z) (b : nat)
  : Prop :=
  forall g, settles random lo hi face b g = true.

(** A provider that returns the lowest and the highest number in turn. *)
Definition alternating : RandomProvider bool :=
  fun min max g => (if g then min else max, negb g).

(** What Reroll makes of a roll: a roll that shows 1 becomes a roll of the
    range that does not, any other roll stays. *)
Definition rerolledFrom (s z z' : Z) : Prop :=
  z' <> 1 /\ (z <> 1 -> z' = z) /\ (z = 1 -> 1 <= z' <= s).

(** ** The array of errors *)

(** A computation that returns leaves the array [errors] as it found
    it. *)
Definition keepsErrors {R A} (c : ST (estate R) A) : Prop :=
  forall st a st', c st = Ok (a, st') -> errors st' = errors st.

(** A function of the table that appends nothing to [errors], as long as
    the [evaluate] it is given appends nothing. *)
Definition quietFunction {R} (f : FunctionDefinition R) : Prop :=
  forall (ev : Evaluator R) e,
    (forall c, keepsErrors (ev c)) -> keepsErrors (f ev e).

(** ** The two versions of the interpreter *)

(** The trees on which the two versions are compared: literals, dice with
    a count and a [DiceSides] leaf that has a truthy value, arithmetic
    with its operands, groups; no node but a leaf has a truthy value. *)
Fixpoint plain (t : ExpressionNode) : bool :=
  let 'Node ty cs attrs := t in
  match ty with
  | NodeType.Integer | NodeType.DiceSides => true
  | NodeType.Add | NodeType.Subtract | NodeType.Multiply | NodeType.Divide
  | NodeType.Modulo | NodeType.Exponent =>
      falsyValue attrs &&
      match cs with
      | [a; b] => plain a && plain b
      | _ => false
      end
  | NodeType.Negate =>
      falsyValue attrs &&
      match cs with
      | [a] => plain a
      | _ => false
      end
  | NodeType.Group => falsyValue attrs && forallb plain cs
  | NodeType.Dice =>
      falsyValue attrs &&
      match cs with
      | [c; s] =>
          plain c && bool_decide (type s = NodeType.DiceSides) &&
          truthy (getAttribute "value" s)
      | _ => false
      end
  | _ => false
  end.

(** Two results agree: both are returned, related by [P] and with the
    same state of the random provider, or both are an exception, or both
    diverge. *)
Definition agreeWith {R A B} (P : A -> B -> Prop) (old : result (A * R))
    (new : result (B * estate R)) : Prop :=
  match old, new with
  | Ok (a, g), Ok (b, st) => P a b /\ g = rng st
  | Throw _, Throw _ => True
  | Diverge, Diverge => True
  | _, _ => False
  end.

(** The results of two evaluations agree on the value. *)
Definition agree {R} (old : result (value * ExpressionNode * R))
    (new : result (value * ExpressionNode * estate R)) : Prop :=
  agreeWith (fun x y => fst x = fst y) old new.

(** ** Tokens that the parser consumes *)

(** The parser, run on the tokens [ts], ends, and when it returns it has
    consumed at least [d] tokens and holds a suffix no longer than
    before. *)
Definition within {A} (d : nat) (p : Parser.P A) (ts : list Token) : Prop :=
  match p ts with
  | Diverge => False
  | Throw _ => True
  | Ok (_, ts') => (length ts' + d <= length ts)%nat
  end.

(** ** Sums of products *)

(** A product is written as integer tokens joined by the operators of
    [MultiOperatorMap]; a sum as products joined by the operators of
    [AddOperatorMap], after an optional sign. *)
Abbreviation writtenProduct := (Token * list (Token * Token))%type.
Abbreviation writtenSum :=
  (option Token * writtenProduct * list (Token * writtenProduct))%type.

Definition productTokens (p : writtenProduct) : list Token :=
  fst p :: flat_map (fun x => [fst x; snd x]) (snd p).
Definition sumTokens (s : writtenSum) : list Token :=
  match fst (fst s) with Some sign => [sign] | None => [] end ++
  productTokens (snd (fst s)) ++
  flat_map (fun x => fst x :: productTokens (snd x)) (snd s).

Definition wellFormedProduct (p : writtenProduct) : Prop :=
  tokenType (fst p) = TokenType.Integer /\
  Forall (fun x => is_Some (Parser.MultiOperatorMap (tokenType (fst x))) /\
                   tokenType (snd x) = TokenType.Integer) (snd p).
Definition wellFormedSum (s : writtenSum) : Prop :=
  (forall sign, fst (fst s) = Some sign ->
     is_Some (Parser.AddOperatorMap (tokenType sign))) /\
  wellFormedProduct (snd (fst s)) /\
  Forall (fun x => is_Some (Parser.AddOperatorMap (tokenType (fst x))) /\
                   wellFormedProduct (snd x)) (snd s).

(** The trees that they stand for: the operators group from the left, a
    product is one operand of a sum, and the sign is that of the first
    product. *)
Definition literal (n : Token) : ExpressionNode :=
  setAttribute "value" (VNum (Number_of_string (tokenValue n)))
    (Factory.create NodeType.Integer).
Definition operatorNode (map : TokenType.t -> option NodeType.t) (op : Token)
    (a b : ExpressionNode) : ExpressionNode :=
  binaryNode (default NodeType.Add (map (tokenType op))) a b.
Definition productTree (p : writtenProduct) : ExpressionNode :=
  foldl (fun root x => operatorNode Parser.MultiOperatorMap (fst x) root (literal (snd x)))
    (literal (fst p)) (snd p).
Definition signed (sign : option Token) (t : ExpressionNode) : ExpressionNode :=
  match sign with
  | Some tok =>
      if decide (tokenType tok = TokenType.Minus)
      then addChild t (Factory.create NodeType.Negate) else t
  | None => t
  end.
Definition sumTree (s : writtenSum) : ExpressionNode :=
  foldl (fun root x => operatorNode Parser.AddOperatorMap (fst x) root (productTree (snd x)))
    (signed (fst (fst s)) (productTree (snd (fst s)))) (snd s).

(** The sums of the examples: [-2*3+4**2/5], [1+2] and [3*4], with the
    positions that the lexer gives their tokens in [-2*3+4**2/5] and in
    [1+2>=3*4]. *)
Definition exampleSum : writtenSum :=
  (Some (mkToken TokenType.Minus 0 "-"),
   (mkToken TokenType.Integer 1 "2",
    [(mkToken TokenType.Asterisk 2 "*", mkToken TokenType.Integer 3 "3")]),
   [(mkToken TokenType.Plus 4 "+",
     (mkToken TokenType.Integer 5 "4",
      [(mkToken TokenType.DoubleAsterisk 6 "**", mkToken TokenType.Integer 8 "2");
       (mkToken TokenType.Slash 9 "/", mkToken TokenType.Integer 10 "5")]))]).
Definition exampleLeft : writtenSum :=
  (None, (mkToken TokenType.Integer 0 "1", []),
   [(mkToken TokenType.Plus 1 "+", (mkToken TokenType.Integer 2 "2", []))]).
Definition exampleRight : writtenSum :=
  (None,
   (mkToken TokenType.Integer 5 "3",
    [(mkToken TokenType.Asterisk 6 "*", mkToken TokenType.Integer 7 "4")]), []).

(** The type of the token that comes next. *)
Definition nextType (ts : list Token) : TokenType.t :=
  tokenType (default Lexer.endOfInput (head ts)).

(** A token that cannot continue a sum: it is no operator, and it is not
    the identifier of a dice roll. *)
Definition endsExpression (ty : TokenType.t) : Prop :=
  ty <> TokenType.Identifier /\
  Parser.MultiOperatorMap ty = None /\
  Parser.AddOperatorMap ty = None /\
  Parser.BooleanOperatorMap ty = None.

(** ** Dice rolls, brackets and lists *)

(** A token after which a term, a sum and a comparison end: it is no
    operator. *)
Definition noOperator (ty : TokenType.t) : Prop :=
  Parser.MultiOperatorMap ty = None /\
  Parser.AddOperatorMap ty = None /\
  Parser.BooleanOperatorMap ty = None.

(** A dice roll is written as an integer and an identifier, which the
    integer of the sides follows when the identifier is [d]. *)
Definition rollTokens (n id : Token) (s : option Token) : list Token :=
  n :: id :: match s with Some s => [s] | None => [] end.
Definition wellFormedRoll (n id : Token) (s : option Token) : Prop :=
  tokenType n = TokenType.Integer /\ tokenType id = TokenType.Identifier /\
  match s with
  | Some s => tokenValue id = "d" /\ tokenType s = TokenType.Integer
  | None => tokenValue id <> "d"
  end.

(** The tree that it stands for: the sides are a number after [d], and
    ["fate"] for [dF]; any other identifier leaves the Dice node without
    sides. *)
Definition rollTree (n id : Token) (s : option Token) : ExpressionNode :=
  match s with
  | Some s => diceNode (literal n) (VNum (Number_of_string (tokenValue s)))
  | None =>
      if String.eqb (tokenValue id) "dF"
      then diceNode (literal n) (VStr "fate")
      else addChild (literal n) (Factory.create NodeType.Dice)
  end.

(** The product of a tree and the integers that follow it, each after an
    operator of [MultiOperatorMap]. *)
Definition factorTokens (pairs : list (Token * Token)) : list Token :=
  flat_map (fun x => [fst x; snd x]) pairs.
Definition wellFormedFactors (pairs : list (Token * Token)) : Prop :=
  Forall (fun x => is_Some (Parser.MultiOperatorMap (tokenType (fst x))) /\
                   tokenType (snd x) = TokenType.Integer) pairs.
Definition factorsOn (root : ExpressionNode) (pairs : list (Token * Token))
  : ExpressionNode :=
  foldl (fun root x =>
           operatorNode Parser.MultiOperatorMap (fst x) root (literal (snd x)))
    root pairs.

(** The arguments of a function call and the members of a group are
    written as sums separated by commas; there may be none. *)
Abbreviation writtenList := (option (writtenSum * list (Token * writtenSum))).
Definition listTokens (l : writtenList) : list Token :=
  match l with
  | None => []
  | Some (s, more) =>
      sumTokens s ++ flat_map (fun x => fst x :: sumTokens (snd x)) more
  end.
Definition wellFormedList (l : writtenList) : Prop :=
  match l with
  | None => True
  | Some (s, more) =>
      wellFormedSum s /\
      Forall (fun x => tokenType (fst x) = TokenType.Comma /\
                       wellFormedSum (snd x)) more
  end.
Definition listTrees (l : writtenList) : list ExpressionNode :=
  match l with
  | None => []
  | Some (s, more) => sumTree s :: ((fun x => sumTree (snd x)) <$> more)
  end.

(** The lists of the examples: [1+2, 3*4], with the positions that the
    lexer gives the tokens in [max(1+2,3*4)]. *)
Definition exampleList : writtenList :=
  Some ((None, (mkToken TokenType.Integer 4 "1", []),
         [(mkToken TokenType.Plus 5 "+", (mkToken TokenType.Integer 6 "2", []))]),
        [(mkToken TokenType.Comma 7 ",",
          (None,
           (mkToken TokenType.Integer 8 "3",
            [(mkToken TokenType.Asterisk 9 "*", mkToken TokenType.Integer 10 "4")]),
           []))]).

(** The sum [1+2], with the positions of its tokens in [(1+2)*3]. *)
Definition exampleBracketed : writtenSum :=
  (None, (mkToken TokenType.Integer 1 "1", []),
   [(mkToken TokenType.Plus 2 "+", (mkToken TokenType.Integer 3 "2", []))]).

(** * Properties *)

(** ** Numbers *)

Lemma Qred_inject_Z (z : Z) : Qred (inject_Z z) = inject_Z z.
Proof.
  unfold Qred, inject_Z.
  pose proof (Z.ggcd_gcd z 1) as Hg.
  pose proof (Z.ggcd_correct_divisors z 1) as Hd.
  destruct (Z.ggcd z 1) as [g [a b]]; simpl in *.
  rewrite Z.gcd_1_r in Hg; subst g. destruct Hd as [-> Hb].
  rewrite Z.mul_1_l. replace b with 1 by lia. reflexivity.
Qed.

Lemma fin_eq (p q : Q) : (p == q)%Q -> Js.fin p = Js.fin q.
Proof. intros H. unfold Js.fin. f_equal. by apply Qred_complete. Qed.

Lemma add_ofZ (a b : Z) : Js.add (Js.ofZ a) (Js.ofZ b) = Js.ofZ (a + b).
Proof.
  unfold Js.ofZ; simpl. rewrite <- (Qred_inject_Z (a + b)).
  apply fin_eq. rewrite inject_Z_plus. reflexivity.
Qed.

Lemma Qfloor_half (z : Z) : Qfloor (inject_Z z + (1 # 2)) = z.
Proof.
  unfold Qfloor, Qplus, inject_Z; simpl.
  symmetry. apply Z.div_unique with (r := 1); lia.
Qed.

Lemma round_ofZ (z : Z) : Js.round (Js.ofZ z) = Js.ofZ z.
Proof. unfold Js.round, Js.ofZ. by rewrite Qfloor_half. Qed.

(** [Math.round] returns the integer [r] with [r - 1/2 <= q < r + 1/2]:
    the nearest integer, and the upper one at a tie. *)
Lemma round_nearest (q : Q) :
  exists r : Z,
    Js.round (Js.Fin q) = Js.ofZ r /\
    (inject_Z r - (1 # 2) <= q)%Q /\ (q < inject_Z r + (1 # 2))%Q.
Proof.
  exists (Qfloor (q + (1 # 2))). split; [done|].
  pose proof (Qfloor_le (q + (1 # 2))) as Hle.
  pose proof (Qlt_floor (q + (1 # 2))) as Hlt.
  rewrite inject_Z_plus in Hlt. change (inject_Z 1) with 1%Q in Hlt.
  split.
  - apply Qplus_le_l with (z := (1 # 2)). ring_simplify.
    ring_simplify in Hle. exact Hle.
  - apply Qplus_lt_l with (z := (1 # 2)).
    eapply Qlt_le_trans; [exact Hlt|]. ring_simplify. apply Qle_refl.
Qed.

Lemma truthy_ofZ (z : Z) : Js.truthy (Js.ofZ z) = negb (Z.eqb z 0).
Proof. reflexivity. Qed.

(** ** Attributes and children *)

Lemma getAttribute_setAttribute k v e : getAttribute k (setAttribute k v e) = v.
Proof. unfold getAttribute, setAttribute; simpl. by rewrite lookup_insert_eq. Qed.

Lemma getAttribute_setAttribute_ne k k' v e :
  k <> k' -> getAttribute k' (setAttribute k v e) = getAttribute k' e.
Proof.
  intros. unfold getAttribute, setAttribute; simpl. by rewrite lookup_insert_ne.
Qed.

Lemma setAttribute_same k e :
  is_Some (attributes e !! k) -> setAttribute k (getAttribute k e) e = e.
Proof.
  intros [v Hv]. destruct e as [ty cs a]; unfold setAttribute, getAttribute in *.
  simpl in *. rewrite Hv; simpl. by rewrite insert_id.
Qed.

Lemma putChild_same i c e : getChild i e = Some c -> putChild i c e = e.
Proof.
  destruct e as [ty cs a]; unfold getChild, putChild; simpl; intros H.
  by rewrite list_insert_id.
Qed.

(** ** Rolling dice *)

Lemma draws_length {R} (random : RandomProvider R) min max n g :
  length (fst (draws random min max n g)) = n.
Proof.
  revert g. induction n as [|n IH]; intros g; [done|].
  simpl. destruct (random min max g) as [r g1]. specialize (IH g1).
  destruct (draws random min max n g1). simpl in *. by rewrite IH.
Qed.

Lemma draws_inRange {R} (random : RandomProvider R) min max n g :
  meetsContract random min max ->
  exists zs, fst (draws random (Js.ofZ min) (Js.ofZ max) n g) = Js.ofZ <$> zs /\
             Forall (fun z => min <= z <= max) zs.
Proof.
  intros Hc. revert g. induction n as [|n IH]; intros g.
  - exists []. by split.
  - simpl. destruct (Hc g) as (z & Hz & Hrange).
    destruct (random _ _ g) as [r g1]. simpl in Hz; subst r.
    destruct (IH g1) as (zs & Hzs & Hall).
    destruct (draws random _ _ n g1). simpl in *; subst.
    exists (z :: zs). split; [done|]. by constructor.
Qed.

Lemma sumFrom_ofZ (a : Z) (zs : list Z) :
  sumFrom (Js.ofZ a) (Js.ofZ <$> zs) = Js.ofZ (a + foldr Z.add 0 zs).
Proof.
  unfold sumFrom. revert a.
  induction zs as [|z zs IH]; intros a; cbn [fmap list_fmap foldl foldr].
  - by rewrite Z.add_0_r.
  - rewrite add_ofZ, IH. f_equal. lia.
Qed.

Lemma loopCount_round (q : Q) :
  loopCount (Js.round (Js.Fin q)) = Some (Z.to_nat (Qfloor (q + (1 # 2)))).
Proof. unfold Js.round, Js.ofZ, loopCount. by rewrite Qceiling_Z. Qed.

Section EvaluateFacts.
Context {R : Type} (pow_frac : Q -> Q -> Js.number)
  (Number_toString : Js.number -> string)
  (random : RandomProvider R) (fns : FunctionDefinitionList R).

Local Abbreviation eval := (evaluate pow_frac Number_toString random fns).

Lemma evaluate_DiceRoll fuel e st :
  type e = NodeType.DiceRoll ->
  eval (S fuel) e st = Ok (evaluateDiceRoll e, e, st).
Proof.
  intros H. cbn [evaluate]. unfold evaluateNode.
  rewrite decide_True by done. reflexivity.
Qed.

Lemma evaluate_memo fuel e st :
  type e <> NodeType.DiceRoll ->
  truthy (getAttribute "value" e) = true ->
  eval (S fuel) e st = Ok (getAttribute "value" e, e, st).
Proof.
  intros H1 H2. cbn [evaluate]. unfold evaluateNode.
  rewrite decide_False by done. rewrite H2. reflexivity.
Qed.

Lemma evaluate_memoizing fuel : memoizing (eval (S fuel)).
Proof. split; intros; [by apply evaluate_DiceRoll | by apply evaluate_memo]. Qed.

Lemma evaluate_leaf fuel e st :
  type e = NodeType.Integer \/ type e = NodeType.DiceSides ->
  is_Some (attributes e !! "value") ->
  eval (S fuel) e st = Ok (getAttribute "value" e, e, st).
Proof.
  intros Hty Hv. cbn [evaluate]. unfold evaluateNode.
  rewrite decide_False by (destruct Hty as [-> | ->]; done).
  destruct (truthy _); simpl; [done|].
  destruct Hty as [-> | ->]; unfold bind, ret; simpl;
    rewrite getAttribute_setAttribute, setAttribute_same; done.
Qed.

Lemma evaluateDiceRoll_rollNode r : evaluateDiceRoll (rollNode r) = VNum r.
Proof. reflexivity. Qed.

Lemma createDiceRoll_sides ev sides st :
  memoizing ev ->
  type sides = NodeType.DiceSides ->
  truthy (getAttribute "value" sides) = true ->
  createDiceRoll random ev (inl sides) st =
  let '(min, max) := rollRange (getAttribute "value" sides) in
  let '(r, g) := random min max (rng st) in
  Ok (rollNode r, inl sides, EState g (errors st)).
Proof.
  intros [_ Hmemo] Hty Hv.
  unfold createDiceRoll, createDiceRollValue, rollRange, bind.
  destruct (strict_eq _ _).
  - unfold numberBetween, ret. by destruct (random _ _ _).
  - rewrite Hmemo by (done || by rewrite Hty).
    unfold numberBetween, ret. by destruct (random _ _ _).
Qed.

Lemma rollDice_spec ev sides turns total e st :
  memoizing ev ->
  type sides = NodeType.DiceSides ->
  truthy (getAttribute "value" sides) = true ->
  rollDice Number_toString random ev turns (inl sides) (VNum total) e st =
  let '(min, max) := rollRange (getAttribute "value" sides) in
  let '(rs, g) := draws random min max turns (rng st) in
  Ok (VNum (sumFrom total rs),
      putChildren (children e ++ (rollNode <$> rs)) e,
      EState g (errors st)).
Proof.
  intros Hev Hty Hv. revert total e st.
  induction turns as [|turns IH]; intros total e st.
  - simpl. destruct (rollRange _). destruct e, st; simpl. by rewrite app_nil_r.
  - cbn [rollDice]. unfold bind at 1.
    rewrite createDiceRoll_sides by done.
    cbn [draws]. destruct (rollRange _) as [min max] eqn:Hrange.
    destruct (random min max (rng st)) as [r g1].
    unfold bind. rewrite (proj1 Hev) by done.
    rewrite evaluateDiceRoll_rollNode.
    change (js_plus _ (VNum total) (VNum r)) with (VNum (Js.add total r)).
    rewrite IH. cbn [rng errors].
    destruct (draws random min max turns g1) as [rs g2].
    cbn. by rewrite <- app_assoc.
Qed.

Lemma evaluateDice_spec ev count sides rest attrs v count' st st1 turns :
  memoizing ev ->
  ev count st = Ok (v, count', st1) ->
  type sides = NodeType.DiceSides ->
  truthy (getAttribute "value" sides) = true ->
  loopCount (Math_round v) = Some turns ->
  evaluateDice Number_toString random ev
    (Node NodeType.Dice (count :: sides :: rest) attrs) st =
  let '(min, max) := rollRange (getAttribute "value" sides) in
  let '(rs, g) := draws random min max turns (rng st1) in
  Ok (VNum (sumFrom (Js.ofZ 0) rs),
      Node NodeType.Dice (rollNode <$> rs)
        (<["sides" := getAttribute "value" sides]> attrs),
      EState g (errors st1)).
Proof.
  intros Hev Hcount Hty Hv Hturns.
  unfold evaluateDice, bind, expectChildCount, evaluateChild, getChild.
  cbn [children getChildCount length Nat.ltb Nat.leb lookup list_lookup ret].
  unfold bind. rewrite Hcount. cbn [putChild children list_insert].
  cbn. rewrite (proj2 Hev) by (done || by rewrite Hty).
  rewrite Hturns.
  pose proof (rollDice_spec ev sides turns (Js.ofZ 0)) as Hroll.
  unfold VInt. rewrite Hroll by done.
  destruct (rollRange _) as [min max].
  destruct (draws random min max turns (rng st1)) as [rs g]. reflexivity.
Qed.

Lemma evaluate_Dice fuel count sides rest attrs v count' st st1 turns :
  truthy (default VUndef (attrs !! "value")) = false ->
  eval (S fuel) count st = Ok (v, count', st1) ->
  type sides = NodeType.DiceSides ->
  truthy (getAttribute "value" sides) = true ->
  loopCount (Math_round v) = Some turns ->
  eval (S (S fuel)) (Node NodeType.Dice (count :: sides :: rest) attrs) st =
  let '(min, max) := rollRange (getAttribute "value" sides) in
  let '(rs, g) := draws random min max turns (rng st1) in
  Ok (VNum (sumFrom (Js.ofZ 0) rs),
      Node NodeType.Dice (rollNode <$> rs)
        (<["value" := VNum (sumFrom (Js.ofZ 0) rs)]>
           (<["sides" := getAttribute "value" sides]> attrs)),
      EState g (errors st1)).
Proof.
  intros Hfalsy Hcount Hty Hv Hturns.
  change (eval (S (S fuel))) with (evaluateNode pow_frac Number_toString random fns
                                     (eval (S fuel)) (S fuel)).
  unfold evaluateNode. rewrite decide_False by done.
  unfold getAttribute at 1. cbn [attributes]. rewrite Hfalsy. cbn [negb type].
  unfold bind at 1.
  rewrite (evaluateDice_spec _ _ _ _ _ _ _ _ _ _ (evaluate_memoizing fuel)
             Hcount Hty Hv Hturns).
  destruct (rollRange _) as [min max].
  destruct (draws random min max turns (rng st1)) as [rs g].
  unfold ret. by rewrite getAttribute_setAttribute.
Qed.

Lemma evaluate_diceNode fuel count (s : Z) q count' st st1 :
  1 <= s ->
  meetsContract random 1 s ->
  eval (S fuel) count st = Ok (VNum (Js.Fin q), count', st1) ->
  rolledWith (Z.to_nat (Qfloor (q + (1 # 2)))) 1 s
    (eval (S (S fuel)) (diceNode count (VInt s)) st).
Proof.
  intros Hs Hc Hcount.
  unfold diceNode, addChild, Factory.create; cbn [type children attributes app].
  erewrite evaluate_Dice; [|done|exact Hcount|done| |apply loopCount_round].
  2:{ unfold sidesNode. rewrite getAttribute_setAttribute. cbn.
      unfold Js.Qis_zero; cbn. destruct s; done || lia. }
  unfold sidesNode at 1. rewrite getAttribute_setAttribute.
  unfold rollRange. cbn [strict_eq VInt]. unfold Math_round, toNumber, VInt.
  rewrite round_ofZ.
  destruct (draws_inRange random 1 s (Z.to_nat (Qfloor (q + (1 # 2)))) (rng st1) Hc)
    as (zs & Hzs & Hall).
  pose proof (draws_length random (Js.ofZ 1) (Js.ofZ s)
                (Z.to_nat (Qfloor (q + (1 # 2)))) (rng st1)) as Hlen.
  destruct (draws random _ _ _ (rng st1)) as [rs g]. simpl in Hzs, Hlen. subst rs.
  rewrite sumFrom_ofZ, Z.add_0_l.
  eexists zs, _, _. split; [reflexivity|].
  split; [done|]. split; [by rewrite <- list_fmap_compose|].
  split; [unfold getAttribute; cbn [attributes]; by rewrite lookup_insert_eq|].
  split; [by rewrite length_fmap in Hlen|done].
Qed.

Lemma two_fifths_d6 fuel st :
  eval (S (S (S fuel)))
    (diceNode (binaryNode NodeType.Divide (integerNode (VInt 2)) (integerNode (VInt 5)))
       (VInt 6)) st =
  Ok (VInt 0,
      Node NodeType.Dice [] (<["value" := VInt 0]> (<["sides" := VInt 6]> ∅)),
      st).
Proof. vm_compute. reflexivity. Qed.


(** [n d s] with any random provider. *)
Lemma evaluate_nds fuel (n s : Z) st :
  1 <= s ->
  eval (S (S fuel)) (nds n s) st =
  let '(rs, g) := draws random (Js.ofZ 1) (Js.ofZ s) (Z.to_nat n) (rng st) in
  Ok (VNum (sumFrom (Js.ofZ 0) rs),
      Node NodeType.Dice (rollNode <$> rs)
        (<["value" := VNum (sumFrom (Js.ofZ 0) rs)]> (<["sides" := VInt s]> ∅)),
      EState g (errors st)).
Proof.
  intros Hs.
  unfold nds, diceNode, addChild, Factory.create; cbn [type children attributes app].
  erewrite evaluate_Dice with (v := VInt n) (turns := Z.to_nat n); [|done| |done| |].
  - unfold sidesNode at 1 2. rewrite !getAttribute_setAttribute.
    unfold rollRange. cbn [strict_eq VInt]. unfold Math_round, toNumber, VInt.
    by rewrite round_ofZ.
  - rewrite evaluate_leaf; [|by left|].
    + unfold integerNode. by rewrite getAttribute_setAttribute.
    + unfold integerNode, setAttribute; cbn [attributes].
      rewrite lookup_insert_eq. by eexists.
  - unfold sidesNode. rewrite getAttribute_setAttribute. cbn.
    unfold Js.Qis_zero; cbn. destruct s; done || lia.
  - unfold Math_round, toNumber, VInt. rewrite round_ofZ.
    unfold loopCount, Js.ofZ. by rewrite Qceiling_Z.
Qed.
End EvaluateFacts.


(** ** [interpret] *)

Section InterpretFacts.
Context {R : Type} (pow_frac : Q -> Q -> Js.number)
  (Number_toString : Js.number -> string).

Local Abbreviation interp := (interpret pow_frac Number_toString).
Local Abbreviation evalWith this w :=
  (evaluate pow_frac Number_toString (random this) (tableAt (functions this) w)).

(** [interpret] evaluates a copy that it allocates, and returns it. *)
Lemma interpret_Ok fuel (this : DiceInterpreter R) expression w t v t' st' :
  trees w !! expression = Some t ->
  evalWith this w fuel t (EState (randomState w) []) = Ok (v, t', st') ->
  interp fuel this expression w =
  Ok (mkDiceResult (fresh (dom (trees w))) v 0 0 (errors st'),
      World (rng st') (tables w) (<[fresh (dom (trees w)) := t']> (trees w))).
Proof.
  intros Ht Hev. unfold interpret, copy. rewrite Ht.
  cbn [trees tables randomState]. rewrite lookup_insert_eq.
  unfold bind, countSuccesses, countFailures, ret.
  unfold tableAt in *. cbn [tables]. rewrite Hev.
  by rewrite insert_insert_eq.
Qed.

(** Whatever [interpret] returns comes from an evaluation of the tree that
    the location holds. *)
Lemma interpret_inv fuel (this : DiceInterpreter R) expression w r w' :
  interp fuel this expression w = Ok (r, w') ->
  exists t v t' st',
    trees w !! expression = Some t /\
    evalWith this w fuel t (EState (randomState w) []) = Ok (v, t', st') /\
    r = mkDiceResult (fresh (dom (trees w))) v 0 0 (errors st') /\
    w' = World (rng st') (tables w) (<[fresh (dom (trees w)) := t']> (trees w)).
Proof.
  intros H. destruct (trees w !! expression) as [t|] eqn:Ht.
  2:{ unfold interpret, copy in H. by rewrite Ht in H. }
  destruct (evalWith this w fuel t (EState (randomState w) []))
    as [[[v t'] st']| |] eqn:Hev.
  - erewrite interpret_Ok in H by eassumption. injection H as <- <-.
    by eexists _, _, _, _.
  - unfold interpret, copy in H. rewrite Ht in H.
    cbn [trees tables randomState] in H. rewrite lookup_insert_eq in H.
    unfold bind, tableAt in *. cbn [tables] in H. by rewrite Hev in H.
  - unfold interpret, copy in H. rewrite Ht in H.
    cbn [trees tables randomState] in H. rewrite lookup_insert_eq in H.
    unfold bind, tableAt in *. cbn [tables] in H. by rewrite Hev in H.
Qed.

(** C9.  Whatever the expression and the random provider, the result that
    [interpret] returns has 0 successes and 0 failures, also when the
    expression has a comparison at the top, as [4d20>=15] has. *)
Theorem interpret_counts_nothing fuel (this : DiceInterpreter R) expression w r w' :
  interp fuel this expression w = Ok (r, w') ->
  successes r = 0 /\ failures r = 0.
Proof.
  intros H. apply interpret_inv in H as (t & v & t' & st' & _ & _ & -> & _).
  by split.
Qed.

End InterpretFacts.

Lemma interpret_counts_nothing_witness :
  exists r w',
    Parser.parseString "4d20>=15" =
      Ok (binaryNode NodeType.GreaterOrEqual (nds 4 20) (integerNode (VInt 15))) /\
    interpret no_pow_frac no_toString 4 (mkDiceInterpreter O scripted) 1%nat
      (worldWith [3; 18; 19; 20]
         (binaryNode NodeType.GreaterOrEqual (nds 4 20) (integerNode (VInt 15)))) =
      Ok (r, w') /\
    successes r = 0 /\ failures r = 0.
Proof.
  destruct (interpret no_pow_frac no_toString 4 (mkDiceInterpreter O scripted) 1%nat
              (worldWith [3; 18; 19; 20]
                 (binaryNode NodeType.GreaterOrEqual (nds 4 20)
                    (integerNode (VInt 15))))) as [[r w']| |] eqn:Hi.
  - exists r, w'. split; [vm_compute; reflexivity|]. split; [reflexivity|].
    exact (interpret_counts_nothing no_pow_frac no_toString _ _ _ _ _ _ Hi).
  - vm_compute in Hi. discriminate.
  - vm_compute in Hi. discriminate.
Defined.

(** ** The constructor and the table of default functions *)

(** C10.  The constructor writes the custom functions into the shared table
    of default functions, to which [this.functions] refers: of two
    interpreters made one after the other, the second, made without custom
    functions, consults a table that holds every function given to the
    first. *)
Theorem constructor_shares_default_table {R : Type}
    (DefaultRandomProvider : RandomProvider R) (fns : FunctionDefinitionList R)
    (rnd1 rnd2 : option (RandomProvider R)) (w : world R) :
  let '(first, w1) := constructor DefaultRandomProvider (Some fns) rnd1 w in
  let '(second, w2) := constructor DefaultRandomProvider None rnd2 w1 in
  functions first = DefaultFunctionDefinitions /\
  functions second = functions first /\
  tableAt DefaultFunctionDefinitions w1 =
    fns ∪ tableAt DefaultFunctionDefinitions w /\
  w2 = w1 /\
  fns ⊆ tableAt (functions second) w2.
Proof.
  unfold constructor, Object_assign. cbn [functions].
  assert (Ht : tableAt DefaultFunctionDefinitions
                 (World (randomState w)
                    (<[DefaultFunctionDefinitions :=
                         fns ∪ tableAt DefaultFunctionDefinitions w]> (tables w))
                    (trees w)) = fns ∪ tableAt DefaultFunctionDefinitions w).
  { unfold tableAt at 1. cbn [tables]. by rewrite lookup_insert_eq. }
  repeat split; try done.
  rewrite Ht. apply map_union_subseteq_l.
Qed.

(** ** Precedence of the exponent, and the limits on rolls *)

(** C2, as the code has it.  [**] is looked up in the same table as [*],
    [/] and [%], and the operators of that table group from the left:
    [2*3**2] is parsed as [(2*3)**2], and interpreting it gives 36 with
    every random provider and every table of functions. *)
Theorem exponent_shares_precedence {R : Type} (pow_frac : Q -> Q -> Js.number)
    (Number_toString : Js.number -> string) (this : DiceInterpreter R)
    (w : world R) (expression : loc) (fuel : nat) :
  trees w !! expression =
    Some (binaryNode NodeType.Exponent
            (binaryNode NodeType.Multiply (integerNode (VInt 2)) (integerNode (VInt 3)))
            (integerNode (VInt 2))) ->
  Parser.parseString "2*3**2" =
    Ok (binaryNode NodeType.Exponent
          (binaryNode NodeType.Multiply (integerNode (VInt 2)) (integerNode (VInt 3)))
          (integerNode (VInt 2))) /\
  exists r w',
    interpret pow_frac Number_toString (S (S (S fuel))) this expression w =
      Ok (r, w') /\
    total r = VInt 36.
Proof.
  intros Ht. split; [vm_compute; reflexivity|].
  eexists _, _. split; [|shelve].
  eapply interpret_Ok; [exact Ht|]. vm_compute. reflexivity.
  Unshelve. reflexivity.
Qed.

Lemma exponent_shares_precedence_witness :
  exists r w',
    interpret no_pow_frac no_toString 3 (mkDiceInterpreter O scripted) 1%nat
      (worldWith []
         (binaryNode NodeType.Exponent
            (binaryNode NodeType.Multiply (integerNode (VInt 2))
               (integerNode (VInt 3)))
            (integerNode (VInt 2)))) = Ok (r, w') /\
    total r = VInt 36.
Proof.
  apply (exponent_shares_precedence no_pow_frac no_toString
           (mkDiceInterpreter O scripted) (worldWith [] _) 1%nat 0%nat).
  reflexivity.
Defined.

(** C2 as it is stated fails: interpreting [2*3**2] gives 36, not 18. *)
Lemma exponent_precedence_counterexample :
  exists t r w',
    Parser.parseString "2*3**2" = Ok t /\
    interpret no_pow_frac no_toString 3 (mkDiceInterpreter O scripted) 1%nat
      (worldWith [] t) = Ok (r, w') /\
    total r = VInt 36 /\ total r <> VInt 18.
Proof.
  eexists _, _, _. split; [vm_compute; reflexivity|].
  split; [eapply interpret_Ok; [reflexivity|vm_compute; reflexivity]|].
  split; [reflexivity|discriminate].
Qed.

(** C3, at the input of the specification.  The interpreter takes no
    configuration and [evaluateDice] checks no maximum: [50d10] is rolled
    in full with every random provider, and no error is recorded. *)
Theorem rolls_are_not_limited {R : Type} (pow_frac : Q -> Q -> Js.number)
    (Number_toString : Js.number -> string) (this : DiceInterpreter R)
    (w : world R) (expression : loc) (fuel : nat) :
  trees w !! expression = Some (nds 50 10) ->
  exists r w' dice,
    interpret pow_frac Number_toString (S (S fuel)) this expression w =
      Ok (r, w') /\
    resultErrors r = [] /\
    trees w' !! reducedExpression r = Some dice /\
    type dice = NodeType.Dice /\
    length (children dice) = 50%nat /\
    Forall (fun c => type c = NodeType.DiceRoll) (children dice).
Proof.
  intros Ht.
  pose proof (evaluate_nds pow_frac Number_toString (random this)
                (tableAt (functions this) w) fuel 50 10
                (EState (randomState w) []) ltac:(lia)) as Hev.
  pose proof (draws_length (random this) (Js.ofZ 1) (Js.ofZ 10) (Z.to_nat 50)
                (randomState w)) as Hlen.
  cbn [rng errors] in Hev.
  destruct (draws (random this) (Js.ofZ 1) (Js.ofZ 10) (Z.to_nat 50)
              (randomState w)) as [rs g].
  eexists _, _, _. split; [eapply interpret_Ok; [exact Ht|exact Hev]|].
  cbn [resultErrors reducedExpression trees errors].
  split; [done|]. split; [apply lookup_insert_eq|]. split; [done|].
  cbn [children fst] in *. split; [by rewrite length_fmap, Hlen|].
  apply Forall_fmap. by apply Forall_true.
Qed.

Lemma rolls_are_not_limited_witness :
  exists r w' dice,
    interpret no_pow_frac no_toString 2 (mkDiceInterpreter O highest) 1%nat
      (worldWith tt (nds 50 10)) = Ok (r, w') /\
    resultErrors r = [] /\
    trees w' !! reducedExpression r = Some dice /\
    type dice = NodeType.Dice /\
    length (children dice) = 50%nat /\
    Forall (fun c => type c = NodeType.DiceRoll) (children dice).
Proof.
  apply (rolls_are_not_limited no_pow_frac no_toString
           (mkDiceInterpreter O highest) (worldWith tt (nds 50 10)) 1%nat 0%nat).
  reflexivity.
Defined.

(** ** [interpret] works on a copy *)

Lemma fresh_tree_None {R} (w : world R) : trees w !! fresh (dom (trees w)) = None.
Proof. apply not_elem_of_dom. apply is_fresh. Qed.



(** ** A value that is 0 is not taken for a cached value *)

(** C4, at inputs on which the code departs from it.  [evaluate] tests the
    attribute [value] for truthiness, so a node whose value is 0 is
    evaluated again.  [2dF] that rolled 1 and -1 has total 0; a second
    [evaluate] takes its two rolls for the count and the sides, consults
    the random provider again and replaces the rolls.  [(2/5)d6] rolls no
    die and has total 0; a second [evaluate], and also a Keep modifier
    applied to it, throws for want of the two children. *)
Theorem zero_total_is_rolled_again :
  (exists dice st dice' st' v,
     evaluateScripted 3%nat (diceNode (integerNode (VInt 2)) (VStr "fate"))
        (EState [1; -1; 5] []) = Ok (VInt 0, dice, st) /\
     children dice = [rollNode (Js.ofZ 1); rollNode (Js.ofZ (-1))] /\
     getAttribute "value" dice = VInt 0 /\
     evaluateScripted 3%nat dice st = Ok (v, dice', st') /\
     children dice' = [rollNode (Js.ofZ (-1))] /\
     rng st = [5] /\ rng st' = []) /\
  (exists dice st,
     evaluateScripted 3%nat
        (diceNode (binaryNode NodeType.Divide (integerNode (VInt 2))
                     (integerNode (VInt 5))) (VInt 6))
        (EState [] []) = Ok (VInt 0, dice, st) /\
     children dice = [] /\
     evaluateScripted 3%nat dice st =
       Throw "Expected Dice node to have 2 children, but found 0.") /\
  evaluateScripted 4%nat
     (modifierNode NodeType.Keep ∅
        [diceNode (binaryNode NodeType.Divide (integerNode (VInt 2))
                     (integerNode (VInt 5))) (VInt 6)])
     (EState [] []) =
    Throw "Expected Dice node to have 2 children, but found 0.".
Proof.
  split; [|split].
  - eexists _, _, _, _, _. split; [vm_compute; reflexivity|].
    split; [vm_compute; reflexivity|]. split; [vm_compute; reflexivity|].
    split; [vm_compute; reflexivity|]. split; [vm_compute; reflexivity|].
    split; reflexivity.
  - eexists _, _. split; [vm_compute; reflexivity|].
    split; [reflexivity|]. vm_compute. reflexivity.
  - vm_compute. reflexivity.
Qed.

(** ** Sorting *)

Section SortFacts.
Context {A : Type} (before : A -> A -> bool).

Local Abbreviation R := (fun a b => before a b = true).

Lemma insert_sorted_Permutation x l : insert_sorted before x l ≡ₚ x :: l.
Proof.
  induction l as [|y l IH]; [done|]. simpl. destruct (before x y); [done|].
  rewrite IH. apply Permutation_swap.
Qed.

Lemma stable_sort_Permutation l : stable_sort before l ≡ₚ l.
Proof.
  induction l as [|x l IH]; [done|]. unfold stable_sort in *; simpl.
  by rewrite insert_sorted_Permutation, IH.
Qed.

Lemma insert_sorted_HdRel x l : HdRel R x l -> insert_sorted before x l = x :: l.
Proof. destruct 1 as [|y l H]; [done|]. simpl. by rewrite H. Qed.

Lemma stable_sort_sorted l : Sorted R l -> stable_sort before l = l.
Proof.
  induction 1 as [|x l Hl IH Hx]; [done|]. unfold stable_sort in *; simpl.
  rewrite IH. by apply insert_sorted_HdRel.
Qed.

Hypothesis before_total : forall a b, before a b = false -> before b a = true.

Lemma insert_sorted_Sorted x l : Sorted R l -> Sorted R (insert_sorted before x l).
Proof.
  induction 1 as [|y l Hl IH Hy]; simpl; [by repeat constructor|].
  destruct (before x y) eqn:Hxy.
  - by repeat constructor.
  - constructor; [done|]. destruct Hy as [|z l Hyz]; simpl.
    + constructor. by apply before_total.
    + destruct (before x z); constructor; [by apply before_total|done].
Qed.

Lemma stable_sort_Sorted l : Sorted R (stable_sort before l).
Proof.
  induction l as [|x l IH]; [constructor|]. by apply insert_sorted_Sorted.
Qed.

Lemma stable_sort_idempotent l :
  stable_sort before (stable_sort before l) = stable_sort before l.
Proof. apply stable_sort_sorted, stable_sort_Sorted. Qed.

End SortFacts.

(** The comparison functions of [getSortedDiceRolls]. *)

Lemma Qred_pos_iff (q : Q) : (0 < Qred q)%Q <-> (0 < q)%Q.
Proof. by rewrite (Qred_correct q). Qed.

Lemma sub_positive_flip (x y : Js.number) :
  Js.ltb (Js.Fin 0) (Js.sub x y) = true -> Js.ltb (Js.Fin 0) (Js.sub y x) = false.
Proof.
  destruct x as [p| | |], y as [q| | |]; try done.
  unfold Js.sub, Js.neg, Js.add, Js.fin, Js.ltb.
  destruct (Qcompare_spec 0 (Qred (p + Qred (- q)))) as [H|H|H]; try done.
  intros _. rewrite (Qred_correct (p + Qred (- q))), (Qred_correct (- q)) in H.
  destruct (Qcompare_spec 0 (Qred (q + Qred (- p)))) as [H'|H'|H']; try done.
  rewrite (Qred_correct (q + Qred (- p))), (Qred_correct (- p)) in H'.
  exfalso. apply (Qlt_irrefl 0).
  assert (0 + 0 < (p + - q) + (q + - p))%Q as H2 by (by apply Qplus_lt_le_compat; [|apply Qlt_le_weak]).
  ring_simplify in H2. exact H2.
Qed.

Lemma leb_Fin (x y : Q) : Js.leb (Js.Fin x) (Js.Fin y) = true <-> (x <= y)%Q.
Proof.
  unfold Js.leb, Js.ltb, Js.eqb. rewrite orb_true_iff, Qeq_bool_iff.
  destruct (Qcompare_spec x y) as [H|H|H]; split; intros H'; lra.
Qed.

Lemma sub_not_positive (x y : Q) :
  Js.ltb (Js.Fin 0) (Js.sub (Js.Fin x) (Js.Fin y)) = false <-> (x <= y)%Q.
Proof.
  unfold Js.sub, Js.neg, Js.add, Js.fin, Js.ltb.
  destruct (Qcompare_spec 0 (Qred (x + Qred (- y)))) as [H|H|H];
    rewrite (Qred_correct (x + Qred (- y))), (Qred_correct (- y)) in H;
    split; intros H'; try done; lra.
Qed.

(** The order that the comparison functions induce on nodes. *)
Lemma before_by_node sortOrder a b :
  before_by sortOrder a b = beforeNode sortOrder (snd a) (snd b).
Proof. done. Qed.

Lemma beforeNode_total sortOrder :
  sortOrder = ascending \/ sortOrder = descending ->
  forall a b, beforeNode sortOrder a b = false -> beforeNode sortOrder b a = true.
Proof.
  intros Hso a b. unfold beforeNode. rewrite negb_false_iff, negb_true_iff.
  destruct Hso as [-> | ->]; unfold ascending, descending, js_minus, toNumber;
    apply sub_positive_flip.
Qed.

Lemma beforeNode_ascending a b :
  isRoll a -> isRoll b ->
  beforeNode ascending a b = true <-> inOrder (VStr "ascending") a b.
Proof.
  intros [_ [p Hp]] [_ [q Hq]].
  unfold beforeNode, ascending, inOrder, rollValue, js_minus.
  change (strict_eq _ _) with false. cbv iota.
  rewrite Hp, Hq. cbn [toNumber]. rewrite negb_true_iff.
  etransitivity; [apply sub_not_positive|symmetry; apply leb_Fin].
Qed.

Lemma beforeNode_descending a b :
  isRoll a -> isRoll b ->
  beforeNode descending a b = true <-> inOrder (VStr "descending") a b.
Proof.
  intros [_ [p Hp]] [_ [q Hq]].
  unfold beforeNode, descending, inOrder, rollValue, js_minus.
  change (strict_eq _ _) with true. cbv iota.
  rewrite Hp, Hq. cbn [toNumber]. rewrite negb_true_iff.
  etransitivity; [apply sub_not_positive|symmetry; apply leb_Fin].
Qed.

Lemma stable_sort_fmap {A B} (f : A -> B) (before : B -> B -> bool) (l : list A) :
  f <$> stable_sort (fun a b => before (f a) (f b)) l = stable_sort before (f <$> l).
Proof.
  induction l as [|x l IH]; [done|]. unfold stable_sort in *. cbn [foldr fmap list_fmap].
  rewrite <- IH. generalize (foldr (insert_sorted (fun a b => before (f a) (f b))) [] l).
  intros s. induction s as [|y s IHs]; [done|]. cbn.
  destruct (before (f x) (f y)); [done|]. cbn. by rewrite IHs.
Qed.

Lemma snd_indexed (rolls : list ExpressionNode) : snd <$> indexed rolls = rolls.
Proof. unfold indexed. apply snd_zip. by rewrite length_seq. Qed.

Lemma sortedChildren_ascending rolls :
  sortedChildren (VStr "ascending") rolls = stable_sort (beforeNode ascending) rolls.
Proof.
  unfold sortedChildren, sortRolls. change (strict_eq _ _) with false at 1.
  change (strict_eq _ _) with true. cbv iota.
  rewrite <- (snd_indexed rolls) at 2.
  exact (stable_sort_fmap snd (beforeNode ascending) (indexed rolls)).
Qed.

Lemma sortedChildren_descending rolls :
  sortedChildren (VStr "descending") rolls = stable_sort (beforeNode descending) rolls.
Proof.
  unfold sortedChildren, sortRolls. change (strict_eq _ _) with true at 1. cbv iota.
  rewrite <- (snd_indexed rolls) at 2.
  exact (stable_sort_fmap snd (beforeNode descending) (indexed rolls)).
Qed.

Lemma Sorted_weaken {A} (P : A -> Prop) (R1 R2 : A -> A -> Prop) (l : list A) :
  (forall a b, P a -> P b -> R1 a b -> R2 a b) ->
  Forall P l -> Sorted R1 l -> Sorted R2 l.
Proof.
  intros HR HP Hs. induction Hs as [|x l Hl IH Hx]; [constructor|].
  apply Forall_cons in HP as [Hpx HP]. constructor; [by apply IH|].
  destruct Hx as [|y l Hxy]; constructor.
  apply Forall_cons in HP as [Hpy _]. by apply HR.
Qed.

Section SortedChildren.
Variable d : string.
Hypothesis Hd : d = "ascending" \/ d = "descending".

Lemma sortedChildren_Permutation rolls : sortedChildren (VStr d) rolls ≡ₚ rolls.
Proof.
  destruct Hd as [-> | ->].
  - rewrite sortedChildren_ascending. apply stable_sort_Permutation.
  - rewrite sortedChildren_descending. apply stable_sort_Permutation.
Qed.

Lemma sortedChildren_isRoll rolls :
  Forall isRoll rolls -> Forall isRoll (sortedChildren (VStr d) rolls).
Proof. intros H. by rewrite sortedChildren_Permutation. Qed.

Lemma sortedChildren_Sorted rolls :
  Forall isRoll rolls -> Sorted (inOrder (VStr d)) (sortedChildren (VStr d) rolls).
Proof.
  intros Hrolls. pose proof (sortedChildren_isRoll rolls Hrolls) as Hs.
  destruct Hd as [-> | ->].
  - rewrite sortedChildren_ascending in *.
    eapply Sorted_weaken; [|exact Hs|apply stable_sort_Sorted, beforeNode_total; by left].
    intros a b Ha Hb. by apply beforeNode_ascending.
  - rewrite sortedChildren_descending in *.
    eapply Sorted_weaken; [|exact Hs|apply stable_sort_Sorted, beforeNode_total; by right].
    intros a b Ha Hb. by apply beforeNode_descending.
Qed.

Lemma sortedChildren_idempotent rolls :
  sortedChildren (VStr d) (sortedChildren (VStr d) rolls) = sortedChildren (VStr d) rolls.
Proof.
  destruct Hd as [-> | ->].
  - rewrite !sortedChildren_ascending. apply stable_sort_idempotent, beforeNode_total. by left.
  - rewrite !sortedChildren_descending. apply stable_sort_idempotent, beforeNode_total. by right.
Qed.
End SortedChildren.

(** ** Sums of finite numbers *)

Lemma add_fin (a q : Q) : Js.add (Js.fin a) (Js.Fin q) = Js.fin (a + q).
Proof. unfold Js.add, Js.fin at 1. apply fin_eq. by rewrite (Qred_correct a). Qed.

Lemma sumFrom_fin (a : Q) (qs : list Q) :
  sumFrom (Js.fin a) (Js.Fin <$> qs) = Js.fin (a + Qsum qs).
Proof.
  unfold sumFrom. revert a.
  induction qs as [|q qs IH]; intros a; cbn [fmap list_fmap foldl foldr Qsum].
  - apply fin_eq. lra.
  - rewrite add_fin, IH. apply fin_eq. unfold Qsum. lra.
Qed.

Lemma Qsum_Permutation qs qs' : qs ≡ₚ qs' -> (Qsum qs == Qsum qs')%Q.
Proof.
  induction 1 as [|x l l' _ IH|x y l|l l' l'' _ IH1 _ IH2]; cbn [Qsum foldr] in *.
  - reflexivity.
  - unfold Qsum in IH. lra.
  - lra.
  - unfold Qsum in *. lra.
Qed.

Lemma finite_list (xs : list Js.number) :
  Forall (fun x => exists q, x = Js.Fin q) xs -> xs = Js.Fin <$> (finitePart <$> xs).
Proof.
  induction 1 as [|x l [q ->] _ IH]; [done|]. cbn. by rewrite <- IH.
Qed.

Lemma sumFrom_Permutation (xs ys : list Js.number) :
  Forall (fun x => exists q, x = Js.Fin q) xs ->
  xs ≡ₚ ys -> sumFrom (Js.ofZ 0) xs = sumFrom (Js.ofZ 0) ys.
Proof.
  intros Hfin Hperm.
  assert (Hfin' : Forall (fun x => exists q, x = Js.Fin q) ys) by (by rewrite <- Hperm).
  rewrite (finite_list _ Hfin), (finite_list _ Hfin').
  change (Js.ofZ 0) with (Js.fin 0). rewrite !sumFrom_fin. apply fin_eq.
  assert (Hq : finitePart <$> xs ≡ₚ finitePart <$> ys) by (by rewrite Hperm).
  apply Qsum_Permutation in Hq. lra.
Qed.

(** ** Modifiers on a dice node that has been rolled *)

Lemma evaluateDiceRoll_isRoll c : isRoll c -> evaluateDiceRoll c = VNum (countedValue c).
Proof.
  intros [_ [q Hq]]. unfold countedValue, evaluateDiceRoll. rewrite Hq.
  by destruct (negb _).
Qed.

Lemma putChildren_children e : putChildren (children e) e = e.
Proof. by destruct e. Qed.

Section ModifierFacts.
Context {R : Type} (pow_frac : Q -> Q -> Js.number)
  (Number_toString : Js.number -> string)
  (random : RandomProvider R) (fns : FunctionDefinitionList R).

Local Abbreviation eval := (evaluate pow_frac Number_toString random fns).

Lemma evaluateRolls_rolls (ev : Evaluator R) rolls total st :
  memoizing ev -> Forall isRoll rolls ->
  evaluateRolls Number_toString ev rolls (VNum total) st =
  Ok (VNum (sumFrom total (countedValue <$> rolls)), rolls, st).
Proof.
  intros Hev Hrolls. revert total.
  induction Hrolls as [|c rolls Hc _ IH]; intros total; [done|].
  cbn [evaluateRolls]. unfold bind. rewrite (proj1 Hev) by apply Hc.
  rewrite (evaluateDiceRoll_isRoll c Hc).
  change (js_plus _ (VNum total) (VNum (countedValue c)))
    with (VNum (Js.add total (countedValue c))).
  by rewrite IH.
Qed.

Lemma getSortedDiceRolls_rolls (ev : Evaluator R) dice direction st :
  memoizing ev -> Forall isRoll (children dice) ->
  getSortedDiceRolls Number_toString ev dice direction st =
  Ok (sortRolls direction (indexed (children dice)),
      VNum (sumFrom (Js.ofZ 0) (countedValue <$> children dice)),
      dice, st).
Proof.
  intros Hev Hrolls. unfold getSortedDiceRolls, bind, VInt.
  rewrite evaluateRolls_rolls by done. unfold ret. by rewrite putChildren_children.
Qed.

Lemma findLeftmostDiceNode_child (ev : Evaluator R) fuel e dice dice' v st st1 :
  type e <> NodeType.Dice ->
  getChild 0 e = Some dice ->
  ev dice st = Ok (v, dice', st1) ->
  type dice' = NodeType.Dice ->
  findLeftmostDiceNode ev (S (S fuel)) e st = Ok (1%nat, putChild 0 dice' e, st1).
Proof.
  intros Hty Hchild Hev Hdice. cbn [findLeftmostDiceNode].
  rewrite decide_False by done.
  assert (Hcount : (getChildCount e <? 1)%nat = false).
  { apply Nat.ltb_ge. unfold getChildCount, getChild in *.
    apply lookup_lt_Some in Hchild. lia. }
  rewrite Hcount, Hchild. unfold bind. rewrite Hev.
  rewrite decide_True by done. reflexivity.
Qed.

Lemma evaluate_Sort fuel dice dice' rest attrs direction v st st1 :
  truthy (default VUndef (attrs !! "value")) = false ->
  eval (S (S fuel)) dice st = Ok (v, dice', st1) ->
  type dice' = NodeType.Dice ->
  Forall isRoll (children dice') ->
  direction = default VUndef (attrs !! "direction") ->
  eval (S (S (S fuel))) (Node NodeType.Sort (dice :: rest) attrs) st =
  let total := VNum (sumFrom (Js.ofZ 0) (countedValue <$> children dice')) in
  Ok (total,
      Node NodeType.Sort
        (putChildren (sortedChildren direction (children dice')) dice' :: rest)
        (<["value" := total]> attrs),
      st1).
Proof.
  intros Hfalsy Hev Hdice Hrolls ->.
  change (eval (S (S (S fuel)))) with (evaluateNode pow_frac Number_toString random fns
                                     (eval (S (S fuel))) (S (S fuel))).
  unfold evaluateNode. rewrite decide_False by done.
  unfold getAttribute at 1. cbn [attributes]. rewrite Hfalsy. cbn [negb type].
  unfold bind at 1. unfold evaluateSort, bind.
  cbn [expectChildCount getChildCount children length Nat.ltb Nat.leb ret].
  erewrite findLeftmostDiceNode_child; [|done|done|exact Hev|done].
  cbn [atDice putChild children list_insert getChild lookup list_lookup].
  change (<[0%nat:=dice']> (dice :: rest) !! 0%nat) with (Some dice').
  unfold bind. rewrite getSortedDiceRolls_rolls by (done || apply evaluate_memoizing).
  cbn [ret]. unfold ret. rewrite getAttribute_setAttribute.
  destruct dice' as [ty cs a]. reflexivity.
Qed.

Lemma countedValue_finite rolls :
  Forall isRoll rolls ->
  Forall (fun x => exists q, x = Js.Fin q) (countedValue <$> rolls).
Proof.
  intros H. apply Forall_fmap. eapply Forall_impl; [exact H|].
  intros c [_ [q Hq]]. unfold compose, countedValue, evaluateDiceRoll.
  rewrite Hq. destruct (negb _); by eexists.
Qed.

(** C7.  A Sort modifier, ascending or descending, applied to a Dice node
    whose evaluation leaves rolls with finite values: the children of the
    Dice node become the same rolls in the order of their values; they are
    a permutation of what they were; sorting what is sorted changes
    nothing; and the attributes of the Dice node, its total among them,
    are what they were.  When the total is not 0, a Sort modifier applied to
    the sorted node returns the same node. *)
Theorem sort_modifier_reorders fuel dice dice' rest attrs (d : string) v st st1 :
  d = "ascending" \/ d = "descending" ->
  attrs !! "direction" = Some (VStr d) ->
  truthy (default VUndef (attrs !! "value")) = false ->
  eval (S (S fuel)) dice st = Ok (v, dice', st1) ->
  type dice' = NodeType.Dice ->
  Forall isRoll (children dice') ->
  eval (S (S (S fuel))) (Node NodeType.Sort (dice :: rest) attrs) st =
    Ok (VNum (sumFrom (Js.ofZ 0) (countedValue <$> children dice')),
        Node NodeType.Sort
          (putChildren (sortedChildren (VStr d) (children dice')) dice' :: rest)
          (<["value" := VNum (sumFrom (Js.ofZ 0) (countedValue <$> children dice'))]>
             attrs),
        st1) /\
  sortedChildren (VStr d) (children dice') ≡ₚ children dice' /\
  Sorted (inOrder (VStr d)) (sortedChildren (VStr d) (children dice')) /\
  sortedChildren (VStr d) (sortedChildren (VStr d) (children dice')) =
    sortedChildren (VStr d) (children dice') /\
  attributes (putChildren (sortedChildren (VStr d) (children dice')) dice') =
    attributes dice' /\
  (truthy (getAttribute "value" dice') = true ->
   eval (S (S (S fuel)))
     (Node NodeType.Sort
        (putChildren (sortedChildren (VStr d) (children dice')) dice' :: rest) attrs)
     st1 =
   Ok (VNum (sumFrom (Js.ofZ 0) (countedValue <$> children dice')),
       Node NodeType.Sort
         (putChildren (sortedChildren (VStr d) (children dice')) dice' :: rest)
         (<["value" := VNum (sumFrom (Js.ofZ 0) (countedValue <$> children dice'))]>
            attrs),
       st1)).
Proof.
  intros Hd Hdir Hfalsy Hev Hdice Hrolls.
  pose proof (sortedChildren_Permutation d Hd (children dice')) as Hperm.
  split; [|split; [|split; [|split; [|split]]]].
  - erewrite evaluate_Sort; try done. by rewrite Hdir.
  - done.
  - by apply sortedChildren_Sorted.
  - by apply sortedChildren_idempotent.
  - by destruct dice'.
  - intros Htruthy.
    erewrite evaluate_Sort with
      (dice' := putChildren (sortedChildren (VStr d) (children dice')) dice');
      [| done | | by destruct dice' | | reflexivity].
    + rewrite Hdir. cbn [default].
      assert (Hc : children (putChildren (sortedChildren (VStr d) (children dice')) dice')
                   = sortedChildren (VStr d) (children dice')) by (by destruct dice').
      rewrite Hc, (sortedChildren_idempotent d Hd).
      assert (Hs : sumFrom (Js.ofZ 0) (countedValue <$> sortedChildren (VStr d) (children dice'))
                   = sumFrom (Js.ofZ 0) (countedValue <$> children dice')).
      { symmetry. apply sumFrom_Permutation; [by apply countedValue_finite|].
        by rewrite Hperm. }
      rewrite Hs. by destruct dice'.
    + rewrite evaluate_memo; [|by destruct dice'; cbn in *; rewrite Hdice|by destruct dice'].
      by destruct dice'.
    + destruct dice'; cbn. by apply sortedChildren_isRoll.
Qed.
End ModifierFacts.

Lemma sort_modifier_reorders_witness :
  exists sort st,
    evaluateScripted 3
      (modifierNode NodeType.Sort {["direction" := VStr "ascending"]} [nds 4 6])
      (EState [4; 2; 6; 1] []) = Ok (VInt 13, sort, st) /\
    (fun dice => getAttribute "value" <$> children dice) <$> children sort =
      [[VInt 1; VInt 2; VInt 4; VInt 6]].
Proof.
  destruct (sort_modifier_reorders no_pow_frac no_toString scripted ∅ 0%nat
              (nds 4 6)
              (Node NodeType.Dice
                 ((fun z => rollNode (Js.ofZ z)) <$> [4; 2; 6; 1])
                 (<["value" := VInt 13]> (<["sides" := VInt 6]> ∅)))
              [] {["direction" := VStr "ascending"]} "ascending"
              (VInt 13) (EState [4; 2; 6; 1] []) (EState [] []))
    as (Heval & _).
  - by left.
  - reflexivity.
  - reflexivity.
  - vm_compute. reflexivity.
  - reflexivity.
  - repeat constructor; eexists; vm_compute; reflexivity.
  - eexists _, _. split.
    + unfold evaluateScripted, modifierNode. rewrite Heval. vm_compute. reflexivity.
    + vm_compute. reflexivity.
Defined.

(** ** Keep and Drop *)

Lemma js_lt_VInt (a b : Z) : js_lt (VInt a) (VInt b) = (a <? b).
Proof.
  unfold js_lt, VInt, toNumber, Js.ltb, Js.ofZ, Qcompare, inject_Z; simpl.
  rewrite !Z.mul_1_r. unfold Z.ltb. by destruct (a ?= b).
Qed.

Section KeepDrop.
Context (Number_toString : Js.number -> string).

Lemma keepRolls_spec rolls (count : nat) (N : Z) total :
  Forall (fun r => isRoll (snd r)) rolls ->
  keepRolls Number_toString rolls count (VInt N) (VNum total) =
  (imap (fun rank r =>
           (fst r,
            setAttribute "drop"
              (VStr (if (count + rank <? Z.to_nat N)%nat then "no" else "yes"))
              (snd r))) rolls,
   VNum (sumFrom total (rollValue <$> (snd <$> take (Z.to_nat N - count) rolls)))).
Proof.
  intros Hrolls. revert count total.
  induction Hrolls as [|[i c] rolls Hc _ IH]; intros count total; [by rewrite take_nil|].
  cbn [keepRolls]. rewrite js_lt_VInt, imap_cons. cbn [fst snd].
  destruct Hc as [_ [q Hq]]. cbn [snd] in Hq.
  destruct (Z.ltb_spec (Z.of_nat count) N) as [Hlt|Hge].
  - rewrite getAttribute_setAttribute_ne by done. rewrite Hq.
    change (js_plus _ (VNum total) (VNum (Js.Fin q))) with (VNum (Js.add total (Js.Fin q))).
    rewrite IH. f_equal.
    + rewrite Nat.add_0_r. replace (count <? Z.to_nat N)%nat with true
        by (symmetry; apply Nat.ltb_lt; lia).
      f_equal. apply imap_ext. intros rank r _. unfold compose.
      by replace (S count + rank)%nat with (count + S rank)%nat by lia.
    + replace (Z.to_nat N - count)%nat with (S (Z.to_nat N - S count)) by lia.
      cbn. unfold rollValue at 2. by rewrite Hq.
  - rewrite IH. f_equal.
    + rewrite Nat.add_0_r. replace (count <? Z.to_nat N)%nat with false
        by (symmetry; apply Nat.ltb_ge; lia).
      f_equal. apply imap_ext. intros rank r _. unfold compose.
      by replace (S count + rank)%nat with (count + S rank)%nat by lia.
    + replace (Z.to_nat N - count)%nat with O by lia.
      replace (Z.to_nat N - S count)%nat with O by lia. done.
Qed.

Lemma dropRolls_spec rolls (count : nat) (N : Z) total :
  Forall (fun r => isRoll (snd r)) rolls ->
  dropRolls Number_toString rolls count (VInt N) (VNum total) =
  (imap (fun rank r =>
           (fst r,
            setAttribute "drop"
              (VStr (if (count + rank <? Z.to_nat N)%nat then "yes" else "no"))
              (snd r))) rolls,
   VNum (sumFrom total (rollValue <$> (snd <$> drop (Z.to_nat N - count) rolls)))).
Proof.
  intros Hrolls. revert count total.
  induction Hrolls as [|[i c] rolls Hc _ IH]; intros count total; [by rewrite drop_nil|].
  cbn [dropRolls]. rewrite js_lt_VInt, imap_cons. cbn [fst snd].
  destruct Hc as [_ [q Hq]]. cbn [snd] in Hq.
  destruct (Z.ltb_spec (Z.of_nat count) N) as [Hlt|Hge].
  - rewrite IH. f_equal.
    + rewrite Nat.add_0_r. replace (count <? Z.to_nat N)%nat with true
        by (symmetry; apply Nat.ltb_lt; lia).
      f_equal. apply imap_ext. intros rank r _. unfold compose.
      by replace (S count + rank)%nat with (count + S rank)%nat by lia.
    + replace (Z.to_nat N - count)%nat with (S (Z.to_nat N - S count)) by lia.
      done.
  - rewrite getAttribute_setAttribute_ne by done. rewrite Hq.
    change (js_plus _ (VNum total) (VNum (Js.Fin q))) with (VNum (Js.add total (Js.Fin q))).
    rewrite IH. f_equal.
    + rewrite Nat.add_0_r. replace (count <? Z.to_nat N)%nat with false
        by (symmetry; apply Nat.ltb_ge; lia).
      f_equal. apply imap_ext. intros rank r _. unfold compose.
      by replace (S count + rank)%nat with (count + S rank)%nat by lia.
    + replace (Z.to_nat N - count)%nat with O by lia.
      replace (Z.to_nat N - S count)%nat with O by lia.
      cbn. unfold rollValue at 2. by rewrite Hq.
Qed.
End KeepDrop.

(** Writing the marked rolls back at their indices. *)

Lemma foldl_insert_length (marked : list (nat * ExpressionNode)) cs :
  length (foldl (fun cs r => <[fst r := snd r]> cs) cs marked) = length cs.
Proof.
  revert cs. induction marked as [|r marked IH]; intros cs; [done|].
  cbn [foldl]. by rewrite IH, length_insert.
Qed.

Lemma foldl_insert_map_seq (marked : list (nat * ExpressionNode)) cs :
  Forall (fun r => (fst r < length cs)%nat) marked ->
  map_seq 0 (foldl (fun cs r => <[fst r := snd r]> cs) cs marked) =@{gmap nat _}
  foldl (fun m r => <[fst r := snd r]> m) (map_seq 0 cs) marked.
Proof.
  revert cs. induction marked as [|r marked IH]; intros cs Hlt; [done|].
  apply Forall_cons in Hlt as [Hr Hlt]. cbn [foldl].
  rewrite IH, insert_map_seq_0; [done|done|].
  eapply Forall_impl; [exact Hlt|]. intros r'. by rewrite length_insert.
Qed.

Lemma foldl_insert_list_to_map (marked : list (nat * ExpressionNode))
    (m : gmap nat ExpressionNode) :
  NoDup (fst <$> marked) ->
  foldl (fun m r => <[fst r := snd r]> m) m marked = list_to_map marked ∪ m.
Proof.
  revert m. induction marked as [|[i c] marked IH]; intros m Hnd.
  - cbn. by rewrite (left_id_L ∅ (∪)).
  - apply NoDup_cons in Hnd as [Hi Hnd]. cbn [foldl fst snd].
    rewrite IH by done. cbn [list_to_map foldr uncurry fst snd].
    rewrite <- insert_union_l. rewrite insert_union_r; [done|].
    by apply not_elem_of_list_to_map_1.
Qed.

Lemma writeRolls_indexed (marked : list (nat * ExpressionNode)) cs :
  fst <$> marked ≡ₚ seq 0 (length cs) ->
  indexed (foldl (fun cs r => <[fst r := snd r]> cs) cs marked) ≡ₚ marked.
Proof.
  intros Hperm.
  assert (Hnd : NoDup (fst <$> marked)) by (rewrite Hperm; apply NoDup_seq).
  assert (Hlt : Forall (fun r => (fst r < length cs)%nat) marked).
  { apply Forall_forall. intros r Hr.
    assert (Hin : fst r ∈ seq 0 (length cs)).
    { rewrite <- Hperm. by apply list_elem_of_fmap_2. }
    apply elem_of_seq in Hin. lia. }
  unfold indexed. rewrite <- map_to_list_seq.
  rewrite foldl_insert_map_seq, foldl_insert_list_to_map by done.
  assert (Hu : list_to_map marked ∪ map_seq 0 cs =@{gmap nat _} list_to_map marked).
  { apply map_eq. intros i. rewrite lookup_union.
    destruct (list_to_map marked !! i) as [c|] eqn:Hi; [by destruct (map_seq 0 cs !! i)|].
    rewrite (left_id_L None _).
    apply not_elem_of_list_to_map in Hi. rewrite Hperm in Hi.
    apply lookup_map_seq_None. right. rewrite elem_of_seq in Hi. lia. }
  rewrite Hu. by apply map_to_list_to_map.
Qed.

Lemma fst_indexed (rolls : list ExpressionNode) :
  fst <$> indexed rolls = seq 0 (length rolls).
Proof. unfold indexed. apply fst_zip. by rewrite length_seq. Qed.

Lemma fst_markRolls first rest n rolls :
  fst <$> markRolls first rest n rolls = fst <$> rolls.
Proof.
  apply list_eq. intros i. unfold markRolls.
  rewrite !list_lookup_fmap, list_lookup_imap. by destruct (rolls !! i).
Qed.

Lemma rollValue_setAttribute_drop v c :
  rollValue (setAttribute "drop" v c) = rollValue c.
Proof. unfold rollValue. by rewrite getAttribute_setAttribute_ne. Qed.

Lemma isRoll_setAttribute_drop v c : isRoll c -> isRoll (setAttribute "drop" v c).
Proof.
  intros [Hty [q Hq]]. split; [by destruct c|].
  exists q. by rewrite getAttribute_setAttribute_ne.
Qed.

Lemma filter_kept_first (k n : nat) (rolls : list (nat * ExpressionNode)) :
  filter (fun c => isKept c = true)
    (snd <$> imap (fun rank r =>
                     (fst r,
                      setAttribute "drop"
                        (VStr (if (k + rank <? n)%nat then "no" else "yes")) (snd r)))
               rolls) =
  setAttribute "drop" (VStr "no") <$> take (n - k) (snd <$> rolls).
Proof.
  revert k. induction rolls as [|[i c] rolls IH]; intros k;
    [cbn; by rewrite take_nil|].
  rewrite imap_cons. cbn [fmap list_fmap fst snd]. rewrite Nat.add_0_r.
  assert (Hext : imap ((fun rank r =>
                     (fst r,
                      setAttribute "drop"
                        (VStr (if (k + rank <? n)%nat then "no" else "yes")) (snd r))) ∘ S) rolls
                 = imap (fun rank (r : nat * ExpressionNode) =>
                     (fst r,
                      setAttribute "drop"
                        (VStr (if (S k + rank <? n)%nat then "no" else "yes")) (snd r))) rolls).
  { apply imap_ext. intros rank r _. unfold compose.
    by replace (S k + rank)%nat with (k + S rank)%nat by lia. }
  rewrite Hext.
  destruct (Nat.ltb_spec k n) as [Hlt|Hge].
  - rewrite filter_cons_True by (unfold isKept; by rewrite getAttribute_setAttribute).
    rewrite IH. replace (n - k)%nat with (S (n - S k)) by lia. done.
  - rewrite filter_cons_False
      by (unfold isKept; by rewrite getAttribute_setAttribute).
    rewrite IH. replace (n - k)%nat with O by lia.
    by replace (n - S k)%nat with O by lia.
Qed.

Lemma filter_kept_rest (k n : nat) (rolls : list (nat * ExpressionNode)) :
  filter (fun c => isKept c = true)
    (snd <$> imap (fun rank r =>
                     (fst r,
                      setAttribute "drop"
                        (VStr (if (k + rank <? n)%nat then "yes" else "no")) (snd r)))
               rolls) =
  setAttribute "drop" (VStr "no") <$> drop (n - k) (snd <$> rolls).
Proof.
  revert k. induction rolls as [|[i c] rolls IH]; intros k;
    [cbn; by rewrite drop_nil|].
  rewrite imap_cons. cbn [fmap list_fmap fst snd]. rewrite Nat.add_0_r.
  assert (Hext : imap ((fun rank r =>
                     (fst r,
                      setAttribute "drop"
                        (VStr (if (k + rank <? n)%nat then "yes" else "no")) (snd r))) ∘ S) rolls
                 = imap (fun rank (r : nat * ExpressionNode) =>
                     (fst r,
                      setAttribute "drop"
                        (VStr (if (S k + rank <? n)%nat then "yes" else "no")) (snd r))) rolls).
  { apply imap_ext. intros rank r _. unfold compose.
    by replace (S k + rank)%nat with (k + S rank)%nat by lia. }
  rewrite Hext.
  destruct (Nat.ltb_spec k n) as [Hlt|Hge].
  - rewrite filter_cons_False
      by (unfold isKept; by rewrite getAttribute_setAttribute).
    rewrite IH. replace (n - k)%nat with (S (n - S k)) by lia. done.
  - rewrite filter_cons_True by (unfold isKept; by rewrite getAttribute_setAttribute).
    rewrite IH. replace (n - k)%nat with O by lia.
    by replace (n - S k)%nat with O by lia.
Qed.

Lemma rollValue_marked (l : list ExpressionNode) :
  rollValue <$> (setAttribute "drop" (VStr "no") <$> l) = rollValue <$> l.
Proof.
  rewrite <- list_fmap_compose. apply list_fmap_ext. intros i c _.
  apply rollValue_setAttribute_drop.
Qed.

Lemma rollValue_finite rolls :
  Forall isRoll rolls -> Forall (fun x => exists q, x = Js.Fin q) (rollValue <$> rolls).
Proof.
  intros H. apply Forall_fmap. eapply Forall_impl; [exact H|].
  intros c [_ [q Hq]]. unfold compose, rollValue. rewrite Hq. by eexists.
Qed.

(** The total that Keep returns is the sum over the children marked
    [drop = "no"], and so is the total that Drop returns. *)
Lemma keptTotal_keep (n : nat) sorted (kept : list ExpressionNode) :
  Forall (fun r => isRoll (snd r)) sorted ->
  indexed kept ≡ₚ markRolls "no" "yes" n sorted ->
  keptTotal kept = sumFrom (Js.ofZ 0) (rollValue <$> (snd <$> take n sorted)).
Proof.
  intros Hrolls Hperm. unfold keptTotal.
  assert (Hk : kept ≡ₚ snd <$> markRolls "no" "yes" n sorted).
  { rewrite <- (snd_indexed kept). by rewrite Hperm. }
  assert (Hf : filter (fun c => isKept c = true) kept ≡ₚ
               setAttribute "drop" (VStr "no") <$> take n (snd <$> sorted)).
  { rewrite Hk. unfold markRolls.
    pose proof (filter_kept_first 0 n sorted) as H. cbn [Nat.add] in H.
    rewrite H. by rewrite Nat.sub_0_r. }
  transitivity (sumFrom (Js.ofZ 0)
                  (rollValue <$> (setAttribute "drop" (VStr "no")
                                    <$> take n (snd <$> sorted)))).
  - symmetry. apply sumFrom_Permutation; [|by rewrite Hf].
    rewrite rollValue_marked. apply rollValue_finite.
    apply Forall_take. by apply Forall_fmap.
  - rewrite rollValue_marked. by rewrite <- fmap_take.
Qed.

Lemma keptTotal_drop (n : nat) sorted (kept : list ExpressionNode) :
  Forall (fun r => isRoll (snd r)) sorted ->
  indexed kept ≡ₚ markRolls "yes" "no" n sorted ->
  keptTotal kept = sumFrom (Js.ofZ 0) (rollValue <$> (snd <$> drop n sorted)).
Proof.
  intros Hrolls Hperm. unfold keptTotal.
  assert (Hk : kept ≡ₚ snd <$> markRolls "yes" "no" n sorted).
  { rewrite <- (snd_indexed kept). by rewrite Hperm. }
  assert (Hf : filter (fun c => isKept c = true) kept ≡ₚ
               setAttribute "drop" (VStr "no") <$> drop n (snd <$> sorted)).
  { rewrite Hk. unfold markRolls.
    pose proof (filter_kept_rest 0 n sorted) as H. cbn [Nat.add] in H.
    rewrite H. by rewrite Nat.sub_0_r. }
  transitivity (sumFrom (Js.ofZ 0)
                  (rollValue <$> (setAttribute "drop" (VStr "no")
                                    <$> drop n (snd <$> sorted)))).
  - symmetry. apply sumFrom_Permutation; [|by rewrite Hf].
    rewrite rollValue_marked. apply rollValue_finite.
    apply Forall_drop. by apply Forall_fmap.
  - rewrite rollValue_marked. by rewrite <- fmap_drop.
Qed.

Lemma sortRolls_Permutation direction rolls : sortRolls direction rolls ≡ₚ rolls.
Proof.
  unfold sortRolls. destruct (strict_eq _ _); [apply stable_sort_Permutation|].
  destruct (strict_eq _ _); [apply stable_sort_Permutation|done].
Qed.

Lemma sortRolls_isRoll direction rolls :
  Forall isRoll rolls ->
  Forall (fun r => isRoll (snd r)) (sortRolls direction (indexed rolls)).
Proof.
  intros H. rewrite sortRolls_Permutation.
  change (Forall (isRoll ∘ snd) (indexed rolls)).
  apply Forall_fmap. by rewrite snd_indexed.
Qed.

Lemma sortDirection_cases ty :
  sortDirection ty = VStr "ascending" \/ sortDirection ty = VStr "descending".
Proof. unfold sortDirection. destruct (strict_eq _ _); auto. Qed.

Section KeepDropFacts.
Context {R : Type} (pow_frac : Q -> Q -> Js.number)
  (Number_toString : Js.number -> string)
  (random : RandomProvider R) (fns : FunctionDefinitionList R).

Local Abbreviation eval := (evaluate pow_frac Number_toString random fns).

Lemma evaluateCountTotal_operand fuel ty dice argument attrs st :
  evaluateCountTotal (eval (S fuel)) (Node ty (dice :: countOperand argument) attrs) st =
  Ok (VInt (default 1 argument), Node ty (dice :: countOperand argument) attrs, st).
Proof.
  unfold evaluateCountTotal. destruct argument as [n|]; cbn [countOperand]; [|done].
  cbn [getChildCount children length Nat.ltb Nat.leb].
  unfold evaluateChild, getChild. cbn [children lookup list_lookup].
  unfold bind. rewrite evaluate_leaf; [|by left|].
  - unfold integerNode at 1. by rewrite getAttribute_setAttribute.
  - unfold integerNode, setAttribute; cbn [attributes].
    rewrite lookup_insert_eq. by eexists.
Qed.

Lemma evaluate_Keep fuel dice dice' argument attrs v st st1 :
  truthy (default VUndef (attrs !! "value")) = false ->
  eval (S (S fuel)) dice st = Ok (v, dice', st1) ->
  type dice' = NodeType.Dice ->
  truthy (getAttribute "value" dice') = true ->
  Forall isRoll (children dice') ->
  eval (S (S (S fuel))) (Node NodeType.Keep (dice :: countOperand argument) attrs) st =
  Ok (VNum (sumFrom (Js.ofZ 0)
              (rollValue <$> (snd <$> take (Z.to_nat (default 1 argument))
                 (sortRolls (sortDirection (default VUndef (attrs !! "type")))
                    (indexed (children dice')))))),
      Node NodeType.Keep
        (writeRolls
           (markRolls "no" "yes" (Z.to_nat (default 1 argument))
              (sortRolls (sortDirection (default VUndef (attrs !! "type")))
                 (indexed (children dice'))))
           dice' :: countOperand argument)
        (<["value" :=
             VNum (sumFrom (Js.ofZ 0)
              (rollValue <$> (snd <$> take (Z.to_nat (default 1 argument))
                 (sortRolls (sortDirection (default VUndef (attrs !! "type")))
                    (indexed (children dice'))))))]> attrs),
      st1).
Proof.
  intros Hfalsy Hev Hdice Htruthy Hrolls.
  change (eval (S (S (S fuel)))) with (evaluateNode pow_frac Number_toString random fns
                                     (eval (S (S fuel))) (S (S fuel))).
  unfold evaluateNode. rewrite decide_False by done.
  unfold getAttribute at 1. cbn [attributes]. rewrite Hfalsy. cbn [negb type].
  unfold bind at 1. unfold evaluateKeep, bind.
  assert (Hcount : expectChildCount (R:=R)
            (Node NodeType.Keep (dice :: countOperand argument) attrs) 1 st =
            Ok (tt, st)) by (by destruct argument).
  rewrite Hcount.
  erewrite findLeftmostDiceNode_child; [|done|by destruct argument|exact Hev|done].
  unfold putChild at 1. cbn [type children attributes].
  change (<[0%nat:=dice']> (dice :: countOperand argument))
    with (dice' :: countOperand argument).
  rewrite evaluateCountTotal_operand.
  cbn [atDice putChild children list_insert getChild lookup list_lookup].
  unfold bind.
  rewrite evaluate_memo; [|by rewrite Hdice|done].
  rewrite getSortedDiceRolls_rolls by (done || apply evaluate_memoizing).
  unfold VInt at 2. rewrite keepRolls_spec by (by apply sortRolls_isRoll).
  cbn [Nat.add]. rewrite Nat.sub_0_r. unfold ret.
  rewrite getAttribute_setAttribute. unfold getAttribute. cbn [attributes].
  reflexivity.
Qed.
Lemma evaluate_Drop fuel dice dice' argument attrs v st st1 :
  truthy (default VUndef (attrs !! "value")) = false ->
  eval (S (S fuel)) dice st = Ok (v, dice', st1) ->
  type dice' = NodeType.Dice ->
  truthy (getAttribute "value" dice') = true ->
  Forall isRoll (children dice') ->
  eval (S (S (S fuel))) (Node NodeType.Drop (dice :: countOperand argument) attrs) st =
  Ok (VNum (sumFrom (Js.ofZ 0)
              (rollValue <$> (snd <$> drop (Z.to_nat (default 1 argument))
                 (sortRolls (sortDirection (default VUndef (attrs !! "type")))
                    (indexed (children dice')))))),
      Node NodeType.Drop
        (writeRolls
           (markRolls "yes" "no" (Z.to_nat (default 1 argument))
              (sortRolls (sortDirection (default VUndef (attrs !! "type")))
                 (indexed (children dice'))))
           dice' :: countOperand argument)
        (<["value" :=
             VNum (sumFrom (Js.ofZ 0)
              (rollValue <$> (snd <$> drop (Z.to_nat (default 1 argument))
                 (sortRolls (sortDirection (default VUndef (attrs !! "type")))
                    (indexed (children dice'))))))]> attrs),
      st1).
Proof.
  intros Hfalsy Hev Hdice Htruthy Hrolls.
  change (eval (S (S (S fuel)))) with (evaluateNode pow_frac Number_toString random fns
                                     (eval (S (S fuel))) (S (S fuel))).
  unfold evaluateNode. rewrite decide_False by done.
  unfold getAttribute at 1. cbn [attributes]. rewrite Hfalsy. cbn [negb type].
  unfold bind at 1. unfold evaluateDrop, bind.
  assert (Hcount : expectChildCount (R:=R)
            (Node NodeType.Drop (dice :: countOperand argument) attrs) 1 st =
            Ok (tt, st)) by (by destruct argument).
  rewrite Hcount.
  erewrite findLeftmostDiceNode_child; [|done|by destruct argument|exact Hev|done].
  unfold putChild at 1. cbn [type children attributes].
  change (<[0%nat:=dice']> (dice :: countOperand argument))
    with (dice' :: countOperand argument).
  rewrite evaluateCountTotal_operand.
  cbn [atDice putChild children list_insert getChild lookup list_lookup].
  unfold bind.
  rewrite evaluate_memo; [|by rewrite Hdice|done].
  rewrite getSortedDiceRolls_rolls by (done || apply evaluate_memoizing).
  unfold VInt at 2. rewrite dropRolls_spec by (by apply sortRolls_isRoll).
  cbn [Nat.add]. rewrite Nat.sub_0_r. unfold ret.
  rewrite getAttribute_setAttribute. unfold getAttribute. cbn [attributes].
  reflexivity.
Qed.

(** C5, as the code has it.  A Keep or Drop modifier with argument [N] (1
    when there is none) on a Dice node that has been rolled and whose total
    is not 0: all the rolls of the Dice node, whether or not an earlier
    modifier dropped them, are ordered by their value, ascending when the
    attribute [type] is ["lowest"] and descending otherwise; Keep sets
    [drop] to ["no"] on the first [N] of that order and to ["yes"] on the
    others, Drop does the opposite; the children of the Dice node stay in
    their places; and the total of the modifier is the sum of the values of
    the children whose [drop] is ["no"]. *)
Theorem keep_drop_mark_by_rank fuel dice dice' argument attrs v st st1 :
  truthy (default VUndef (attrs !! "value")) = false ->
  eval (S (S fuel)) dice st = Ok (v, dice', st1) ->
  type dice' = NodeType.Dice ->
  truthy (getAttribute "value" dice') = true ->
  Forall isRoll (children dice') ->
  exists sorted kept dropped,
    sorted = sortRolls (sortDirection (default VUndef (attrs !! "type")))
               (indexed (children dice')) /\
    sorted ≡ₚ indexed (children dice') /\
    Sorted (inOrder (sortDirection (default VUndef (attrs !! "type"))))
      (snd <$> sorted) /\
    eval (S (S (S fuel)))
      (Node NodeType.Keep (dice :: countOperand argument) attrs) st =
      Ok (VNum (keptTotal (children kept)),
          Node NodeType.Keep (kept :: countOperand argument)
            (<["value" := VNum (keptTotal (children kept))]> attrs),
          st1) /\
    type kept = NodeType.Dice /\ attributes kept = attributes dice' /\
    indexed (children kept) ≡ₚ
      markRolls "no" "yes" (Z.to_nat (default 1 argument)) sorted /\
    eval (S (S (S fuel)))
      (Node NodeType.Drop (dice :: countOperand argument) attrs) st =
      Ok (VNum (keptTotal (children dropped)),
          Node NodeType.Drop (dropped :: countOperand argument)
            (<["value" := VNum (keptTotal (children dropped))]> attrs),
          st1) /\
    type dropped = NodeType.Dice /\ attributes dropped = attributes dice' /\
    indexed (children dropped) ≡ₚ
      markRolls "yes" "no" (Z.to_nat (default 1 argument)) sorted.
Proof.
  intros Hfalsy Hev Hdice Htruthy Hrolls.
  set (direction := sortDirection (default VUndef (attrs !! "type"))).
  set (sorted := sortRolls direction (indexed (children dice'))).
  set (n := Z.to_nat (default 1 argument)).
  assert (Hperm : sorted ≡ₚ indexed (children dice')) by apply sortRolls_Permutation.
  assert (Hsorted : Forall (fun r => isRoll (snd r)) sorted) by (by apply sortRolls_isRoll).
  assert (Hwrite : forall first rest,
            indexed (children (writeRolls (markRolls first rest n sorted) dice')) ≡ₚ
            markRolls first rest n sorted).
  { intros first rest. unfold writeRolls. destruct dice' as [ty cs a]. cbn [children].
    apply writeRolls_indexed. rewrite fst_markRolls. cbn [children] in Hperm.
    by rewrite Hperm, fst_indexed. }
  exists sorted, (writeRolls (markRolls "no" "yes" n sorted) dice'),
    (writeRolls (markRolls "yes" "no" n sorted) dice').
  split; [done|]. split; [done|]. split.
  { change (snd <$> sorted) with (sortedChildren direction (children dice')).
    subst direction. unfold sortDirection. destruct (strict_eq _ _).
    - apply sortedChildren_Sorted; auto.
    - apply sortedChildren_Sorted; auto. }
  split.
  { rewrite (keptTotal_keep n sorted) by done.
    by eapply evaluate_Keep. }
  split; [by destruct dice'|]. split; [by destruct dice'|]. split; [done|].
  split.
  { rewrite (keptTotal_drop n sorted) by done.
    by eapply evaluate_Drop. }
  split; [by destruct dice'|]. split; [by destruct dice'|]. done.
Qed.
End KeepDropFacts.

Lemma keep_drop_mark_by_rank_witness :
  exists kept,
    evaluateScripted 3
      (Node NodeType.Keep (nds 4 6 :: countOperand (Some 2)) {["type" := VStr "highest"]})
      (EState [4; 2; 6; 1] []) =
    Ok (VNum (keptTotal (children kept)),
        Node NodeType.Keep (kept :: countOperand (Some 2))
          (<["value" := VNum (keptTotal (children kept))]> {["type" := VStr "highest"]}),
        EState [] []) /\
    type kept = NodeType.Dice /\
    indexed (children kept) ≡ₚ
      markRolls "no" "yes" 2
        (sortRolls (VStr "descending")
           (indexed ((fun z => rollNode (Js.ofZ z)) <$> [4; 2; 6; 1]))).
Proof.
  destruct (keep_drop_mark_by_rank no_pow_frac no_toString scripted ∅ 0%nat
              (nds 4 6)
              (Node NodeType.Dice
                 ((fun z => rollNode (Js.ofZ z)) <$> [4; 2; 6; 1])
                 (<["value" := VInt 13]> (<["sides" := VInt 6]> ∅)))
              (Some 2) {["type" := VStr "highest"]}
              (VInt 13) (EState [4; 2; 6; 1] []) (EState [] []))
    as (sorted & kept & dropped & -> & _ & _ & Hkeep & Hty & _ & Hmarks & _).
  - reflexivity.
  - vm_compute. reflexivity.
  - reflexivity.
  - reflexivity.
  - repeat constructor; eexists; vm_compute; reflexivity.
  - exists kept. split; [exact Hkeep|]. split; [exact Hty|exact Hmarks].
Defined.

(** C5 as it is stated fails on a Dice node with a roll that is already
    dropped.  [3d6] rolls 1, 5, 3; Drop (lowest, 1) drops the 1; Keep
    (lowest, 1) applied next orders all three rolls, keeps the 1 that was
    dropped and returns 1, where the rolls not already dropped, 5 and 3,
    would give 3. *)
Lemma keep_counts_dropped_rolls_counterexample :
  exists dropNode dice keepNode dice' st st',
    evaluateScripted 4
      (modifierNode NodeType.Drop {["type" := VStr "lowest"]} [nds 3 6])
      (EState [1; 5; 3] []) = Ok (VInt 8, dropNode, st) /\
    children dropNode = [dice] /\
    marks (children dice) =
      [(VInt 1, VStr "yes"); (VInt 5, VStr "no"); (VInt 3, VStr "no")] /\
    evaluateScripted 5
      (modifierNode NodeType.Keep {["type" := VStr "lowest"]}
         [modifierNode NodeType.Drop {["type" := VStr "lowest"]} [nds 3 6]])
      (EState [1; 5; 3] []) = Ok (VInt 1, keepNode, st') /\
    (children keepNode ≫= children) = [dice'] /\
    marks (children dice') =
      [(VInt 1, VStr "no"); (VInt 5, VStr "yes"); (VInt 3, VStr "yes")] /\
    claimedKeepTotal (VStr "ascending") 1 (children dice) = Js.ofZ 3 /\
    VInt 1 <> VNum (claimedKeepTotal (VStr "ascending") 1 (children dice)).
Proof.
  eexists _, _, _, _, _, _.
  split; [vm_compute; reflexivity|]. split; [vm_compute; reflexivity|].
  split; [vm_compute; reflexivity|]. split; [vm_compute; reflexivity|].
  split; [vm_compute; reflexivity|]. split; [vm_compute; reflexivity|].
  split; [vm_compute; reflexivity|]. vm_compute. discriminate.
Qed.

(** ** Termination *)

Lemma height_child ty cs attrs c :
  c ∈ cs -> (height c < height (Node ty cs attrs))%nat.
Proof.
  intros Hc. cbn [height]. induction Hc as [c cs|c c' cs _ IH]; cbn [foldr]; lia.
Qed.

Lemma notInfinite_add x y :
  notInfinite (VNum x) = true -> notInfinite (VNum y) = true ->
  notInfinite (VNum (Js.add x y)) = true.
Proof. by destruct x, y. Qed.

Lemma notInfinite_sub x y :
  notInfinite (VNum x) = true -> notInfinite (VNum y) = true ->
  notInfinite (VNum (Js.sub x y)) = true.
Proof. by destruct x, y. Qed.

Lemma notInfinite_mul x y :
  notInfinite (VNum x) = true -> notInfinite (VNum y) = true ->
  notInfinite (VNum (Js.mul x y)) = true.
Proof. by destruct x, y. Qed.

Lemma notInfinite_rem x y :
  notInfinite (VNum x) = true -> notInfinite (VNum y) = true ->
  notInfinite (VNum (Js.rem x y)) = true.
Proof. destruct x, y; try done. intros _ _. cbn. by destruct (Js.Qis_zero _). Qed.

Lemma notInfinite_VNum v : notInfinite v = true -> exists x, v = VNum x.
Proof. destruct v; try done. by eexists. Qed.

Lemma notInfinite_round v :
  notInfinite v = true -> exists turns, loopCount (Math_round v) = Some turns.
Proof. destruct v as [[]| |]; try done; by eexists. Qed.

(** *** Trees without modifiers *)

Section Termination.
Context {R : Type} (pow_frac : Q -> Q -> Js.number)
  (Number_toString : Js.number -> string)
  (random : RandomProvider R) (fns : FunctionDefinitionList R).

Local Abbreviation eval := (evaluate pow_frac Number_toString random fns).

Lemma js_plus_closed : closedOperator (js_plus Number_toString).
Proof.
  intros a b Ha Hb.
  destruct (notInfinite_VNum _ Ha) as [x ->], (notInfinite_VNum _ Hb) as [y ->].
  by apply notInfinite_add.
Qed.

Lemma js_minus_closed : closedOperator js_minus.
Proof.
  intros a b Ha Hb.
  destruct (notInfinite_VNum _ Ha) as [x ->], (notInfinite_VNum _ Hb) as [y ->].
  by apply notInfinite_sub.
Qed.

Lemma js_times_closed : closedOperator js_times.
Proof.
  intros a b Ha Hb.
  destruct (notInfinite_VNum _ Ha) as [x ->], (notInfinite_VNum _ Hb) as [y ->].
  by apply notInfinite_mul.
Qed.

Lemma js_modulo_closed : closedOperator js_modulo.
Proof.
  intros a b Ha Hb.
  destruct (notInfinite_VNum _ Ha) as [x ->], (notInfinite_VNum _ Hb) as [y ->].
  by apply notInfinite_rem.
Qed.

(** Evaluating one child. *)
Lemma evaluateChild_ends (ev : Evaluator R) count i e c st :
  getChild i e = Some c ->
  (forall st', endsWell count (ev c st')) ->
  match evaluateChild ev i e st with
  | Diverge => False
  | Throw _ => True
  | Ok (v, e', _) =>
      (count = true -> notInfinite v = true) /\
      exists c', e' = putChild i c' e
  end.
Proof.
  intros Hc Hev. unfold evaluateChild, bind. rewrite Hc.
  specialize (Hev st). destruct (ev c st) as [[[v c'] st']| |]; try done.
  split; [done|by eexists].
Qed.

Lemma getChild_putChild_ne i j c e : i <> j -> getChild j (putChild i c e) = getChild j e.
Proof. intros. unfold getChild, putChild. cbn [children]. by apply list_lookup_insert_ne. Qed.

Lemma evaluateBinary_ends (ev : Evaluator R) count op e st :
  (forall c st', c ∈ children e -> endsWell count (ev c st')) ->
  closedOperator op \/ count = false ->
  endsWell count (evaluateBinary ev op e st).
Proof.
  intros Hev Hop. unfold evaluateBinary, bind at 1, expectChildCount.
  destruct e as [ty [|a [|b rest]] attrs]; try done.
  cbn [getChildCount children length Nat.ltb Nat.leb ret].
  unfold bind at 1.
  pose proof (evaluateChild_ends ev count 0 (Node ty (a :: b :: rest) attrs) a st
                eq_refl (fun st' => Hev a st' ltac:(by left))) as H0.
  destruct (evaluateChild ev 0 _ st) as [[[va e1] st1]| |]; try done.
  destruct H0 as [Hva [a' ->]]. unfold bind.
  pose proof (evaluateChild_ends ev count 1
                (putChild 0 a' (Node ty (a :: b :: rest) attrs)) b st1
                eq_refl (fun st' => Hev b st' ltac:(by right; left))) as H1.
  destruct (evaluateChild ev 1 _ st1) as [[[vb e2] st2]| |]; try done.
  destruct H1 as [Hvb _]. cbn. intros Hc.
  destruct Hop as [Hop|Hop]; [apply Hop; auto|congruence].
Qed.

(** Evaluating the children one after the other. *)
Lemma evaluateChildrenFrom_ends (ev : Evaluator R) count idx total e st :
  NoDup idx ->
  (forall i, i ∈ idx -> exists c, getChild i e = Some c /\
                                  forall st', endsWell count (ev c st')) ->
  (count = true -> notInfinite total = true) ->
  endsWell count (evaluateChildrenFrom Number_toString ev idx total e st).
Proof.
  revert total e st. induction idx as [|x idx IH]; intros total e st Hnd Hidx Htotal;
    [done|].
  apply NoDup_cons in Hnd as [Hx Hnd]. cbn [evaluateChildrenFrom]. unfold bind.
  destruct (Hidx x ltac:(set_solver)) as (c & Hc & Hev).
  pose proof (evaluateChild_ends ev count x e c st Hc Hev) as H.
  destruct (evaluateChild ev x e st) as [[[v e1] st1]| |]; try done.
  destruct H as [Hv [c' ->]]. apply IH; [done| |].
  - intros i Hi. destruct (Hidx i ltac:(set_solver)) as (ci & Hci & Hevi).
    exists ci. split; [|done]. rewrite getChild_putChild_ne; [done|].
    intros ->. done.
  - intros Hcount. apply js_plus_closed; auto.
Qed.

Lemma evaluateOperands_ends (ev : Evaluator R) idx e st :
  NoDup idx ->
  (forall i, i ∈ idx -> exists c, getChild i e = Some c /\
                                  forall st', endsWell false (ev c st')) ->
  match evaluateOperands ev idx e st with Diverge => False | _ => True end.
Proof.
  revert e st. induction idx as [|x idx IH]; intros e st Hnd Hidx; [done|].
  apply NoDup_cons in Hnd as [Hx Hnd]. cbn [evaluateOperands]. unfold bind.
  destruct (Hidx x ltac:(set_solver)) as (c & Hc & Hev).
  pose proof (evaluateChild_ends ev false x e c st Hc Hev) as H.
  destruct (evaluateChild ev x e st) as [[[v e1] st1]| |]; try done.
  destruct H as [Hv [c' ->]]. apply IH; [done|].
  intros i Hi. destruct (Hidx i ltac:(set_solver)) as (ci & Hci & Hevi).
  exists ci. split; [|done]. rewrite getChild_putChild_ne; [done|].
  intros ->. done.
Qed.

Lemma children_lookup e i :
  (i < getChildCount e)%nat -> exists c, getChild i e = Some c /\ c ∈ children e.
Proof.
  intros Hi. unfold getChild, getChildCount in *.
  destruct (lookup_lt_is_Some_2 (children e) i Hi) as [c Hc].
  exists c. split; [done|]. by eapply list_elem_of_lookup_2.
Qed.

Hypothesis random_finite : finiteProvider random.
Hypothesis functions_end : forall name f, fns !! name = Some f -> endsWithArguments f.

Lemma createDiceRoll_leaf fuel sides st :
  isSidesLeaf sides = true ->
  exists q g,
    createDiceRoll random (eval (S fuel)) (inl sides) st =
    Ok (rollNode (Js.Fin q), inl sides, EState g (errors st)).
Proof.
  intros [[Hty Hv]%andb_true_iff Hmax]%andb_true_iff.
  apply bool_decide_eq_true in Hty. apply bool_decide_eq_true in Hv.
  unfold createDiceRoll, createDiceRollValue, bind.
  destruct (strict_eq _ _).
  - unfold numberBetween, ret.
    destruct (random_finite (-1) (Js.ofZ 1) (rng st) eq_refl) as [q Hq].
    destruct (random _ _ (rng st)) as [r g]. cbn in Hq. subst r. by eexists _, _.
  - rewrite evaluate_leaf by auto.
    unfold numberBetween, ret.
    destruct (random_finite 1 (Math_round (getAttribute "value" sides)) (rng st) Hmax)
      as [q Hq].
    destruct (random _ _ (rng st)) as [r g]. cbn in Hq. subst r. by eexists _, _.
Qed.

Lemma rollDice_ends fuel turns sides total e st :
  isSidesLeaf sides = true ->
  notInfinite (VNum total) = true ->
  exists total' e' st',
    rollDice Number_toString random (eval (S fuel)) turns (inl sides) (VNum total) e st =
      Ok (VNum total', e', st') /\
    notInfinite (VNum total') = true.
Proof.
  intros Hsides. revert total e st.
  induction turns as [|turns IH]; intros total e st Htotal; [by eexists _, _, _|].
  cbn [rollDice]. unfold bind at 1.
  destruct (createDiceRoll_leaf fuel sides st Hsides) as (q & g & ->).
  unfold bind. rewrite evaluate_DiceRoll by done.
  rewrite evaluateDiceRoll_rollNode.
  change (js_plus _ (VNum total) (VNum (Js.Fin q)))
    with (VNum (Js.add total (Js.Fin q))).
  apply IH. by apply notInfinite_add.
Qed.

Lemma evaluateDice_ends fuel count c s attrs st :
  (forall st', endsWell true (eval (S fuel) c st')) ->
  isSidesLeaf s = true ->
  endsWell count
    (evaluateDice Number_toString random (eval (S fuel))
       (Node NodeType.Dice [c; s] attrs) st).
Proof.
  intros Hc Hs. unfold evaluateDice, bind at 1, expectChildCount.
  cbn [getChildCount children length Nat.ltb Nat.leb ret].
  unfold bind at 1.
  pose proof (evaluateChild_ends (eval (S fuel)) true 0
                (Node NodeType.Dice [c; s] attrs) c st eq_refl Hc) as H0.
  destruct (evaluateChild _ 0 _ st) as [[[v e1] st1]| |]; try done.
  destruct H0 as [Hv [c' ->]]. specialize (Hv eq_refl).
  change (getChild 1 (putChild 0 c' (Node NodeType.Dice [c; s] attrs))) with (Some s).
  unfold bind.
  pose proof Hs as [[Hty Hval]%andb_true_iff _]%andb_true_iff.
  apply bool_decide_eq_true in Hty. apply bool_decide_eq_true in Hval.
  rewrite evaluate_leaf by auto.
  destruct (notInfinite_round v Hv) as [turns ->].
  destruct (rollDice_ends fuel turns s (Js.ofZ 0)
              (clearChildren (setAttribute "sides" (getAttribute "value" s)
                 (putChild 0 c' (Node NodeType.Dice [c; s] attrs)))) st1 Hs eq_refl)
    as (total' & e' & st' & Hroll & Hfin).
  unfold VInt. rewrite Hroll. by intros _.
Qed.

Lemma endsWell_setValue count (body : M R (value * ExpressionNode)) st :
  endsWell count (body st) ->
  endsWell count
    (bind body
       (fun '(value, expression) =>
          let expression := setAttribute "value" value expression in
          ret (getAttribute "value" expression, expression)) st).
Proof.
  unfold bind. destruct (body st) as [[[v e] st']| |]; try done.
  cbn. by rewrite getAttribute_setAttribute.
Qed.

Lemma endsWell_false {A} (r : result (value * A * estate R)) :
  r <> Diverge -> endsWell false r.
Proof. by destruct r as [[[v e] st']| |]. Qed.

Lemma endsWell_not_Diverge {A} count (r : result (value * A * estate R)) :
  endsWell count r -> r <> Diverge.
Proof. by destruct r as [[[v e] st']| |]. Qed.

Lemma endsWell_weaken {A} count (r : result (value * A * estate R)) :
  endsWell true r -> endsWell count r.
Proof. destruct r as [[[v e] st']| |]; try done. cbn. auto. Qed.

Lemma unevaluated_falsy ty cs attrs :
  unevaluated attrs = true ->
  negb (truthy (getAttribute "value" (Node ty cs attrs))) = true.
Proof.
  intros H%bool_decide_eq_true. unfold getAttribute. cbn [attributes]. by rewrite H.
Qed.

Lemma forallb_children (P : ExpressionNode -> bool) cs c :
  forallb P cs = true -> c ∈ cs -> P c = true.
Proof.
  intros H Hc. rewrite forallb_forall in H. apply H. by apply list_elem_of_In.
Qed.

Lemma indices_end count h ty cs attrs :
  (forall c, c ∈ cs -> forall st', endsWell count (eval (S h) c st')) ->
  forall i, i ∈ seq 0 (getChildCount (Node ty cs attrs)) ->
  exists c, getChild i (Node ty cs attrs) = Some c /\
            forall st', endsWell count (eval (S h) c st').
Proof.
  intros Hcs i Hi. apply elem_of_seq in Hi.
  destruct (children_lookup (Node ty cs attrs) i ltac:(lia)) as (c & Hc & Hin).
  exists c. split; [done|]. by apply Hcs.
Qed.

(** The steps that the cases of [evaluate_ends] share: the node has no
    value yet, so that it is evaluated and the value recorded; and its
    children end by the induction hypothesis. *)
Local Ltac unevaluated_node :=
  lazymatch goal with
  | H : _ && _ = true |- _ =>
      apply andb_true_iff in H as [Hu Hcs];
      rewrite (unevaluated_falsy _ _ _ Hu); apply endsWell_setValue
  end.
Local Ltac no_count_node :=
  lazymatch goal with
  | H : negb ?count && _ && _ = true |- _ =>
      apply andb_true_iff in H as [[Hcount Hu]%andb_true_iff Hcs];
      apply negb_true_iff in Hcount; subst count;
      rewrite (unevaluated_falsy _ _ _ Hu); apply endsWell_setValue
  end.
Local Ltac children_end IHc :=
  intros; apply IHc; [done|by eapply forallb_children].
Local Ltac comparison_node IHc :=
  unevaluated_node; unfold bind;
  lazymatch goal with
  | |- context [evaluateOperands ?ev ?idx ?e ?st] =>
      pose proof (evaluateOperands_ends ev idx e st (NoDup_seq _ _)) as H;
      destruct (evaluateOperands ev idx e st) as [[e' st']| |]; try done;
      apply H, indices_end; children_end IHc
  end.

Lemma evaluate_ends h : forall t count,
  (height t <= h)%nat -> shape true count t = true ->
  forall st, endsWell count (eval (S h) t st).
Proof.
  induction h as [|h IH]; intros [ty cs attrs] count Hh Hshape st.
  { cbn [height] in Hh. lia. }
  assert (IHc : forall c count', c ∈ cs -> shape true count' c = true ->
                  forall st', endsWell count' (eval (S h) c st')).
  { intros c count' Hc Hs st'. apply IH; [|done].
    pose proof (height_child ty cs attrs c Hc). lia. }
  change (eval (S (S h))) with (evaluateNode pow_frac Number_toString random fns
                                  (eval (S h)) (S h)).
  unfold evaluateNode.
  destruct ty; cbn [shape] in Hshape; try discriminate;
    (rewrite decide_False by done); cbn [type].
  - (* Integer *)
    destruct (negb _) eqn:Htruthy.
    + apply endsWell_setValue. by intros _.
    + by intros _.
  - (* Dice *)
    unevaluated_node.
    destruct cs as [|c [|s [|]]]; try done.
    apply andb_true_iff in Hcs as [Hc Hs].
    apply evaluateDice_ends; [|done].
    intros st'. apply IHc; [by left|done].
  - (* Add *)
    unevaluated_node.
    apply evaluateBinary_ends; [children_end IHc|left; apply js_plus_closed].
  - (* Subtract *)
    unevaluated_node.
    apply evaluateBinary_ends; [children_end IHc|left; apply js_minus_closed].
  - (* Multiply *)
    unevaluated_node.
    apply evaluateBinary_ends; [children_end IHc|left; apply js_times_closed].
  - (* Divide *)
    no_count_node. apply evaluateBinary_ends; [children_end IHc|by right].
  - (* Modulo *)
    unevaluated_node.
    apply evaluateBinary_ends; [children_end IHc|left; apply js_modulo_closed].
  - (* Exponent *)
    no_count_node. apply evaluateBinary_ends; [children_end IHc|by right].
  - (* Negate *)
    unevaluated_node.
    unfold bind at 1, expectChildCount.
    destruct cs as [|c rest]; [done|].
    cbn [getChildCount children length Nat.ltb Nat.leb ret]. unfold bind.
    pose proof (evaluateChild_ends (eval (S h)) count 0
                  (Node NodeType.Negate (c :: rest) attrs) c st eq_refl
                  (fun st' => IHc c count ltac:(by left)
                                ltac:(by eapply forallb_children; [exact Hcs|left]) st'))
      as H0.
    destruct (evaluateChild _ 0 _ st) as [[[v e1] st1]| |]; try done.
    destruct H0 as [Hv _]. unfold ret. intros Hc. specialize (Hv Hc).
    destruct (notInfinite_VNum _ Hv) as [x ->]. by destruct x.
  - (* Equal *) comparison_node IHc.
  - (* Greater *) comparison_node IHc.
  - (* GreaterOrEqual *) comparison_node IHc.
  - (* Less *) comparison_node IHc.
  - (* LessOrEqual *) comparison_node IHc.
  - (* Function *)
    no_count_node.
    apply endsWell_false. unfold evaluateFunction.
    destruct (getAttribute "name" _) as [x|name|]; try done.
    destruct (fns !! name) as [f|] eqn:Hf; [|done].
    apply (functions_end name f Hf). intros c st' Hc.
    apply (endsWell_not_Diverge false). apply IHc; [done|by eapply forallb_children].
  - (* Group *)
    unevaluated_node.
    unfold evaluateGroup. apply evaluateChildrenFrom_ends; [apply NoDup_seq| |done].
    apply indices_end. children_end IHc.
Qed.
End Termination.

(** *** The loops of Explode and Reroll *)

Lemma js_le_VInt (a b : Z) : js_le (VInt a) (VInt b) = (a <=? b).
Proof.
  unfold js_le, VInt, toNumber, Js.ofZ.
  apply eq_true_iff_eq. rewrite leb_Fin, Z.leb_le, <- Zle_Qle. done.
Qed.

Section ModifierLoops.
Context {R : Type} (pow_frac : Q -> Q -> Js.number)
  (Number_toString : Js.number -> string)
  (random : RandomProvider R) (fns : FunctionDefinitionList R).

Local Abbreviation eval := (evaluate pow_frac Number_toString random fns).

Lemma evaluateComparison_atLeast (ev : Evaluator R) attrs (z : Z) st :
  memoizing ev -> 1 <= z ->
  evaluateComparison ev (VInt z)
    (Node NodeType.GreaterOrEqual [integerNode (VInt 1)] attrs) st =
  Ok (true, Node NodeType.GreaterOrEqual [integerNode (VInt 1)] attrs, st).
Proof.
  intros [_ Hmemo] Hz. unfold evaluateComparison, bind, expectChildCount.
  cbn [getChildCount children length Nat.ltb Nat.leb ret type].
  unfold evaluateChild, bind. cbn [getChild children lookup list_lookup].
  rewrite Hmemo; [|done|done].
  unfold integerNode at 1. rewrite getAttribute_setAttribute.
  unfold ret. rewrite js_le_VInt.
  replace (1 <=? z) with true by (symmetry; by apply Z.leb_le).
  reflexivity.
Qed.

Lemma explodeWhile_atLeast (ev : Evaluator R) fuel attrs :
  memoizing ev -> meetsContract random 1 6 ->
  forall (z : Z) total newRolls st, 1 <= z ->
  explodeWhile Number_toString random ev fuel
    (Some (Node NodeType.GreaterOrEqual [integerNode (VInt 1)] attrs))
    (VInt 6) false (VInt z) total newRolls st = Diverge.
Proof.
  intros Hev Hrandom.
  induction fuel as [|fuel IH]; intros z total newRolls st Hz; [done|].
  cbn [explodeWhile]. unfold bind at 1. unfold testCondition, bind.
  rewrite evaluateComparison_atLeast by done. unfold ret at 1. cbn [orb].
  unfold createDiceRoll, bind, createDiceRollValue.
  change (strict_eq (VInt 6) (VStr "fate")) with false. cbn iota.
  unfold bind, numberBetween.
  change (Math_round (VInt 6)) with (Js.round (Js.ofZ 6)). rewrite round_ofZ.
  destruct (Hrandom (rng st)) as (z' & Hz' & Hrange).
  destruct (random _ _ (rng st)) as [r g]. cbn [fst] in Hz'. subst r.
  unfold ret. destruct Hev as [Hroll _]. rewrite Hroll by done.
  apply IH. lia.
Qed.

Lemma evaluate_atLeast k st :
  eval (S (S k)) (atLeast 1) st =
  Ok (VInt 0,
      Node NodeType.GreaterOrEqual [integerNode (VInt 1)] {["value" := VInt 0]},
      st).
Proof. vm_compute. reflexivity. Qed.

Lemma explode_every_face_diverges fuel st :
  meetsContract random 1 6 ->
  eval fuel (modifierNode NodeType.Explode ∅ [nds 1 6; atLeast 1]) st = Diverge.
Proof.
  intros Hrandom. destruct fuel as [|[|[|k]]]; [reflexivity..|].
  change (eval (S (S (S k)))) with (evaluateNode pow_frac Number_toString random fns
                                     (eval (S (S k))) (S (S k))).
  unfold evaluateNode, modifierNode. rewrite decide_False by done.
  unfold getAttribute at 1. cbn [attributes]. rewrite lookup_empty.
  cbn [default truthy negb type].
  unfold bind at 1. unfold evaluateExplode, bind.
  cbn [expectChildCount getChildCount children length Nat.ltb Nat.leb ret].
  pose proof (evaluate_nds pow_frac Number_toString random fns k 1 6 st ltac:(lia))
    as Hdice.
  change (Z.to_nat 1) with 1%nat in Hdice. cbn [draws] in Hdice.
  destruct (Hrandom (rng st)) as (z & Hz & Hrange).
  destruct (random (Js.ofZ 1) (Js.ofZ 6) (rng st)) as [r g]. cbn [fst] in Hz. subst r.
  cbn [sumFrom foldl fmap list_fmap] in Hdice. rewrite add_ofZ in Hdice.
  cbn [Z.add] in Hdice.
  erewrite findLeftmostDiceNode_child; [|done|done|exact Hdice|done].
  clear Hdice. replace (0 + z) with z by lia.
  set (dice' := Node NodeType.Dice [rollNode (Js.ofZ z)] _).
  unfold putChild. cbn [children type attributes].
  change (<[0%nat:=dice']> [nds 1 6; atLeast 1]) with [dice'; atLeast 1].
  unfold evaluateCondition.
  cbn [getChildCount children length Nat.ltb Nat.leb getChild lookup list_lookup].
  unfold bind. rewrite evaluate_atLeast. unfold ret.
  cbn [atDice getChild children lookup list_lookup].
  change (getChild 0 (putChild 1 _ _)) with (Some dice').
  unfold bind. rewrite evaluate_memo; [|done|].
  2:{ unfold dice'. unfold getAttribute. cbn [attributes]. rewrite lookup_insert_eq.
      cbn [default id truthy]. rewrite truthy_ofZ. apply negb_true_iff, Z.eqb_neq. lia. }
  assert (Hsides : getAttribute "sides" dice' = VInt 6).
  { unfold dice', getAttribute. cbn [attributes].
    by rewrite lookup_insert_ne, lookup_insert_eq. }
  rewrite Hsides.
  change (strict_eq (getAttribute "penetrate" _) (VStr "yes")) with false.
  change (children dice') with [rollNode (Js.ofZ z)].
  cbn [explodeRolls]. unfold rollNode at 1. rewrite getAttribute_setAttribute.
  change (strict_eq (VStr "no") (VStr "yes")) with false. cbn iota.
  unfold bind. rewrite evaluate_DiceRoll by done. rewrite evaluateDiceRoll_rollNode.
  change (VNum (Js.ofZ z)) with (VInt z).
  rewrite explodeWhile_atLeast; [done|apply evaluate_memoizing|done|lia].
Qed.
Lemma rerollWhile_atLeast (ev : Evaluator R) fuel attrs :
  memoizing ev -> meetsContract random 1 6 ->
  forall (z : Z) st, 1 <= z ->
  rerollWhile random ev fuel
    (Some (Node NodeType.GreaterOrEqual [integerNode (VInt 1)] attrs))
    (VInt 6) false (VInt z) st = Diverge.
Proof.
  intros Hev Hrandom.
  induction fuel as [|fuel IH]; intros z st Hz; [done|].
  cbn [rerollWhile]. unfold bind at 1. unfold testCondition, bind.
  rewrite evaluateComparison_atLeast by done. unfold ret at 1. cbn [orb].
  unfold createDiceRollValue.
  change (strict_eq (VInt 6) (VStr "fate")) with false. cbn iota.
  unfold bind, numberBetween.
  change (Math_round (VInt 6)) with (Js.round (Js.ofZ 6)). rewrite round_ofZ.
  destruct (Hrandom (rng st)) as (z' & Hz' & Hrange).
  destruct (random _ _ (rng st)) as [r g]. cbn [fst] in Hz'. subst r.
  unfold ret. apply IH. lia.
Qed.

Lemma reroll_every_face_diverges fuel st :
  meetsContract random 1 6 ->
  eval fuel (modifierNode NodeType.Reroll ∅ [nds 1 6; atLeast 1]) st = Diverge.
Proof.
  intros Hrandom. destruct fuel as [|[|[|k]]]; [reflexivity..|].
  change (eval (S (S (S k)))) with (evaluateNode pow_frac Number_toString random fns
                                     (eval (S (S k))) (S (S k))).
  unfold evaluateNode, modifierNode. rewrite decide_False by done.
  unfold getAttribute at 1. cbn [attributes]. rewrite lookup_empty.
  cbn [default truthy negb type].
  unfold bind at 1. unfold evaluateReroll, bind.
  cbn [expectChildCount getChildCount children length Nat.ltb Nat.leb ret].
  pose proof (evaluate_nds pow_frac Number_toString random fns k 1 6 st ltac:(lia))
    as Hdice.
  change (Z.to_nat 1) with 1%nat in Hdice. cbn [draws] in Hdice.
  destruct (Hrandom (rng st)) as (z & Hz & Hrange).
  destruct (random (Js.ofZ 1) (Js.ofZ 6) (rng st)) as [r g]. cbn [fst] in Hz. subst r.
  cbn [sumFrom foldl fmap list_fmap] in Hdice. rewrite add_ofZ in Hdice.
  cbn [Z.add] in Hdice.
  erewrite findLeftmostDiceNode_child; [|done|done|exact Hdice|done].
  clear Hdice. replace (0 + z) with z by lia.
  set (dice' := Node NodeType.Dice [rollNode (Js.ofZ z)] _).
  unfold putChild. cbn [children type attributes].
  change (<[0%nat:=dice']> [nds 1 6; atLeast 1]) with [dice'; atLeast 1].
  unfold evaluateCondition.
  cbn [getChildCount children length Nat.ltb Nat.leb getChild lookup list_lookup].
  unfold bind. rewrite evaluate_atLeast. unfold ret.
  cbn [atDice getChild children lookup list_lookup].
  change (getChild 0 (putChild 1 _ _)) with (Some dice').
  unfold bind. rewrite evaluate_memo; [|done|].
  2:{ unfold dice'. unfold getAttribute. cbn [attributes]. rewrite lookup_insert_eq.
      cbn [default id truthy]. rewrite truthy_ofZ. apply negb_true_iff, Z.eqb_neq. lia. }
  assert (Hsides : getAttribute "sides" dice' = VInt 6).
  { unfold dice', getAttribute. cbn [attributes].
    by rewrite lookup_insert_ne, lookup_insert_eq. }
  rewrite Hsides.
  change (strict_eq (getAttribute "once" _) (VStr "yes")) with false.
  change (children dice') with [rollNode (Js.ofZ z)].
  cbn [rerollRolls]. unfold rollNode at 1. rewrite getAttribute_setAttribute.
  change (strict_eq (VStr "no") (VStr "yes")) with false. cbn iota.
  unfold bind. rewrite evaluate_DiceRoll by done. rewrite evaluateDiceRoll_rollNode.
  change (VNum (Js.ofZ z)) with (VInt z).
  rewrite rerollWhile_atLeast; [done|apply evaluate_memoizing|done|lia].
Qed.
End ModifierLoops.

(** *** The provider and the function of the examples *)

Lemma scripted_meetsContract (min max : Z) : min <= max -> meetsContract scripted min max.
Proof.
  intros Hle [|z script]; cbn [scripted fst].
  - exists min. split; [done|lia].
  - unfold clamp.
    change (Js.ltb (Js.ofZ z) (Js.ofZ min)) with (js_lt (VInt z) (VInt min)).
    change (Js.ltb (Js.ofZ max) (Js.ofZ z)) with (js_lt (VInt max) (VInt z)).
    rewrite !js_lt_VInt.
    destruct (Z.ltb_spec z min); [exists min; split; [done|lia]|].
    destruct (Z.ltb_spec max z); [exists max; split; [done|lia]|].
    exists z. split; [done|lia].
Qed.

Lemma scripted_finite : finiteProvider scripted.
Proof.
  intros min max [|z script] Hmax; cbn [scripted fst]; [by eexists|].
  unfold clamp, Js.ofZ. destruct (Js.ltb _ _); [by eexists|].
  destruct max as [q| | |]; try done; cbn [Js.ltb].
  - destruct (Qcompare _ _); by eexists.
  - by eexists.
Qed.

Lemma customFloor_ends {R} : endsWithArguments (@customFloor R).
Proof.
  intros ev e st Hcs. unfold customFloor, bind, evaluateChild.
  destruct (getChild 0 e) as [c|] eqn:Hc; [|done].
  unfold bind. specialize (Hcs c st).
  destruct (ev c st) as [[[v c'] st']| |]; try done.
  apply Hcs. unfold getChild in Hc. by eapply list_elem_of_lookup_2.
Qed.

(** *** The trees of the parser *)

Lemma yields_ret {S A} (P : A -> Prop) (a : A) : P a -> yields (S := S) P (ret a).
Proof. intros H st a' st' [= <- _]. done. Qed.

Lemma yields_bind {S A B} (P : A -> Prop) (Q : B -> Prop) (c : ST S A)
    (k : A -> ST S B) :
  yields P c -> (forall a, P a -> yields Q (k a)) -> yields Q (bind c k).
Proof.
  intros Hc Hk st b st' H. unfold bind in H.
  destruct (c st) as [[a st1]| |] eqn:E; try discriminate.
  exact (Hk a (Hc _ _ _ E) _ _ _ H).
Qed.

Lemma yields_any {S A} (c : ST S A) : yields (fun _ => True) c.
Proof. done. Qed.

Lemma yields_then {S A B} (Q : B -> Prop) (c : ST S A) (k : A -> ST S B) :
  (forall a, yields Q (k a)) -> yields Q (bind c k).
Proof. intros Hk. apply (yields_bind (fun _ => True)); [done|auto]. Qed.

Lemma yields_throw {S A} (P : A -> Prop) message : yields (S := S) P (throw message).
Proof. done. Qed.

Lemma yields_diverge {S A} (P : A -> Prop) : yields (S := S) P diverge.
Proof. done. Qed.

Lemma yields_weaken {S A} (P Q : A -> Prop) (c : ST S A) :
  (forall a, P a -> Q a) -> yields P c -> yields Q c.
Proof. intros H Hc st a st' E. eauto. Qed.

Lemma forallb_Forall_shape cs :
  Forall parserShape cs -> forallb (shape false false) cs = true.
Proof. intros H. apply forallb_forall. intros c Hc%list_elem_of_In.
  by apply (proj1 (Forall_forall _ _) H). Qed.

Lemma listRoot_shape root : listRoot root -> parserShape root.
Proof.
  intros ([Hty|Hty] & Hu & Hcs); destruct root as [ty cs attrs];
    cbn [type attributes children] in *; subst ty; unfold parserShape; cbn [shape];
    rewrite Hu, forallb_Forall_shape by done; done.
Qed.

Lemma listRoot_addChild child root :
  parserShape child -> listRoot root -> listRoot (addChild child root).
Proof.
  intros Hc (Hty & Hu & Hcs). unfold addChild. split; [done|]. split; [done|].
  cbn [children]. apply Forall_app. split; [done|]. by constructor.
Qed.

Lemma parserShape_unary ty a :
  ty = NodeType.Negate -> parserShape a ->
  parserShape (addChild a (Factory.create ty)).
Proof. intros -> Ha. unfold parserShape in *. cbn. by rewrite Ha. Qed.

Lemma parserShape_binary ty a b :
  ty ∈ [NodeType.Add; NodeType.Subtract; NodeType.Multiply; NodeType.Divide;
        NodeType.Modulo; NodeType.Exponent; NodeType.Equal; NodeType.Greater;
        NodeType.GreaterOrEqual; NodeType.Less; NodeType.LessOrEqual] ->
  parserShape a -> parserShape b ->
  parserShape (addChild b (addChild a (Factory.create ty))).
Proof.
  intros Hty Ha Hb. unfold parserShape in *.
  repeat (apply elem_of_cons in Hty as [->|Hty]; [cbn; by rewrite Ha, Hb|]).
  by apply elem_of_nil in Hty.
Qed.

Lemma parserShape_Integer s :
  parserShape (setAttribute "value" (VNum (Number_of_string s))
                 (Factory.create NodeType.Integer)).
Proof.
  unfold parserShape, setAttribute, Factory.create. cbn [shape type children attributes].
  rewrite lookup_insert_eq. cbn [default]. unfold Number_of_string.
  by destruct (digits_value 0 s).
Qed.

Lemma isSidesLeaf_number s :
  isSidesLeaf (setAttribute "value" (VNum (Number_of_string s))
                 (Factory.create NodeType.DiceSides)) = true.
Proof.
  unfold isSidesLeaf. rewrite getAttribute_setAttribute.
  unfold setAttribute, Factory.create. cbn [type children attributes].
  rewrite lookup_insert_eq. unfold Number_of_string.
  by destruct (digits_value 0 s).
Qed.

Lemma isSidesLeaf_fate :
  isSidesLeaf (setAttribute "value" (VStr "fate") (Factory.create NodeType.DiceSides))
  = true.
Proof. reflexivity. Qed.

Lemma parserShape_Dice1 c :
  parserShape c -> parserShape (addChild c (Factory.create NodeType.Dice)).
Proof. intros Hc. unfold parserShape in *. cbn. by rewrite Hc. Qed.

Lemma parserShape_Dice2 c s :
  parserShape c -> isSidesLeaf s = true ->
  parserShape (addChild s (addChild c (Factory.create NodeType.Dice))).
Proof. intros Hc Hs. unfold parserShape in *. cbn. by rewrite Hc, Hs. Qed.

(** The condition on roll counts apart, [shape] is the shape of the trees
    of the parser. *)
Lemma shape_parserShape t : forall strict count,
  shape strict count t = true -> parserShape t.
Proof.
  unfold parserShape. revert t. fix IH 1. intros [ty cs attrs] strict count.
  assert (Hcs : forall count', forallb (shape strict count') cs = true ->
                  forallb (shape false false) cs = true).
  { intros count'. induction cs as [|c cs IHcs]; [done|]. cbn [forallb].
    intros [Hc Hrest]%andb_true_iff. apply andb_true_iff.
    split; [by eapply IH|by apply IHcs]. }
  destruct ty; cbn [shape negb andb]; try done;
    try (intros [Hu Hf]%andb_true_iff; apply andb_true_iff; split;
         [done|by eapply Hcs]);
    try (intros [[_ Hu]%andb_true_iff Hf]%andb_true_iff; apply andb_true_iff; split;
         [done|by eapply Hcs]).
  intros [Hu Hf]%andb_true_iff; apply andb_true_iff; split; [done|].
  destruct cs as [|c [|s [|]]]; try done; [by eapply IH|].
  apply andb_true_iff in Hf as [Hc Hs]. apply andb_true_iff. split; [by eapply IH|done].
Qed.

Module ParserFacts.
Import Lexer Parser.

Lemma parseInteger_shape : yields parserShape parseInteger.
Proof.
  unfold parseInteger. apply yields_then. intros tok.
  apply yields_ret, parserShape_Integer.
Qed.

Section Grammar.
Variable parseExpression : P ExpressionNode.
Hypothesis parseExpression_shape : yields parserShape parseExpression.

Lemma parseBracketedExpression_shape :
  yields parserShape (parseBracketedExpression parseExpression).
Proof.
  unfold parseBracketedExpression. apply yields_then. intros _.
  eapply yields_bind; [exact parseExpression_shape|]. intros root Hroot.
  apply yields_then. intros _. by apply yields_ret.
Qed.

Lemma parseMore_shape fuel root :
  listRoot root -> yields listRoot (parseMore parseExpression fuel root).
Proof.
  revert root. induction fuel as [|fuel IH]; intros root Hroot; [done|].
  cbn [parseMore]. apply yields_then. intros token.
  destruct (decide _); [|by apply yields_ret].
  apply yields_then. intros _.
  eapply yields_bind; [exact parseExpression_shape|]. intros child Hchild.
  by apply IH, listRoot_addChild.
Qed.

Lemma parseList_shape fuel close root :
  listRoot root -> yields parserShape (parseList parseExpression fuel close root).
Proof.
  intros Hroot. unfold parseList. apply yields_then. intros token.
  apply (yields_bind listRoot).
  - destruct (decide _); [by apply yields_ret|].
    eapply yields_bind; [exact parseExpression_shape|]. intros child Hchild.
    by apply parseMore_shape, listRoot_addChild.
  - intros root' Hroot'. apply yields_then. intros _.
    by apply yields_ret, listRoot_shape.
Qed.

Lemma parseFunctionCall_shape fuel :
  yields parserShape (parseFunctionCall parseExpression fuel).
Proof.
  unfold parseFunctionCall. apply yields_then. intros functionName.
  apply yields_then. intros _. apply parseList_shape.
  split; [by left|]. split; [done|constructor].
Qed.

Lemma parseExpressionGroup_shape fuel :
  yields parserShape (parseExpressionGroup parseExpression fuel).
Proof.
  unfold parseExpressionGroup. apply yields_then. intros _. apply parseList_shape.
  split; [by right|]. split; [done|constructor].
Qed.

Lemma parseSimpleDiceRoll_shape rollTimes :
  (forall n, rollTimes = Some n -> parserShape n) ->
  yields parserShape (parseSimpleDiceRoll parseExpression rollTimes).
Proof.
  intros Hn. unfold parseSimpleDiceRoll. apply (yields_bind parserShape).
  - destruct rollTimes as [n|]; [by apply yields_ret, Hn|].
    apply yields_then. intros rollToken.
    destruct (tokenType rollToken); try apply yields_throw.
    + apply parseInteger_shape.
    + apply parseBracketedExpression_shape.
  - intros n' Hn'. apply yields_then. intros token.
    destruct (String.eqb _ "d").
    { apply yields_then. intros sidesToken.
      apply yields_ret, parserShape_Dice2; [done|apply isSidesLeaf_number]. }
    destruct (String.eqb _ "dF").
    { apply yields_ret, parserShape_Dice2; [done|apply isSidesLeaf_fate]. }
    by apply yields_ret, parserShape_Dice1.
Qed.

Lemma parseFactor_shape fuel : yields parserShape (parseFactor parseExpression fuel).
Proof.
  unfold parseFactor. apply yields_then. intros token.
  destruct (tokenType token); try apply yields_throw.
  - eapply yields_bind; [apply parseInteger_shape|]. intros number Hnumber.
    apply yields_then. intros next.
    destruct (decide _); [by apply yields_ret|].
    apply parseSimpleDiceRoll_shape. by intros ? [= <-].
  - apply parseFunctionCall_shape.
  - eapply yields_bind; [apply parseBracketedExpression_shape|]. intros root Hroot.
    apply yields_then. intros next.
    destruct (decide _); [|by apply yields_ret].
    apply parseSimpleDiceRoll_shape. by intros ? [= <-].
  - apply parseExpressionGroup_shape.
Qed.

Lemma parseTermLoop_shape fuel loops root :
  parserShape root -> yields parserShape (parseTermLoop parseExpression fuel loops root).
Proof.
  revert root. induction loops as [|loops IH]; intros root Hroot; [done|].
  cbn [parseTermLoop]. apply yields_then. intros token.
  destruct (MultiOperatorMap _) as [ty|] eqn:Hty; [|by apply yields_ret].
  apply yields_then. intros _.
  eapply yields_bind; [apply parseFactor_shape|]. intros factor Hfactor.
  apply IH, parserShape_binary; [|done..].
  destruct (tokenType token); try discriminate; injection Hty as <-; set_solver.
Qed.

Lemma parseTerm_shape fuel : yields parserShape (parseTerm parseExpression fuel).
Proof.
  unfold parseTerm. eapply yields_bind; [apply parseFactor_shape|].
  intros root Hroot. by apply parseTermLoop_shape.
Qed.

Lemma parseSimpleLoop_shape fuel loops root :
  parserShape root ->
  yields parserShape (parseSimpleLoop parseExpression fuel loops root).
Proof.
  revert root. induction loops as [|loops IH]; intros root Hroot; [done|].
  cbn [parseSimpleLoop]. apply yields_then. intros token.
  destruct (AddOperatorMap _) as [ty|] eqn:Hty; [|by apply yields_ret].
  apply yields_then. intros _.
  eapply yields_bind; [apply parseTerm_shape|]. intros term Hterm.
  apply IH, parserShape_binary; [|done..].
  destruct (tokenType token); try discriminate; injection Hty as <-; set_solver.
Qed.

Lemma parseSimpleExpression_shape fuel :
  yields parserShape (parseSimpleExpression parseExpression fuel).
Proof.
  unfold parseSimpleExpression. apply yields_then. intros token.
  apply yields_then. intros _.
  eapply yields_bind; [apply parseTerm_shape|]. intros root Hroot.
  apply parseSimpleLoop_shape.
  destruct (decide _); [by apply parserShape_unary|done].
Qed.

Lemma parseExpressionBody_shape fuel :
  yields parserShape (parseExpressionBody parseExpression fuel).
Proof.
  unfold parseExpressionBody.
  eapply yields_bind; [apply parseSimpleExpression_shape|]. intros root Hroot.
  apply yields_then. intros token.
  destruct (BooleanOperatorMap _) as [ty|] eqn:Hty; [|by apply yields_ret].
  apply yields_then. intros _.
  eapply yields_bind; [apply parseSimpleExpression_shape|]. intros rhs Hrhs.
  apply yields_ret, parserShape_binary; [|done..].
  destruct (tokenType token); try discriminate; injection Hty as <-; set_solver.
Qed.

End Grammar.

Lemma parseExpression_shape fuel : yields parserShape (parseExpression fuel).
Proof.
  induction fuel as [|fuel IH]; [done|].
  cbn [parseExpression]. by apply parseExpressionBody_shape.
Qed.


End ParserFacts.




(** ** Trees without dice, and the errors of [evaluate] *)

Section ArithmeticFacts.
Context {R : Type} (pow_frac : Q -> Q -> Js.number)
  (Number_toString : Js.number -> string)
  (random : RandomProvider R) (fns : FunctionDefinitionList R).

Local Abbreviation eval := (evaluate pow_frac Number_toString random fns).
Local Abbreviation den := (denote pow_frac Number_toString).
Local Abbreviation ann := (annotate pow_frac Number_toString).

Lemma evaluateChild_middle (ev : Evaluator R) ty attrs before c rest v c' st st' :
  ev c st = Ok (v, c', st') ->
  evaluateChild ev (length before) (Node ty (before ++ c :: rest) attrs) st =
  Ok (v, Node ty (before ++ c' :: rest) attrs, st').
Proof.
  intros Hev. unfold evaluateChild, getChild. cbn [children].
  rewrite list_lookup_middle by done. unfold bind. rewrite Hev.
  unfold ret, putChild. cbn [children type attributes].
  rewrite <- (Nat.add_0_r (length before)), insert_app_r. reflexivity.
Qed.

Lemma evaluateChildrenFrom_arithmetic (ev : Evaluator R) ty attrs rest :
  (forall c st, c ∈ rest -> ev c st = Ok (den c, ann c, st)) ->
  forall before total st,
    evaluateChildrenFrom Number_toString ev (seq (length before) (length rest)) total
      (Node ty (before ++ rest) attrs) st =
    Ok (foldl (js_plus Number_toString) total (den <$> rest),
        Node ty (before ++ (ann <$> rest)) attrs, st).
Proof.
  induction rest as [|c rest IH]; intros Hev before total st; [done|].
  cbn [length seq evaluateChildrenFrom]. unfold bind.
  erewrite evaluateChild_middle by (apply Hev; left).
  specialize (IH (fun c st Hc => Hev c st ltac:(by right)) (before ++ [ann c])
                 (js_plus Number_toString total (den c)) st).
  rewrite length_app, Nat.add_1_r, <- !app_assoc in IH. exact IH.
Qed.

Lemma evaluateOperands_arithmetic (ev : Evaluator R) ty attrs rest :
  (forall c st, c ∈ rest -> ev c st = Ok (den c, ann c, st)) ->
  forall before st,
    evaluateOperands ev (seq (length before) (length rest))
      (Node ty (before ++ rest) attrs) st =
    Ok (Node ty (before ++ (ann <$> rest)) attrs, st).
Proof.
  induction rest as [|c rest IH]; intros Hev before st; [done|].
  cbn [length seq evaluateOperands]. unfold bind.
  erewrite evaluateChild_middle by (apply Hev; left).
  specialize (IH (fun c st Hc => Hev c st ltac:(by right)) (before ++ [ann c]) st).
  rewrite length_app, Nat.add_1_r, <- !app_assoc in IH. exact IH.
Qed.

Lemma evaluateBinary_arithmetic (ev : Evaluator R) op ty attrs a b st :
  (forall c st, c ∈ [a; b] -> ev c st = Ok (den c, ann c, st)) ->
  evaluateBinary ev op (Node ty [a; b] attrs) st =
  Ok (op (den a) (den b), Node ty [ann a; ann b] attrs, st).
Proof.
  intros Hev. unfold evaluateBinary, bind at 1, expectChildCount.
  cbn [getChildCount children length Nat.ltb Nat.leb ret]. unfold bind.
  pose proof (evaluateChild_middle ev ty attrs [] a [b] (den a) (ann a) st st
                ltac:(apply Hev; set_solver)) as Ha.
  pose proof (evaluateChild_middle ev ty attrs [ann a] b [] (den b) (ann b) st st
                ltac:(apply Hev; set_solver)) as Hb.
  cbn [length app] in Ha, Hb. by rewrite Ha, Hb.
Qed.

Local Ltac comparison_case :=
  lazymatch goal with
  | Harith : _ && _ = true, IHc : forall c st, c ∈ ?cs -> _ |-
      context [evaluateOperands ?ev _ (Node ?ty ?cs ?attrs)] =>
      let Hf := fresh "Hf" in
      let Hcs := fresh "Hcs" in
      apply andb_true_iff in Harith as [Hf Hcs];
      unfold falsyValue in Hf; rewrite Hf; unfold bind, getChildCount;
      cbn [children];
      rewrite (evaluateOperands_arithmetic ev ty attrs cs
                 ltac:(intros c st' Hc; apply IHc;
                       [done|by eapply forallb_children]) []);
      unfold ret; rewrite getAttribute_setAttribute; reflexivity
  end.


(** X2.  A comparison node evaluates its operands, in order, and its own value
    is 0 whatever they are. *)
Theorem comparison_value_is_zero fuel ty a b attrs va a' vb b' st st1 st2 :
  ty ∈ [NodeType.Equal; NodeType.Greater; NodeType.GreaterOrEqual;
        NodeType.Less; NodeType.LessOrEqual] ->
  falsyValue attrs = true ->
  eval fuel a st = Ok (va, a', st1) ->
  eval fuel b st1 = Ok (vb, b', st2) ->
  eval (S fuel) (Node ty [a; b] attrs) st =
  Ok (VInt 0, Node ty [a'; b'] (<["value" := VInt 0]> attrs), st2).
Proof.
  intros Hty Hf Ha Hb.
  change (eval (S fuel)) with (evaluateNode pow_frac Number_toString random fns
                                 (eval fuel) fuel).
  unfold evaluateNode. unfold falsyValue in Hf.
  pose proof (evaluateChild_middle (eval fuel) ty attrs [] a [b] va a' st st1 Ha) as H0.
  pose proof (evaluateChild_middle (eval fuel) ty attrs [a'] b [] vb b' st1 st2 Hb) as H1.
  cbn [length app] in H0, H1.
  repeat (apply elem_of_cons in Hty as [->|Hty];
          [rewrite decide_False by done; unfold getAttribute at 1;
           cbn [attributes type]; rewrite Hf; unfold bind;
           cbn [getChildCount children length seq evaluateOperands]; unfold bind;
           rewrite H0, H1; unfold ret; by rewrite getAttribute_setAttribute|]).
  by apply elem_of_nil in Hty.
Qed.

(** X3.  An arithmetic operator or a Dice node with fewer than two
    children: [evaluate] throws before any child is evaluated, and the
    message tells the type of the node and the number of children
    found. *)
Theorem operator_arity_error fuel ty cs attrs st :
  ty ∈ [NodeType.Add; NodeType.Subtract; NodeType.Multiply; NodeType.Divide;
        NodeType.Modulo; NodeType.Exponent; NodeType.Dice] ->
  falsyValue attrs = true ->
  (length cs < 2)%nat ->
  eval (S fuel) (Node ty cs attrs) st =
  Throw ("Expected " ++ NodeType.name ty ++ " node to have 2 children, but found "
         ++ pretty (length cs) ++ ".").
Proof.
  intros Hty Hf Hcs.
  change (eval (S fuel)) with (evaluateNode pow_frac Number_toString random fns
                                 (eval fuel) fuel).
  unfold evaluateNode. unfold falsyValue in Hf.
  assert (Hlt : (length cs <? 2)%nat = true) by by apply Nat.ltb_lt.
  repeat (apply elem_of_cons in Hty as [->|Hty];
          [rewrite decide_False by done; unfold getAttribute at 1;
           cbn [attributes type]; rewrite Hf;
           unfold bind, evaluateBinary, evaluateDice, bind, expectChildCount,
             getChildCount;
           cbn [children type]; rewrite Hlt; reflexivity|]).
  by apply elem_of_nil in Hty.
Qed.


Lemma loopCount_not_positive num :
  Js.ltb (Js.ofZ 0) (Js.round num) = false -> loopCount (Js.round num) = Some O.
Proof.
  destruct num as [q| | |]; try done. unfold Js.round.
  change (Js.ltb (Js.ofZ 0) (Js.ofZ ?z)) with (js_lt (VInt 0) (VInt z)).
  rewrite js_lt_VInt. intros Hz%Z.ltb_ge.
  unfold loopCount, Js.ofZ. rewrite Qceiling_Z. f_equal. lia.
Qed.

(** X4.  A roll count that rounds to zero or less, or that is not a number:
    no die is rolled, the Dice node loses its children and its total is
    0. *)
Theorem no_roll_for_count_below_one fuel count sides rest attrs v count' st st1 :
  falsyValue attrs = true ->
  eval (S fuel) count st = Ok (v, count', st1) ->
  type sides = NodeType.DiceSides ->
  truthy (getAttribute "value" sides) = true ->
  Js.ltb (Js.ofZ 0) (Math_round v) = false ->
  eval (S (S fuel)) (Node NodeType.Dice (count :: sides :: rest) attrs) st =
  Ok (VInt 0,
      Node NodeType.Dice []
        (<["value" := VInt 0]> (<["sides" := getAttribute "value" sides]> attrs)),
      st1).
Proof.
  intros Hf Hcount Hty Hsides Hnum.
  erewrite evaluate_Dice; [|by apply negb_true_iff|exact Hcount|done|done|
                            by apply loopCount_not_positive].
  destruct (rollRange _) as [min max]. cbn [draws]. by destruct st1.
Qed.


(** X6.  A function node whose name is not in the table of functions:
    [evaluate] throws, with the name in the message, and no argument is
    evaluated. *)
Theorem unknown_function_throws fuel name cs attrs st :
  attrs !! "name" = Some (VStr name) ->
  falsyValue attrs = true ->
  fns !! name = None ->
  eval (S fuel) (Node NodeType.Function cs attrs) st =
  Throw ("Unknown function: " ++ name).
Proof.
  intros Hname Hf Hfns.
  change (eval (S fuel)) with (evaluateNode pow_frac Number_toString random fns
                                 (eval fuel) fuel).
  unfold evaluateNode. rewrite decide_False by done.
  unfold getAttribute at 1. cbn [attributes type]. unfold falsyValue in Hf.
  rewrite Hf. unfold bind, evaluateFunction, getAttribute. cbn [attributes].
  rewrite Hname. change (default VUndef (Some (VStr name))) with (VStr name).
  cbn iota. by destruct (_ !! name).
Qed.

(** X7.  A modifier whose first operand, once evaluated, is a node without
    children that is not a Dice node: there is no dice node to modify. *)
Theorem modifier_without_dice_throws fuel ty c rest attrs v c' st st1 :
  ty ∈ [NodeType.Explode; NodeType.Keep; NodeType.Drop; NodeType.Critical;
        NodeType.Reroll; NodeType.Sort] ->
  falsyValue attrs = true ->
  eval (S (S fuel)) c st = Ok (v, c', st1) ->
  type c' <> NodeType.Dice ->
  children c' = [] ->
  eval (S (S (S fuel))) (Node ty (c :: rest) attrs) st = Throw "Missing dice node.".
Proof.
  intros Hty Hf Hc Htyc Hcs.
  change (eval (S (S (S fuel)))) with (evaluateNode pow_frac Number_toString random fns
                                 (eval (S (S fuel))) (S (S fuel))).
  unfold evaluateNode. unfold falsyValue in Hf.
  assert (Hfind : findLeftmostDiceNode (eval (S (S fuel))) (S (S fuel))
                    (Node ty (c :: rest) attrs) st = Throw "Missing dice node.").
  { cbn [findLeftmostDiceNode type].
    rewrite decide_False
      by (repeat (apply elem_of_cons in Hty as [->|Hty]; [done|]);
          by apply elem_of_nil in Hty).
    cbn [getChildCount children length Nat.ltb Nat.leb getChild lookup list_lookup].
    unfold bind. rewrite Hc. rewrite decide_False by done.
    unfold getChildCount. by rewrite Hcs. }
  repeat (apply elem_of_cons in Hty as [->|Hty];
          [rewrite decide_False by done; unfold getAttribute at 1;
           cbn [attributes type]; rewrite Hf;
           unfold bind at 1;
           unfold evaluateExplode, evaluateKeep, evaluateDrop, evaluateCritical,
             evaluateReroll, evaluateSort;
           unfold bind at 1, expectChildCount;
           cbn [getChildCount children length Nat.ltb Nat.leb ret];
           unfold bind at 1; by rewrite Hfind|]).
  by apply elem_of_nil in Hty.
Qed.

End ArithmeticFacts.

(** ** Critical without a condition *)

Section CriticalFacts.
Context {R : Type} (pow_frac : Q -> Q -> Js.number)
  (Number_toString : Js.number -> string)
  (random : RandomProvider R) (fns : FunctionDefinitionList R).

Local Abbreviation eval := (evaluate pow_frac Number_toString random fns).

Lemma evaluateComparison_Equal fuel lhs target st :
  evaluateComparison (eval (S fuel)) lhs
    (addChild (integerNode target) (Factory.create NodeType.Equal)) st =
  Ok (strict_eq lhs target,
      addChild (integerNode target) (Factory.create NodeType.Equal), st).
Proof.
  unfold evaluateComparison, bind, expectChildCount, addChild, Factory.create.
  cbn [getChildCount children length Nat.ltb Nat.leb ret type attributes app].
  unfold evaluateChild, bind. cbn [getChild children lookup list_lookup].
  rewrite evaluate_leaf; [|by left|].
  2:{ unfold integerNode, setAttribute. cbn [attributes].
      rewrite lookup_insert_eq. by eexists. }
  unfold integerNode at 1. rewrite getAttribute_setAttribute. reflexivity.
Qed.

Lemma criticalRolls_rolls fuel ty target rolls total st :
  Forall isRoll rolls ->
  criticalRolls Number_toString (eval (S fuel))
    (addChild (integerNode target) (Factory.create NodeType.Equal)) ty rolls
    (VNum total) st =
  Ok (VNum (sumFrom total (countedValue <$> rolls)),
      addChild (integerNode target) (Factory.create NodeType.Equal),
      markCritical ty target rolls, st).
Proof.
  intros Hrolls. revert total.
  induction Hrolls as [|c rolls Hc _ IH]; intros total; [done|].
  cbn [criticalRolls]. unfold bind at 1. rewrite evaluate_DiceRoll by apply Hc.
  unfold bind at 1. rewrite evaluateComparison_Equal.
  unfold bind. rewrite (evaluateDiceRoll_isRoll c Hc).
  change (js_plus _ (VNum total) (VNum (countedValue c)))
    with (VNum (Js.add total (countedValue c))).
  rewrite IH. unfold ret. cbn [fmap list_fmap markCritical].
  by rewrite (evaluateDiceRoll_isRoll c Hc).
Qed.


Lemma criticalCondition_default (ev : Evaluator R) ty dice' attrs st :
  (ty = VStr "success" -> (2 <= length (children dice'))%nat) ->
  criticalCondition ev 1 ty (Node NodeType.Critical [dice'] attrs) st =
  Ok (addChild (integerNode (criticalTarget ty dice')) (Factory.create NodeType.Equal),
      false, Node NodeType.Critical [dice'] attrs, st).
Proof.
  intros Htwo. unfold criticalCondition, criticalTarget.
  cbn [getChildCount children length Nat.ltb Nat.leb].
  destruct (strict_eq ty (VStr "success")) eqn:Hty; [|done].
  assert (ty = VStr "success") as Hsuccess.
  { destruct ty as [x|s|]; try done. cbn in Hty. by apply String.eqb_eq in Hty as ->. }
  specialize (Htwo Hsuccess).
  unfold bind. cbn [atDice getChild children lookup list_lookup].
  unfold bind, expectChildCount, getChildCount.
  replace (length (children dice') <? 2)%nat with false
    by (symmetry; apply Nat.ltb_ge; lia).
  unfold ret, putChild. cbn [children type attributes].
  by change (<[0%nat:=dice']> [dice']) with [dice'].
Qed.

(** X8.  Critical without a condition, on dice that were rolled and whose total
    is not 0: the rolls whose value is the target (the sides of the dice for
    the type ["success"], 1 for any other) get the attribute [critical]; no
    roll is added, removed or moved, and the total is the sum of the rolls
    that count.  The type ["success"] needs at least two rolls. *)
Theorem critical_marks_default fuel dice dice' attrs v st st1 :
  falsyValue attrs = true ->
  eval (S (S fuel)) dice st = Ok (v, dice', st1) ->
  type dice' = NodeType.Dice ->
  truthy (getAttribute "value" dice') = true ->
  Forall isRoll (children dice') ->
  (default VUndef (attrs !! "type") = VStr "success" ->
   (2 <= length (children dice'))%nat) ->
  let ty := default VUndef (attrs !! "type") in
  let total := VNum (sumFrom (Js.ofZ 0) (countedValue <$> children dice')) in
  eval (S (S (S fuel))) (Node NodeType.Critical [dice] attrs) st =
  Ok (total,
      Node NodeType.Critical
        [putChildren (markCritical ty (criticalTarget ty dice') (children dice')) dice']
        (<["value" := total]> attrs),
      st1).
Proof.
  intros Hf Hev Hdice Htotal Hrolls Htwo ty total.
  change (eval (S (S (S fuel)))) with (evaluateNode pow_frac Number_toString random fns
                                     (eval (S (S fuel))) (S (S fuel))).
  unfold evaluateNode. rewrite decide_False by done.
  unfold getAttribute at 1. cbn [attributes]. unfold falsyValue in Hf. rewrite Hf.
  cbn [type]. unfold bind at 1. unfold evaluateCritical, bind at 1.
  cbn [expectChildCount getChildCount children length Nat.ltb Nat.leb ret].
  unfold bind at 1.
  erewrite findLeftmostDiceNode_child; [|done|done|exact Hev|done].
  unfold putChild. cbn [children type attributes].
  change (<[0%nat:=dice']> [dice]) with [dice'].
  unfold bind at 1. unfold getAttribute at 1. cbn [attributes]. fold ty.
  rewrite criticalCondition_default by done.
  unfold bind at 1. cbn [atDice getChild children lookup list_lookup].
  unfold bind at 1 2. rewrite evaluate_memo by (done || by rewrite Hdice).
  unfold bind at 1. unfold VInt at 1. rewrite criticalRolls_rolls by done.
  unfold ret, putChild. cbn [children type attributes].
  rewrite getAttribute_setAttribute. reflexivity.
Qed.

(** X9.  Critical of the type ["success"] without a condition, on dice that
    rolled fewer than two dice: the check made for the sides finds the
    rolls in the place of the two operands. *)
Theorem critical_success_needs_two_rolls fuel dice dice' attrs v st st1 :
  falsyValue attrs = true ->
  attrs !! "type" = Some (VStr "success") ->
  eval (S (S fuel)) dice st = Ok (v, dice', st1) ->
  type dice' = NodeType.Dice ->
  (length (children dice') < 2)%nat ->
  eval (S (S (S fuel))) (Node NodeType.Critical [dice] attrs) st =
  Throw ("Expected Dice node to have 2 children, but found "
         ++ pretty (length (children dice')) ++ ".").
Proof.
  intros Hf Hty Hev Hdice Hone.
  change (eval (S (S (S fuel)))) with (evaluateNode pow_frac Number_toString random fns
                                     (eval (S (S fuel))) (S (S fuel))).
  unfold evaluateNode. rewrite decide_False by done.
  unfold getAttribute at 1. cbn [attributes]. unfold falsyValue in Hf. rewrite Hf.
  cbn [type]. unfold bind at 1. unfold evaluateCritical, bind at 1.
  cbn [expectChildCount getChildCount children length Nat.ltb Nat.leb ret].
  unfold bind at 1.
  erewrite findLeftmostDiceNode_child; [|done|done|exact Hev|done].
  unfold putChild. cbn [children type attributes].
  change (<[0%nat:=dice']> [dice]) with [dice'].
  unfold bind at 1. unfold criticalCondition.
  cbn [getChildCount children length Nat.ltb Nat.leb].
  unfold getAttribute at 1. cbn [attributes]. rewrite Hty.
  change (strict_eq (default VUndef (Some (VStr "success"))) (VStr "success")) with true.
  cbn iota. unfold bind at 1 2. cbn [atDice getChild children lookup list_lookup].
  unfold bind at 1 2, expectChildCount, getChildCount.
  replace (length (children dice') <? 2)%nat with true
    by (symmetry; apply Nat.ltb_lt; lia).
  rewrite Hdice. reflexivity.
Qed.

End CriticalFacts.

(** ** Explode with [penetrate] *)

Lemma sub_ofZ (a b : Z) : Js.sub (Js.ofZ a) (Js.ofZ b) = Js.ofZ (a - b).
Proof.
  unfold Js.sub, Js.neg, Js.ofZ, Js.fin.
  rewrite <- inject_Z_opp, Qred_inject_Z. exact (add_ofZ a (- b)).
Qed.

Lemma js_minus_VInt (a b : Z) : js_minus (VInt a) (VInt b) = VInt (a - b).
Proof. unfold js_minus, VInt, toNumber. by rewrite sub_ofZ. Qed.

Lemma strict_eq_VInt (a b : Z) : strict_eq (VInt a) (VInt b) = (a =? b).
Proof.
  unfold strict_eq, VInt, Js.ofZ, Js.eqb. apply eq_true_iff_eq.
  by rewrite Qeq_bool_iff, Z.eqb_eq, inject_Z_injective.
Qed.

Lemma draws_S {R} (random : RandomProvider R) min max n g :
  draws random min max (S n) g =
  let '(r, g1) := random min max g in
  let '(rs, g2) := draws random min max n g1 in (r :: rs, g2).
Proof. reflexivity. Qed.

Lemma draws_add {R} (random : RandomProvider R) min max a b g :
  draws random min max (a + b) g =
  let '(rs1, g1) := draws random min max a g in
  let '(rs2, g2) := draws random min max b g1 in (rs1 ++ rs2, g2).
Proof.
  revert g. induction a as [|a IH]; intros g; cbn [Nat.add draws].
  - by destruct (draws random min max b g).
  - destruct (random min max g) as [r g1]. rewrite IH.
    destruct (draws random min max a g1) as [rs1 g2].
    by destruct (draws random min max b g2).
Qed.

Lemma showing_cons face z zs :
  showing face (z :: zs) = ((if (z =? face)%Z then 1 else 0) + showing face zs)%nat.
Proof.
  unfold showing. rewrite filter_cons.
  destruct (Z.eqb_spec z face); by destruct (decide _).
Qed.

Lemma foldr_add_app (xs ys : list Z) :
  foldr Z.add 0 (xs ++ ys) = foldr Z.add 0 xs + foldr Z.add 0 ys.
Proof. induction xs as [|x xs IH]; cbn [app foldr]; lia. Qed.

Section ExplodeFacts.
Context {R : Type} (pow_frac : Q -> Q -> Js.number)
  (Number_toString : Js.number -> string)
  (random : RandomProvider R) (fns : FunctionDefinitionList R).

Local Abbreviation eval := (evaluate pow_frac Number_toString random fns).

Lemma js_plus_VInt (a b : Z) : js_plus Number_toString (VInt a) (VInt b) = VInt (a + b).
Proof. unfold js_plus, VInt, toNumber. by rewrite add_ofZ. Qed.

(** One die of a penetrating explosion without condition. *)
Lemma explodeWhile_penetrate (ev : Evaluator R) fuel (s z total : Z) newRolls st :
  memoizing ev -> meetsContract random 1 s ->
  exists new g,
    draws random (Js.ofZ 1) (Js.ofZ s) (if z =? s then 1%nat else 0%nat) (rng st)
      = (Js.ofZ <$> new, g) /\
    Forall (fun r => 1 <= r <= s) new /\
    explodeWhile Number_toString random ev (S (S fuel)) None (VInt s) true
      (VInt z) (VInt total) newRolls st =
    Ok (VInt (total + foldr Z.add 0 new - Z.of_nat (length new)),
        newRolls ++ integerRolls new, None, EState g (errors st)).
Proof.
  intros Hev Hrandom. cbn [explodeWhile]. unfold bind at 1. cbn [testCondition ret orb].
  rewrite strict_eq_VInt. destruct (Z.eqb_spec z s) as [->|Hne].
  - cbn [draws]. unfold bind at 1.
    unfold createDiceRoll, bind, createDiceRollValue.
    change (strict_eq (VInt s) (VStr "fate")) with false. cbn iota.
    unfold bind, numberBetween.
    change (Math_round (VInt s)) with (Js.round (Js.ofZ s)). rewrite round_ofZ.
    destruct (Hrandom (rng st)) as (r & Hr & Hrange).
    destruct (random _ _ (rng st)) as [x g]. cbn [fst] in Hr. subst x.
    unfold ret.
    change (setAttribute "drop" (VStr "no")
              (setAttribute "value" (VNum (Js.ofZ r)) (Factory.create NodeType.DiceRoll)))
      with (rollNode (Js.ofZ r)).
    rewrite (proj1 Hev) by done. rewrite evaluateDiceRoll_rollNode.
    change (VNum (Js.ofZ r)) with (VInt r). rewrite js_minus_VInt, js_plus_VInt.
    unfold bind. cbn [testCondition ret orb]. rewrite strict_eq_VInt.
    replace (r - 1 =? s) with false by (symmetry; apply Z.eqb_neq; lia).
    exists [r], g. split; [done|]. split; [by constructor|].
    cbn [errors rng foldr length].
    by replace (total + (r + 0) - Z.of_nat 1) with (total + (r - 1)) by lia.
  - exists [], st.(rng). split; [done|]. split; [done|].
    unfold ret. cbn [foldr length integerRolls fmap list_fmap].
    rewrite app_nil_r. destruct st.
    by replace (total + 0 - Z.of_nat 0) with total by lia.
Qed.

Lemma explodeRolls_penetrate (ev : Evaluator R) fuel (s : Z) zs :
  memoizing ev -> meetsContract random 1 s ->
  forall (total : Z) newRolls st,
  exists new g,
    draws random (Js.ofZ 1) (Js.ofZ s) (showing s zs) (rng st) = (Js.ofZ <$> new, g) /\
    Forall (fun r => 1 <= r <= s) new /\
    explodeRolls Number_toString random ev (S (S fuel)) None (VInt s) true
      (integerRolls zs) (VInt total) newRolls st =
    Ok (VInt (total + foldr Z.add 0 zs + foldr Z.add 0 new - Z.of_nat (length new)),
        newRolls ++ integerRolls new, None, integerRolls zs, EState g (errors st)).
Proof.
  intros Hev Hrandom.
  induction zs as [|z zs IH]; intros total newRolls st.
  { exists [], (rng st). split; [done|]. split; [done|].
    cbn [explodeRolls integerRolls fmap list_fmap foldr length]. unfold ret.
    rewrite app_nil_r. destruct st.
    by replace (total + 0 + 0 - Z.of_nat 0) with total by lia. }
  rewrite showing_cons, draws_add.
  destruct (explodeWhile_penetrate ev fuel s z (total + z) newRolls st Hev Hrandom)
    as (new1 & g1 & Hdraw1 & Hrange1 & Hwhile).
  destruct (IH (total + z + foldr Z.add 0 new1 - Z.of_nat (length new1))
              (newRolls ++ integerRolls new1) (EState g1 (errors st)))
    as (new2 & g2 & Hdraw2 & Hrange2 & Hrest).
  cbn [rng errors] in Hdraw2, Hrest.
  exists (new1 ++ new2), g2. rewrite Hdraw1, Hdraw2.
  split; [by rewrite fmap_app|]. split; [by apply Forall_app|].
  cbn [integerRolls fmap list_fmap explodeRolls].
  unfold rollNode at 1. rewrite getAttribute_setAttribute.
  change (strict_eq (VStr "no") (VStr "yes")) with false. cbn iota.
  unfold bind at 1. fold (rollNode (Js.ofZ z)).
  rewrite (proj1 Hev) by done. rewrite evaluateDiceRoll_rollNode.
  change (VNum (Js.ofZ z)) with (VInt z). rewrite js_plus_VInt.
  unfold bind at 1. rewrite Hwhile.
  unfold bind at 1. fold (integerRolls zs). rewrite Hrest. unfold ret.
  assert (Happ : integerRolls (new1 ++ new2) = integerRolls new1 ++ integerRolls new2)
    by apply fmap_app.
  rewrite Happ, app_assoc, length_app, foldr_add_app, Nat2Z.inj_add. cbn [foldr].
  by replace (total + z + foldr Z.add 0 new1 - Z.of_nat (length new1) +
              foldr Z.add 0 zs + foldr Z.add 0 new2 - Z.of_nat (length new2))
    with (total + (z + foldr Z.add 0 zs) + (foldr Z.add 0 new1 + foldr Z.add 0 new2) -
          (Z.of_nat (length new1) + Z.of_nat (length new2))) by lia.
Qed.


End ExplodeFacts.

(** ** Reroll with [once] *)

Lemma setAttribute_value_rollNode (z : Z) r :
  setAttribute "value" (VInt z) (rollNode r) = rollNode (Js.ofZ z).
Proof.
  unfold rollNode, setAttribute, Factory.create. cbn [type children attributes].
  by f_equal.
Qed.

Lemma rerolled_length zs new : length (rerolled zs new) = length zs.
Proof.
  revert new. induction zs as [|z zs IH]; intros new; [done|].
  cbn [rerolled]. destruct (z =? 1); [destruct new|]; cbn [length]; by rewrite IH.
Qed.

Section RerollFacts.
Context {R : Type} (pow_frac : Q -> Q -> Js.number)
  (Number_toString : Js.number -> string)
  (random : RandomProvider R) (fns : FunctionDefinitionList R).

Local Abbreviation eval := (evaluate pow_frac Number_toString random fns).

Lemma rerollRolls_once (ev : Evaluator R) fuel (s : Z) zs :
  memoizing ev -> meetsContract random 1 s ->
  forall (total : Z) st,
  exists new g,
    draws random (Js.ofZ 1) (Js.ofZ s) (showing 1 zs) (rng st) = (Js.ofZ <$> new, g) /\
    Forall (fun r => 1 <= r <= s) new /\
    rerollRolls Number_toString random ev (S fuel) None (VInt s) true
      (integerRolls zs) (VInt total) st =
    Ok (VInt (total + foldr Z.add 0 (rerolled zs new)), None,
        integerRolls (rerolled zs new), EState g (errors st)).
Proof.
  intros Hev Hrandom.
  induction zs as [|z zs IH]; intros total st.
  { exists [], (rng st). split; [done|]. split; [done|].
    cbn [rerollRolls integerRolls fmap list_fmap foldr rerolled]. unfold ret.
    destruct st. by rewrite Z.add_0_r. }
  rewrite showing_cons. cbn [integerRolls fmap list_fmap rerollRolls].
  unfold rollNode at 1. rewrite getAttribute_setAttribute.
  change (strict_eq (VStr "no") (VStr "yes")) with false. cbn iota.
  unfold bind at 1. fold (rollNode (Js.ofZ z)).
  rewrite (proj1 Hev) by done. rewrite evaluateDiceRoll_rollNode.
  change (VNum (Js.ofZ z)) with (VInt z).
  unfold bind at 1. cbn [rerollWhile]. unfold bind at 1. cbn [testCondition ret orb].
  rewrite strict_eq_VInt. cbn [rerolled]. destruct (Z.eqb_spec z 1) as [->|Hne].
  - rewrite draws_add. cbn [draws].
    unfold bind at 1. unfold createDiceRollValue.
    change (strict_eq (VInt s) (VStr "fate")) with false. cbn iota.
    unfold bind at 1, numberBetween.
    change (Math_round (VInt s)) with (Js.round (Js.ofZ s)). rewrite round_ofZ.
    destruct (Hrandom (rng st)) as (r & Hr & Hrange).
    destruct (random _ _ (rng st)) as [x g1]. cbn [fst] in Hr. subst x.
    destruct (IH (total + r) (EState g1 (errors st))) as (new & g & Hdraws & Hnew & Hrest).
    cbn [rng errors] in Hdraws, Hrest. rewrite Hdraws.
    exists (r :: new), g. split; [done|]. split; [by constructor|].
    unfold ret. change (VNum (Js.ofZ r)) with (VInt r).
    rewrite setAttribute_value_rollNode, js_plus_VInt.
    unfold bind. fold (integerRolls zs). rewrite Hrest.
    cbn [foldr integerRolls fmap list_fmap].
    by replace (total + r + foldr Z.add 0 (rerolled zs new))
      with (total + (r + foldr Z.add 0 (rerolled zs new))) by lia.
  - destruct (IH (total + z) st) as (new & g & Hdraws & Hnew & Hrest).
    exists new, g. split; [done|]. split; [done|].
    unfold ret. rewrite setAttribute_value_rollNode, js_plus_VInt.
    unfold bind. fold (integerRolls zs). rewrite Hrest.
    cbn [foldr integerRolls fmap list_fmap].
    by replace (total + z + foldr Z.add 0 (rerolled zs new))
      with (total + (z + foldr Z.add 0 (rerolled zs new))) by lia.
Qed.

(** X11.  Reroll with [once] and without a condition, on dice that were rolled,
    with a provider that keeps to the sides: every roll that shows 1 is
    rolled again exactly once, in the order of the rolls, and keeps what
    it then shows, even another 1; the other rolls stay; the number of
    rolls does not change, and the total is the sum of what the rolls
    show in the end. *)
Theorem reroll_once fuel dice dice' attrs v (s : Z) zs st st1 :
  falsyValue attrs = true ->
  attrs !! "once" = Some (VStr "yes") ->
  meetsContract random 1 s ->
  eval (S (S fuel)) dice st = Ok (v, dice', st1) ->
  type dice' = NodeType.Dice ->
  truthy (getAttribute "value" dice') = true ->
  getAttribute "sides" dice' = VInt s ->
  children dice' = integerRolls zs ->
  exists new g,
    draws random (Js.ofZ 1) (Js.ofZ s) (showing 1 zs) (rng st1)
      = (Js.ofZ <$> new, g) /\
    Forall (fun r => 1 <= r <= s) new /\
    length (rerolled zs new) = length zs /\
    let total := VInt (foldr Z.add 0 (rerolled zs new)) in
    eval (S (S (S fuel))) (Node NodeType.Reroll [dice] attrs) st =
    Ok (total,
        Node NodeType.Reroll
          [putChildren (integerRolls (rerolled zs new)) dice']
          (<["value" := total]> attrs),
        EState g (errors st1)).
Proof.
  intros Hf Honce Hrandom Hev Hdice Htotal Hsides Hzs.
  destruct (rerollRolls_once (eval (S (S fuel))) (S fuel) s zs
              (evaluate_memoizing _ _ _ _ _) Hrandom 0 st1)
    as (new & g & Hdraws & Hrange & Hrolls).
  exists new, g. split; [done|]. split; [done|]. split; [apply rerolled_length|].
  intros total.
  change (eval (S (S (S fuel)))) with (evaluateNode pow_frac Number_toString random fns
                                     (eval (S (S fuel))) (S (S fuel))).
  unfold evaluateNode. rewrite decide_False by done.
  unfold getAttribute at 1. cbn [attributes]. unfold falsyValue in Hf. rewrite Hf.
  cbn [type]. unfold bind at 1. unfold evaluateReroll, bind at 1.
  cbn [expectChildCount getChildCount children length Nat.ltb Nat.leb ret].
  unfold bind at 1.
  erewrite findLeftmostDiceNode_child; [|done|done|exact Hev|done].
  unfold putChild. cbn [children type attributes].
  change (<[0%nat:=dice']> [dice]) with [dice'].
  assert (Hp : getAttribute "once" (Node NodeType.Reroll [dice'] attrs) = VStr "yes")
    by (unfold getAttribute; cbn [attributes]; by rewrite Honce).
  rewrite Hp. change (strict_eq (VStr "yes") (VStr "yes")) with true.
  unfold bind at 1. unfold evaluateCondition.
  cbn [getChildCount children length Nat.ltb Nat.leb ret].
  unfold bind at 1. cbn [atDice getChild children lookup list_lookup].
  unfold bind at 1 2. rewrite evaluate_memo by (done || by rewrite Hdice).
  rewrite Hsides, Hzs. unfold bind at 1. rewrite Hrolls.
  unfold ret, putChild, putCondition. cbn [children type attributes app].
  rewrite getAttribute_setAttribute. rewrite !Z.add_0_l. reflexivity.
Qed.

End RerollFacts.

(** ** The loops of Explode and Reroll that end *)

Lemma showing_app face xs ys :
  showing face (xs ++ ys) = (showing face xs + showing face ys)%nat.
Proof. unfold showing. by rewrite filter_app, length_app. Qed.

Lemma showing_nil face : showing face [] = 0%nat.
Proof. reflexivity. Qed.

Section LoopFacts.
Context {R : Type} (pow_frac : Q -> Q -> Js.number)
  (Number_toString : Js.number -> string)
  (random : RandomProvider R) (fns : FunctionDefinitionList R).

Local Abbreviation eval := (evaluate pow_frac Number_toString random fns).

(** One call of the provider for a die of [s] sides. *)
Lemma createDiceRollValue_sides (ev : Evaluator R) (s : Z) st :
  createDiceRollValue random ev (inr (VInt s)) st =
  let '(r, g) := random (Js.ofZ 1) (Js.ofZ s) (rng st) in
  Ok (r, inr (VInt s), EState g (errors st)).
Proof.
  unfold createDiceRollValue.
  change (strict_eq (VInt s) (VStr "fate")) with false. cbn iota.
  unfold bind, numberBetween.
  change (Math_round (VInt s)) with (Js.round (Js.ofZ s)). rewrite round_ofZ.
  by destruct (random _ _ (rng st)).
Qed.

(** One die of an explosion without condition. *)
Lemma explodeWhile_chain (ev : Evaluator R) (s : Z) b :
  memoizing ev -> meetsContract random 1 s ->
  forall fuel (z total : Z) newRolls st,
  (z = s -> settles random 1 s s b (rng st) = true) ->
  (b < fuel)%nat ->
  exists new g,
    Forall (fun r => 1 <= r <= s) new /\
    length new = showing s (z :: new) /\
    explodeWhile Number_toString random ev fuel None (VInt s) false
      (VInt z) (VInt total) newRolls st =
    Ok (VInt (total + foldr Z.add 0 new), newRolls ++ integerRolls new, None,
        EState g (errors st)).
Proof.
  intros Hev Hrandom.
  induction b as [|b IH]; intros fuel z total newRolls st Hb Hfuel;
    (destruct fuel as [|fuel]; [lia|]);
    cbn [explodeWhile]; unfold bind at 1; cbn [testCondition ret orb];
    rewrite strict_eq_VInt; destruct (Z.eqb_spec z s) as [->|Hne].
  - by specialize (Hb eq_refl).
  - exists [], (rng st). split; [done|]. split.
    { rewrite showing_cons. by rewrite (proj2 (Z.eqb_neq z s)). }
    unfold ret. cbn [foldr integerRolls fmap list_fmap]. rewrite app_nil_r.
    destruct st. by rewrite Z.add_0_r.
  - specialize (Hb eq_refl). cbn [settles] in Hb.
    unfold bind at 1. unfold createDiceRoll. unfold bind at 1.
    rewrite createDiceRollValue_sides.
    destruct (Hrandom (rng st)) as (r & Hr & Hrange).
    destruct (random _ _ (rng st)) as [x g1]. cbn [fst] in Hr. subst x.
    unfold ret.
    change (setAttribute "drop" (VStr "no")
              (setAttribute "value" (VNum (Js.ofZ r)) (Factory.create NodeType.DiceRoll)))
      with (rollNode (Js.ofZ r)).
    unfold bind at 1.
    rewrite (proj1 Hev) by done. rewrite evaluateDiceRoll_rollNode.
    change (VNum (Js.ofZ r)) with (VInt r) in *. rewrite js_plus_VInt.
    rewrite strict_eq_VInt in Hb.
    destruct (IH fuel r (total + r) (newRolls ++ [rollNode (Js.ofZ r)])
                (EState g1 (errors st))) as (new & g & Hnew & Hlen & Hwhile).
    { intros ->. rewrite Z.eqb_refl in Hb. exact Hb. }
    { lia. }
    exists (r :: new), g. split; [by constructor|]. split.
    { rewrite showing_cons, Z.eqb_refl. cbn [length]. by rewrite Hlen. }
    rewrite Hwhile. cbn [errors foldr integerRolls fmap list_fmap].
    rewrite <- app_assoc. cbn [app].
    by replace (total + r + foldr Z.add 0 new)
      with (total + (r + foldr Z.add 0 new)) by lia.
  - exists [], (rng st). split; [done|]. split.
    { rewrite showing_cons. by rewrite (proj2 (Z.eqb_neq z s)). }
    unfold ret. cbn [foldr integerRolls fmap list_fmap]. rewrite app_nil_r.
    destruct st. by rewrite Z.add_0_r.
Qed.

Lemma explodeRolls_chain (ev : Evaluator R) (s : Z) b fuel zs :
  memoizing ev -> meetsContract random 1 s -> leaves random 1 s s b ->
  (b < fuel)%nat ->
  forall (total : Z) newRolls st,
  exists new g,
    Forall (fun r => 1 <= r <= s) new /\
    length new = showing s (zs ++ new) /\
    explodeRolls Number_toString random ev fuel None (VInt s) false
      (integerRolls zs) (VInt total) newRolls st =
    Ok (VInt (total + foldr Z.add 0 zs + foldr Z.add 0 new),
        newRolls ++ integerRolls new, None, integerRolls zs, EState g (errors st)).
Proof.
  intros Hev Hrandom Hleaves Hfuel.
  induction zs as [|z zs IH]; intros total newRolls st.
  { exists [], (rng st). split; [done|]. split; [done|].
    cbn [explodeRolls integerRolls fmap list_fmap foldr]. unfold ret.
    rewrite app_nil_r. destruct st. by rewrite !Z.add_0_r. }
  destruct (explodeWhile_chain ev s b Hev Hrandom fuel z (total + z) newRolls st
              (fun _ => Hleaves (rng st)) Hfuel)
    as (new1 & g1 & Hrange1 & Hlen1 & Hwhile).
  destruct (IH (total + z + foldr Z.add 0 new1)
              (newRolls ++ integerRolls new1) (EState g1 (errors st)))
    as (new2 & g2 & Hrange2 & Hlen2 & Hrest).
  cbn [rng errors] in Hrest.
  exists (new1 ++ new2), g2.
  split; [by apply Forall_app|]. split.
  { rewrite showing_cons in Hlen1. rewrite showing_app in Hlen2.
    rewrite <- app_comm_cons, showing_cons, !showing_app, length_app. lia. }
  cbn [integerRolls fmap list_fmap explodeRolls].
  unfold rollNode at 1. rewrite getAttribute_setAttribute.
  change (strict_eq (VStr "no") (VStr "yes")) with false. cbn iota.
  unfold bind at 1. fold (rollNode (Js.ofZ z)).
  rewrite (proj1 Hev) by done. rewrite evaluateDiceRoll_rollNode.
  change (VNum (Js.ofZ z)) with (VInt z). rewrite js_plus_VInt.
  unfold bind at 1. rewrite Hwhile.
  unfold bind at 1. fold (integerRolls zs). rewrite Hrest. unfold ret.
  assert (Happ : integerRolls (new1 ++ new2) = integerRolls new1 ++ integerRolls new2)
    by apply fmap_app.
  rewrite Happ, app_assoc, foldr_add_app. cbn [foldr].
  by replace (total + z + foldr Z.add 0 new1 + foldr Z.add 0 zs + foldr Z.add 0 new2)
    with (total + (z + foldr Z.add 0 zs) + (foldr Z.add 0 new1 + foldr Z.add 0 new2))
    by lia.
Qed.

(** X24.  Explode without [penetrate] and without a condition, on dice that
    were rolled, with a provider that keeps to the sides and never returns
    the highest face [b] times in a row: the loop ends; every roll that
    shows the highest face, an old one or a new one, brings exactly one
    new roll; the new rolls come after the old ones, which stay as they
    are; and the total is the sum of all the rolls. *)
Theorem explosion_chain fuel b dice dice' attrs v (s : Z) zs st st1 :
  falsyValue attrs = true ->
  strict_eq (default VUndef (attrs !! "penetrate")) (VStr "yes") = false ->
  meetsContract random 1 s ->
  leaves random 1 s s b ->
  (b <= fuel)%nat ->
  eval (S (S fuel)) dice st = Ok (v, dice', st1) ->
  type dice' = NodeType.Dice ->
  truthy (getAttribute "value" dice') = true ->
  getAttribute "sides" dice' = VInt s ->
  children dice' = integerRolls zs ->
  exists new g,
    Forall (fun r => 1 <= r <= s) new /\
    length new = showing s (zs ++ new) /\
    let total := VInt (foldr Z.add 0 zs + foldr Z.add 0 new) in
    eval (S (S (S fuel))) (Node NodeType.Explode [dice] attrs) st =
    Ok (total,
        Node NodeType.Explode
          [putChildren (integerRolls zs ++ integerRolls new) dice']
          (<["value" := total]> attrs),
        EState g (errors st1)).
Proof.
  intros Hf Hpen Hrandom Hleaves Hb Hev Hdice Htotal Hsides Hzs.
  destruct (explodeRolls_chain (eval (S (S fuel))) s b (S (S fuel)) zs
              (evaluate_memoizing _ _ _ _ _) Hrandom Hleaves ltac:(lia) 0 [] st1)
    as (new & g & Hrange & Hlen & Hrolls).
  exists new, g. split; [done|]. split; [done|].
  intros total.
  change (eval (S (S (S fuel)))) with (evaluateNode pow_frac Number_toString random fns
                                     (eval (S (S fuel))) (S (S fuel))).
  unfold evaluateNode. rewrite decide_False by done.
  unfold getAttribute at 1. cbn [attributes]. unfold falsyValue in Hf. rewrite Hf.
  cbn [type]. unfold bind at 1. unfold evaluateExplode, bind at 1.
  cbn [expectChildCount getChildCount children length Nat.ltb Nat.leb ret].
  unfold bind at 1.
  erewrite findLeftmostDiceNode_child; [|done|done|exact Hev|done].
  unfold putChild. cbn [children type attributes].
  change (<[0%nat:=dice']> [dice]) with [dice'].
  assert (Hp : strict_eq (getAttribute "penetrate" (Node NodeType.Explode [dice'] attrs))
                 (VStr "yes") = false)
    by (unfold getAttribute; cbn [attributes]; exact Hpen).
  rewrite Hp.
  unfold bind at 1. unfold evaluateCondition.
  cbn [getChildCount children length Nat.ltb Nat.leb ret].
  unfold bind at 1. cbn [atDice getChild children lookup list_lookup].
  unfold bind at 1 2. rewrite evaluate_memo by (done || by rewrite Hdice).
  rewrite Hsides, Hzs. unfold bind at 1. rewrite Hrolls.
  unfold ret, putChild, putCondition. cbn [children type attributes app].
  rewrite getAttribute_setAttribute. rewrite !Z.add_0_l. reflexivity.
Qed.

(** One die of Reroll without condition and without [once]. *)
Lemma rerollWhile_settles (ev : Evaluator R) (s : Z) b :
  memoizing ev -> meetsContract random 1 s ->
  forall fuel (z : Z) st,
  (z = 1 -> settles random 1 s 1 b (rng st) = true) ->
  (b < fuel)%nat ->
  exists z' g,
    rerolledFrom s z z' /\
    rerollWhile random ev fuel None (VInt s) false (VInt z) st =
    Ok (VInt z', None, EState g (errors st)).
Proof.
  intros Hev Hrandom.
  induction b as [|b IH]; intros fuel z st Hb Hfuel;
    (destruct fuel as [|fuel]; [lia|]);
    cbn [rerollWhile]; unfold bind at 1; cbn [testCondition ret orb];
    rewrite strict_eq_VInt; destruct (Z.eqb_spec z 1) as [->|Hne].
  - by specialize (Hb eq_refl).
  - exists z, (rng st). split; [by repeat split|]. unfold ret. by destruct st.
  - specialize (Hb eq_refl). cbn [settles] in Hb.
    unfold bind at 1. rewrite createDiceRollValue_sides.
    destruct (Hrandom (rng st)) as (r & Hr & Hrange).
    destruct (random _ _ (rng st)) as [x g1]. cbn [fst] in Hr. subst x.
    change (VNum (Js.ofZ r)) with (VInt r) in *.
    rewrite strict_eq_VInt in Hb.
    destruct (IH fuel r (EState g1 (errors st))) as (z' & g & Hz' & Hwhile).
    { intros ->. rewrite Z.eqb_refl in Hb. exact Hb. }
    { lia. }
    exists z', g. split; [|exact Hwhile].
    destruct Hz' as (Hne & Hsame & Hin). split; [done|]. split; [done|].
    intros _. destruct (decide (r = 1)) as [->|Hr1]; [by apply Hin|].
    by rewrite (Hsame Hr1).
  - exists z, (rng st). split; [by repeat split|]. unfold ret. by destruct st.
Qed.

Lemma rerollRolls_settles (ev : Evaluator R) (s : Z) b fuel zs :
  memoizing ev -> meetsContract random 1 s -> leaves random 1 s 1 b ->
  (b < fuel)%nat ->
  forall (total : Z) st,
  exists final g,
    Forall2 (rerolledFrom s) zs final /\
    rerollRolls Number_toString random ev fuel None (VInt s) false
      (integerRolls zs) (VInt total) st =
    Ok (VInt (total + foldr Z.add 0 final), None, integerRolls final,
        EState g (errors st)).
Proof.
  intros Hev Hrandom Hleaves Hfuel.
  induction zs as [|z zs IH]; intros total st.
  { exists [], (rng st). split; [constructor|].
    cbn [rerollRolls integerRolls fmap list_fmap foldr]. unfold ret.
    destruct st. by rewrite Z.add_0_r. }
  destruct (rerollWhile_settles ev s b Hev Hrandom fuel z st
              (fun _ => Hleaves (rng st)) Hfuel) as (z' & g1 & Hz' & Hwhile).
  destruct (IH (total + z') (EState g1 (errors st)))
    as (final & g & Hfinal & Hrest).
  cbn [rng errors] in Hrest.
  exists (z' :: final), g. split; [by constructor|].
  cbn [integerRolls fmap list_fmap rerollRolls].
  unfold rollNode at 1. rewrite getAttribute_setAttribute.
  change (strict_eq (VStr "no") (VStr "yes")) with false. cbn iota.
  unfold bind at 1. fold (rollNode (Js.ofZ z)).
  rewrite (proj1 Hev) by done. rewrite evaluateDiceRoll_rollNode.
  change (VNum (Js.ofZ z)) with (VInt z).
  unfold bind at 1. rewrite Hwhile.
  rewrite setAttribute_value_rollNode, js_plus_VInt.
  unfold bind. fold (integerRolls zs). rewrite Hrest. unfold ret.
  cbn [foldr integerRolls fmap list_fmap].
  by replace (total + z' + foldr Z.add 0 final)
    with (total + (z' + foldr Z.add 0 final)) by lia.
Qed.

(** X25.  Reroll without [once] and without a condition, on dice that were
    rolled, with a provider that keeps to the sides and never returns 1
    [b] times in a row: the loop ends; no roll shows 1 in the end; a roll
    that did not show 1 stays as it is; the number of rolls does not
    change, and the total is the sum of what the rolls show in the end. *)
Theorem reroll_until_not_one fuel b dice dice' attrs v (s : Z) zs st st1 :
  falsyValue attrs = true ->
  strict_eq (default VUndef (attrs !! "once")) (VStr "yes") = false ->
  meetsContract random 1 s ->
  leaves random 1 s 1 b ->
  (b <= fuel)%nat ->
  eval (S (S fuel)) dice st = Ok (v, dice', st1) ->
  type dice' = NodeType.Dice ->
  truthy (getAttribute "value" dice') = true ->
  getAttribute "sides" dice' = VInt s ->
  children dice' = integerRolls zs ->
  exists final g,
    Forall2 (rerolledFrom s) zs final /\
    let total := VInt (foldr Z.add 0 final) in
    eval (S (S (S fuel))) (Node NodeType.Reroll [dice] attrs) st =
    Ok (total,
        Node NodeType.Reroll [putChildren (integerRolls final) dice']
          (<["value" := total]> attrs),
        EState g (errors st1)).
Proof.
  intros Hf Honce Hrandom Hleaves Hb Hev Hdice Htotal Hsides Hzs.
  destruct (rerollRolls_settles (eval (S (S fuel))) s b (S (S fuel)) zs
              (evaluate_memoizing _ _ _ _ _) Hrandom Hleaves ltac:(lia) 0 st1)
    as (final & g & Hfinal & Hrolls).
  exists final, g. split; [done|].
  intros total.
  change (eval (S (S (S fuel)))) with (evaluateNode pow_frac Number_toString random fns
                                     (eval (S (S fuel))) (S (S fuel))).
  unfold evaluateNode. rewrite decide_False by done.
  unfold getAttribute at 1. cbn [attributes]. unfold falsyValue in Hf. rewrite Hf.
  cbn [type]. unfold bind at 1. unfold evaluateReroll, bind at 1.
  cbn [expectChildCount getChildCount children length Nat.ltb Nat.leb ret].
  unfold bind at 1.
  erewrite findLeftmostDiceNode_child; [|done|done|exact Hev|done].
  unfold putChild. cbn [children type attributes].
  change (<[0%nat:=dice']> [dice]) with [dice'].
  assert (Hp : strict_eq (getAttribute "once" (Node NodeType.Reroll [dice'] attrs))
                 (VStr "yes") = false)
    by (unfold getAttribute; cbn [attributes]; exact Honce).
  rewrite Hp.
  unfold bind at 1. unfold evaluateCondition.
  cbn [getChildCount children length Nat.ltb Nat.leb ret].
  unfold bind at 1. cbn [atDice getChild children lookup list_lookup].
  unfold bind at 1 2. rewrite evaluate_memo by (done || by rewrite Hdice).
  rewrite Hsides, Hzs. unfold bind at 1. rewrite Hrolls.
  unfold ret, putChild, putCondition. cbn [children type attributes app].
  rewrite getAttribute_setAttribute. rewrite !Z.add_0_l. reflexivity.
Qed.

End LoopFacts.

(** ** The array of errors is never appended to *)

Create HintDb keeps.

Lemma keepsErrors_ret {R A} (a : A) : keepsErrors (R := R) (ret a).
Proof. by intros st a' st' [= _ <-]. Qed.

Lemma keepsErrors_throw {R A} message : keepsErrors (R := R) (A := A) (throw message).
Proof. done. Qed.

Lemma keepsErrors_diverge {R A} : keepsErrors (R := R) (A := A) diverge.
Proof. done. Qed.

Lemma keepsErrors_bind {R A B} (c : ST (estate R) A) (k : A -> ST (estate R) B) :
  keepsErrors c -> (forall a, keepsErrors (k a)) -> keepsErrors (bind c k).
Proof.
  intros Hc Hk st b st' H. unfold bind in H.
  destruct (c st) as [[a st1]| |] eqn:E; try discriminate.
  rewrite (Hk a _ _ _ H). exact (Hc _ _ _ E).
Qed.

#[export] Hint Resolve keepsErrors_ret keepsErrors_throw keepsErrors_diverge : keeps.

Ltac keeps_step :=
  match goal with
  | |- keepsErrors (ret _) => apply keepsErrors_ret
  | |- keepsErrors (throw _) => apply keepsErrors_throw
  | |- keepsErrors diverge => apply keepsErrors_diverge
  | |- keepsErrors (bind _ _) => apply keepsErrors_bind; [|intros ?]
  | |- keepsErrors (let '(_, _) := ?x in _) => destruct x
  | |- keepsErrors (if ?b then _ else _) => destruct b
  | |- keepsErrors (match ?x with _ => _ end) => destruct x
  end.

Ltac keeps := repeat keeps_step; eauto with keeps.

Section ErrorsFacts.
Context {R : Type} (pow_frac : Q -> Q -> Js.number)
  (Number_toString : Js.number -> string)
  (random : RandomProvider R) (fns : FunctionDefinitionList R).

Local Abbreviation eval := (evaluate pow_frac Number_toString random fns).

Lemma keepsErrors_numberBetween min max : keepsErrors (numberBetween random min max).
Proof.
  intros st a st'. unfold numberBetween. destruct (random _ _ _).
  by intros [= _ <-].
Qed.
Hint Resolve keepsErrors_numberBetween : keeps.

Lemma keepsErrors_expectChildCount e n : keepsErrors (R := R) (expectChildCount e n).
Proof. unfold expectChildCount. keeps. Qed.
Hint Resolve keepsErrors_expectChildCount : keeps.

Section Evaluator.
Variable ev : Evaluator R.
Hypothesis ev_keeps : forall c, keepsErrors (ev c).
Hint Resolve ev_keeps : keeps.

Lemma keepsErrors_evaluateChild i e : keepsErrors (evaluateChild ev i e).
Proof. unfold evaluateChild. keeps. Qed.
Hint Resolve keepsErrors_evaluateChild : keeps.

Lemma keepsErrors_evaluateBinary op e : keepsErrors (evaluateBinary ev op e).
Proof. unfold evaluateBinary. keeps. Qed.

Lemma keepsErrors_evaluateChildrenFrom idx total e :
  keepsErrors (evaluateChildrenFrom Number_toString ev idx total e).
Proof.
  revert total e. induction idx as [|x idx IH]; intros total e;
    cbn [evaluateChildrenFrom]; keeps.
Qed.

Lemma keepsErrors_evaluateOperands idx e : keepsErrors (evaluateOperands ev idx e).
Proof.
  revert e. induction idx as [|x idx IH]; intros e; cbn [evaluateOperands]; keeps.
Qed.

Lemma keepsErrors_createDiceRollValue sides :
  keepsErrors (createDiceRollValue random ev sides).
Proof. unfold createDiceRollValue. keeps. Qed.
Hint Resolve keepsErrors_createDiceRollValue : keeps.

Lemma keepsErrors_createDiceRoll sides : keepsErrors (createDiceRoll random ev sides).
Proof. unfold createDiceRoll. keeps. Qed.
Hint Resolve keepsErrors_createDiceRoll : keeps.

Lemma keepsErrors_rollDice turns sides total e :
  keepsErrors (rollDice Number_toString random ev turns sides total e).
Proof.
  revert sides total e. induction turns as [|turns IH]; intros sides total e;
    cbn [rollDice]; keeps.
Qed.
Hint Resolve keepsErrors_rollDice : keeps.

Lemma keepsErrors_evaluateDice e : keepsErrors (evaluateDice Number_toString random ev e).
Proof. unfold evaluateDice. keeps. Qed.

Hint Resolve keepsErrors_evaluateBinary keepsErrors_evaluateChildrenFrom
  keepsErrors_evaluateOperands keepsErrors_evaluateDice : keeps.

Hypothesis functions_quiet : forall name f, fns !! name = Some f -> quietFunction f.

Lemma keepsErrors_evaluateFunction e :
  keepsErrors (evaluateFunction Number_toString fns ev e).
Proof.
  unfold evaluateFunction.
  destruct (getAttribute "name" e) as [x|name|]; [keeps| |keeps].
  destruct (fns !! name) as [f|] eqn:Hf; [|keeps].
  by apply (functions_quiet name f Hf).
Qed.

Lemma keepsErrors_evaluateGroup e : keepsErrors (evaluateGroup Number_toString ev e).
Proof. unfold evaluateGroup. keeps. Qed.

Lemma keepsErrors_evaluateComparison lhs e : keepsErrors (evaluateComparison ev lhs e).
Proof. unfold evaluateComparison. keeps. Qed.
Hint Resolve keepsErrors_evaluateFunction keepsErrors_evaluateGroup
  keepsErrors_evaluateComparison : keeps.

Lemma keepsErrors_findLeftmostDiceNode fuel e :
  keepsErrors (findLeftmostDiceNode ev fuel e).
Proof.
  revert e. induction fuel as [|fuel IH]; intros e; cbn [findLeftmostDiceNode]; keeps.
Qed.

Lemma keepsErrors_atDice {A} depth (f : ExpressionNode -> M R (A * ExpressionNode)) e :
  (forall dice, keepsErrors (f dice)) -> keepsErrors (atDice A depth f e).
Proof.
  intros Hf. revert e. induction depth as [|depth IH]; intros e; cbn [atDice]; keeps.
Qed.

Lemma keepsErrors_evaluateRolls rolls total :
  keepsErrors (evaluateRolls Number_toString ev rolls total).
Proof.
  revert total. induction rolls as [|die rolls IH]; intros total;
    cbn [evaluateRolls]; keeps.
Qed.
Hint Resolve keepsErrors_findLeftmostDiceNode keepsErrors_evaluateRolls : keeps.

Lemma keepsErrors_getSortedDiceRolls dice direction :
  keepsErrors (getSortedDiceRolls Number_toString ev dice direction).
Proof. unfold getSortedDiceRolls. keeps. Qed.

Lemma keepsErrors_evaluateCountTotal e : keepsErrors (evaluateCountTotal ev e).
Proof. unfold evaluateCountTotal. keeps. Qed.
Hint Resolve keepsErrors_getSortedDiceRolls keepsErrors_evaluateCountTotal : keeps.

Lemma keepsErrors_evaluateKeep fuel e :
  keepsErrors (evaluateKeep Number_toString ev fuel e).
Proof. unfold evaluateKeep. keeps. apply keepsErrors_atDice. intros dice. keeps. Qed.

Lemma keepsErrors_evaluateDrop fuel e :
  keepsErrors (evaluateDrop Number_toString ev fuel e).
Proof. unfold evaluateDrop. keeps. apply keepsErrors_atDice. intros dice. keeps. Qed.

Lemma keepsErrors_evaluateSort fuel e :
  keepsErrors (evaluateSort Number_toString ev fuel e).
Proof. unfold evaluateSort. keeps. apply keepsErrors_atDice. intros dice. keeps. Qed.

Lemma keepsErrors_evaluateCondition e : keepsErrors (evaluateCondition ev e).
Proof. unfold evaluateCondition. keeps. Qed.

Lemma keepsErrors_testCondition condition dieValue :
  keepsErrors (testCondition ev condition dieValue).
Proof. unfold testCondition. keeps. Qed.
Hint Resolve keepsErrors_evaluateCondition keepsErrors_testCondition : keeps.

Lemma keepsErrors_explodeWhile fuel condition sides penetrate dieValue total newRolls :
  keepsErrors (explodeWhile Number_toString random ev fuel condition sides penetrate
                 dieValue total newRolls).
Proof.
  revert condition dieValue total newRolls.
  induction fuel as [|fuel IH]; intros condition dieValue total newRolls;
    cbn [explodeWhile]; keeps.
Qed.
Hint Resolve keepsErrors_explodeWhile : keeps.

Lemma keepsErrors_explodeRolls fuel condition sides penetrate rolls total newRolls :
  keepsErrors (explodeRolls Number_toString random ev fuel condition sides penetrate
                 rolls total newRolls).
Proof.
  revert condition total newRolls.
  induction rolls as [|die rolls IH]; intros condition total newRolls;
    cbn [explodeRolls]; keeps.
Qed.
Hint Resolve keepsErrors_explodeRolls : keeps.

Lemma keepsErrors_evaluateExplode fuel e :
  keepsErrors (evaluateExplode Number_toString random ev fuel e).
Proof. unfold evaluateExplode. keeps. apply keepsErrors_atDice. intros dice. keeps. Qed.

Lemma keepsErrors_rerollWhile fuel condition sides once dieValue :
  keepsErrors (rerollWhile random ev fuel condition sides once dieValue).
Proof.
  revert condition dieValue.
  induction fuel as [|fuel IH]; intros condition dieValue; cbn [rerollWhile]; keeps.
Qed.
Hint Resolve keepsErrors_rerollWhile : keeps.

Lemma keepsErrors_rerollRolls fuel condition sides once rolls total :
  keepsErrors (rerollRolls Number_toString random ev fuel condition sides once rolls total).
Proof.
  revert condition total.
  induction rolls as [|die rolls IH]; intros condition total; cbn [rerollRolls]; keeps.
Qed.
Hint Resolve keepsErrors_rerollRolls : keeps.

Lemma keepsErrors_evaluateReroll fuel e :
  keepsErrors (evaluateReroll Number_toString random ev fuel e).
Proof. unfold evaluateReroll. keeps. apply keepsErrors_atDice. intros dice. keeps. Qed.

Lemma keepsErrors_criticalRolls condition ty rolls total :
  keepsErrors (criticalRolls Number_toString ev condition ty rolls total).
Proof.
  revert condition total.
  induction rolls as [|die rolls IH]; intros condition total; cbn [criticalRolls]; keeps.
Qed.
Hint Resolve keepsErrors_criticalRolls : keeps.

Lemma keepsErrors_criticalCondition depth ty e :
  keepsErrors (criticalCondition ev depth ty e).
Proof.
  unfold criticalCondition. keeps. apply keepsErrors_atDice. intros dice. keeps.
Qed.
Hint Resolve keepsErrors_criticalCondition : keeps.

Lemma keepsErrors_evaluateCritical fuel e :
  keepsErrors (evaluateCritical Number_toString ev fuel e).
Proof. unfold evaluateCritical. keeps. apply keepsErrors_atDice. intros dice. keeps. Qed.

Hint Resolve keepsErrors_evaluateKeep keepsErrors_evaluateDrop keepsErrors_evaluateSort
  keepsErrors_evaluateExplode keepsErrors_evaluateReroll keepsErrors_evaluateCritical
  : keeps.

Lemma keepsErrors_evaluateNode fuel e :
  keepsErrors (evaluateNode pow_frac Number_toString random fns ev fuel e).
Proof. unfold evaluateNode. keeps. Qed.

End Evaluator.

Lemma keepsErrors_evaluate fuel :
  (forall name f, fns !! name = Some f -> quietFunction f) ->
  forall e, keepsErrors (eval fuel e).
Proof.
  intros Hfns. induction fuel as [|fuel IH]; intros e; [done|].
  cbn [evaluate]. by apply keepsErrors_evaluateNode.
Qed.

End ErrorsFacts.

Lemma customFloor_quiet {R} : quietFunction (@customFloor R).
Proof.
  intros ev e Hev. unfold customFloor, evaluateChild.
  destruct (getChild 0 e); [|apply keepsErrors_throw].
  apply keepsErrors_bind; [apply keepsErrors_bind; [apply Hev|]|];
    intros [v c]; apply keepsErrors_ret.
Qed.

(** X12.  [interpret] never reports an error in the result: nothing in the
    interpreter appends to [errors], every failure is thrown.  The functions
    of the table are supposed to append nothing either. *)
Theorem interpret_reports_no_error {R} (pow_frac : Q -> Q -> Js.number)
    (Number_toString : Js.number -> string) fuel (this : DiceInterpreter R)
    expression w r w' :
  (forall name f, tableAt (functions this) w !! name = Some f -> quietFunction f) ->
  interpret pow_frac Number_toString fuel this expression w = Ok (r, w') ->
  resultErrors r = [].
Proof.
  intros Hfns H.
  apply interpret_inv in H as (t & v & t' & st' & _ & Hev & -> & _).
  cbn [resultErrors].
  exact (keepsErrors_evaluate pow_frac Number_toString (random this)
           (tableAt (functions this) w) fuel Hfns t _ _ _ Hev).
Qed.

(** ** The earlier version of the interpreter *)

Lemma agreeWith_bind {R A B A' B'} (P : A -> B -> Prop) (Q : A' -> B' -> Prop)
    (old : ST R A) (new : ST (estate R) B) (k : A -> ST R A')
    (k' : B -> ST (estate R) B') g st :
  agreeWith P (old g) (new st) ->
  (forall a b g' st', P a b -> g' = rng st' -> agreeWith Q (k a g') (k' b st')) ->
  agreeWith Q (bind old k g) (bind new k' st).
Proof.
  unfold agreeWith at 1, bind. intros H Hk.
  destruct (old g) as [[a g']| |], (new st) as [[b st']| |]; try done.
  destruct H as [HP Hg]. by apply Hk.
Qed.

Section VersionFacts.
Context {R : Type} (pow_frac : Q -> Q -> Js.number)
  (Number_toString : Js.number -> string)
  (random : RandomProvider R)
  (functions : gmap string (@Legacy.FunctionDefinition R))
  (fns : FunctionDefinitionList R).

Local Abbreviation eval := (evaluate pow_frac Number_toString random fns).
Local Abbreviation old := (Legacy.evaluate pow_frac Number_toString random functions).

Lemma legacy_evaluate_memo fuel e g :
  truthy (getAttribute "value" e) = true ->
  old (S fuel) e g = Ok (getAttribute "value" e, e, g).
Proof.
  intros H. cbn [Legacy.evaluate]. unfold Legacy.evaluateNode. by rewrite H.
Qed.

Lemma legacy_rollOnce fuel sides total e g :
  truthy (getAttribute "value" sides) = true ->
  Legacy.rollOnce Number_toString random (old (S fuel)) (Some sides)
    (VNum total) e g =
  (let '(min, max) := rollRange (getAttribute "value" sides) in
   let '(r, g') := random min max g in
   Ok (Some sides, VNum (Js.add total r),
       addChild (setAttribute "sides" (getAttribute "value" sides)
                   (setAttribute "value" (VNum r)
                      (Factory.create NodeType.DiceRoll))) e, g')).
Proof.
  intros Hv. unfold Legacy.rollOnce, rollRange.
  destruct (strict_eq _ _).
  - unfold bind, Legacy.numberBetween, ret. by destruct (random _ _ g).
  - unfold bind at 1 2. rewrite legacy_evaluate_memo by done.
    unfold bind, Legacy.numberBetween, ret. by destruct (random _ _ g).
Qed.

(** The rolls of the earlier version: the same numbers, asked in the same
    order. *)
Lemma legacy_rollDice_spec fuel sides turns total e g :
  truthy (getAttribute "value" sides) = true ->
  exists e',
    Legacy.rollDice Number_toString random (old (S fuel)) turns (Some sides)
      (VNum total) e g =
    (let '(min, max) := rollRange (getAttribute "value" sides) in
     let '(rs, g') := draws random min max turns g in
     Ok (VNum (sumFrom total rs), e', g')).
Proof.
  intros Hv. revert total e g.
  induction turns as [|turns IH]; intros total e g.
  - exists e. cbn [Legacy.rollDice draws]. by destruct (rollRange _).
  - cbn [Legacy.rollDice draws]. unfold bind at 1.
    rewrite legacy_rollOnce by done.
    destruct (rollRange _) as [min max] eqn:Hrange.
    destruct (random min max g) as [r g1].
    edestruct IH as [e' He']. exists e'. rewrite He'.
    by destruct (draws _ _ _ _ g1).
Qed.

Lemma legacy_rollForever fuel loops sides total e g :
  truthy (getAttribute "value" sides) = true ->
  Legacy.rollForever Number_toString random (old (S fuel)) loops (Some sides)
    (VNum total) e g = Diverge.
Proof.
  intros Hv. revert total e g.
  induction loops as [|loops IH]; intros total e g; [done|].
  cbn [Legacy.rollForever]. unfold bind at 1.
  rewrite legacy_rollOnce by done.
  destruct (rollRange _) as [min max]. destruct (random min max g) as [r g1].
  apply IH.
Qed.

Lemma expectChildCount_enough {A} e n (k : unit -> ST (estate R) A) st :
  (n <= getChildCount e)%nat -> bind (expectChildCount e n) k st = k tt st.
Proof.
  intros H. unfold bind, expectChildCount.
  by rewrite (proj2 (Nat.ltb_ge _ _)) by done.
Qed.

Section Children.
Variable ev_o : @Legacy.Evaluator R.
Variable ev_n : Evaluator R.
Hypothesis ev_agree : forall c st,
  plain c = true -> agree (ev_o c (rng st)) (ev_n c st).

Lemma agree_evaluateChild x e_o e_n c st :
  getChild x e_o = Some c -> getChild x e_n = Some c -> plain c = true ->
  agreeWith
    (fun a b => fst a = fst b /\
       forall j, j <> x -> getChild j (snd a) = getChild j e_o /\
                           getChild j (snd b) = getChild j e_n)
    (Legacy.evaluateChild ev_o x e_o (rng st)) (evaluateChild ev_n x e_n st).
Proof.
  intros Ho Hn Hc. unfold Legacy.evaluateChild, evaluateChild. rewrite Ho, Hn.
  eapply agreeWith_bind; [exact (ev_agree c st Hc)|].
  intros [v c1] [v' c2] g' st' Hv ->. cbn [fst] in Hv. subst v'.
  unfold ret. cbn [agreeWith fst snd]. split; [|done].
  split; [done|]. intros j Hj.
  by rewrite !getChild_putChild_ne.
Qed.

Lemma agree_evaluateChildrenFrom idx : forall total e_o e_n st,
  NoDup idx ->
  (forall j, j ∈ idx -> exists c, getChild j e_o = Some c /\
                                  getChild j e_n = Some c /\ plain c = true) ->
  agree (Legacy.evaluateChildrenFrom Number_toString ev_o idx total e_o (rng st))
        (evaluateChildrenFrom Number_toString ev_n idx total e_n st).
Proof.
  induction idx as [|x idx IH]; intros total e_o e_n st Hdup Hidx.
  - by cbn.
  - cbn [Legacy.evaluateChildrenFrom evaluateChildrenFrom].
    destruct (Hidx x ltac:(set_solver)) as (c & Ho & Hn & Hc).
    apply NoDup_cons in Hdup as [Hx Hdup].
    eapply agreeWith_bind; [exact (agree_evaluateChild x e_o e_n c st Ho Hn Hc)|].
    intros [v c1] [v' c2] g' st' [Hv Hrest] ->. cbn [fst snd] in *. subst v'.
    apply IH; [done|]. intros j Hj.
    assert (j ∈ x :: idx) as Hj' by (by apply elem_of_cons; right).
    destruct (Hidx j Hj') as (cj & Hoj & Hnj & Hcj).
    assert (j <> x) as Hne by (intros ->; done).
    destruct (Hrest j Hne) as [Ho' Hn']. rewrite Ho', Hn'. eauto.
Qed.

Lemma agree_evaluateBinary op a b ty attrs ty' attrs' st :
  plain a = true -> plain b = true ->
  agree (Legacy.evaluateBinary ev_o op (Node ty [a; b] attrs) (rng st))
        (evaluateBinary ev_n op (Node ty' [a; b] attrs') st).
Proof.
  intros Ha Hb. unfold Legacy.evaluateBinary, evaluateBinary.
  rewrite expectChildCount_enough by (cbn; lia).
  eapply agreeWith_bind;
    [exact (agree_evaluateChild 0 (Node ty [a; b] attrs) (Node ty' [a; b] attrs')
              a st eq_refl eq_refl Ha)|].
  intros [v c1] [v' c2] g' st' [Hv Hrest] ->. cbn [fst snd] in *. subst v'.
  destruct (Hrest 1%nat ltac:(done)) as [Ho Hn].
  eapply agreeWith_bind;
    [exact (agree_evaluateChild 1 _ _ b st' Ho Hn Hb)|].
  intros [w d1] [w' d2] g'' st'' [Hw _] ->. cbn [fst snd] in *. subst w'.
  by cbn.
Qed.

End Children.

Lemma agree_evaluateDice k c s attrs st :
  (forall t st, plain t = true -> agree (old k t (rng st)) (eval k t st)) ->
  plain c = true -> type s = NodeType.DiceSides ->
  truthy (getAttribute "value" s) = true ->
  agree (Legacy.evaluateDice Number_toString random (old k) k
           (Node NodeType.Dice [c; s] attrs) (rng st))
        (evaluateDice Number_toString random (eval k)
           (Node NodeType.Dice [c; s] attrs) st).
Proof.
  intros IH Hc Hty Hv. specialize (IH c st Hc).
  destruct k as [|k].
  { by cbn. }
  destruct (old (S k) c (rng st)) as [[[v c_o] g1]| |] eqn:Hold,
           (eval (S k) c st) as [[[v' c_n] st1]| |] eqn:Hnew; try done.
  - destruct IH as [Hvv ->]. cbn [fst] in Hvv. subst v'.
    unfold Legacy.evaluateDice, Legacy.evaluateChild, getChild.
    cbn [children lookup list_lookup]. unfold bind at 1 2. rewrite Hold.
    unfold ret at 1. cbn [putChild children].
    change (<[0%nat:=c_o]> [c; s] !! 1%nat) with (Some s).
    destruct (loopCount (Math_round v)) as [turns|] eqn:Hturns.
    + erewrite evaluateDice_spec;
        [|apply evaluate_memoizing|exact Hnew|exact Hty|exact Hv|exact Hturns].
      edestruct (legacy_rollDice_spec k s turns (Js.ofZ 0)) as [e' He'];
        [exact Hv|]. unfold VInt. rewrite He'.
      destruct (rollRange _) as [min max].
      by destruct (draws random min max turns (rng st1)) as [rs g].
    + unfold VInt. rewrite legacy_rollForever by done.
      unfold evaluateDice, bind, expectChildCount, evaluateChild, getChild.
      cbn [children getChildCount length Nat.ltb Nat.leb lookup list_lookup ret].
      unfold bind. rewrite Hnew. unfold ret at 1. cbn [putChild children].
      change (<[0%nat:=c_n]> [c; s] !! 1%nat) with (Some s). cbn beta iota zeta.
      rewrite (proj2 (evaluate_memoizing _ _ _ _ k)) by (done || by rewrite Hty).
      by rewrite Hturns.
  - unfold Legacy.evaluateDice, Legacy.evaluateChild, getChild.
    cbn [children lookup list_lookup]. unfold bind at 1 2. rewrite Hold.
    unfold evaluateDice, bind, expectChildCount, evaluateChild, getChild.
    cbn [children getChildCount length Nat.ltb Nat.leb lookup list_lookup ret].
    unfold bind. by rewrite Hnew.
  - unfold Legacy.evaluateDice, Legacy.evaluateChild, getChild.
    cbn [children lookup list_lookup]. unfold bind at 1 2. rewrite Hold.
    unfold evaluateDice, bind, expectChildCount, evaluateChild, getChild.
    cbn [children getChildCount length Nat.ltb Nat.leb lookup list_lookup ret].
    unfold bind. by rewrite Hnew.
Qed.

Lemma forallb_plain_children cs j c :
  forallb plain cs = true -> cs !! j = Some c -> plain c = true.
Proof.
  intros H Hj. eapply forallb_children; [exact H|].
  by eapply list_elem_of_lookup_2.
Qed.

Local Ltac record_value :=
  intros [? ?] [? ?] ? ? Heq ->; cbn [fst] in Heq; subst;
  unfold ret; cbn [agreeWith fst];
  by rewrite !getAttribute_setAttribute.

(** X13.  The earlier version of the interpreter and the present one, on trees
    of literals, arithmetic, groups and dice: they return the same value
    and leave the random provider in the same state, or both throw, or
    both do not end; the bound on the recursion is the same on both
    sides. *)
Theorem versions_agree fuel : forall t st,
  plain t = true ->
  agree (old fuel t (rng st)) (eval fuel t st).
Proof.
  induction fuel as [|k IH]; [done|].
  intros [ty cs attrs] st Hplain.
  change (old (S k)) with
    (Legacy.evaluateNode pow_frac Number_toString random functions (old k) k).
  change (eval (S k)) with
    (evaluateNode pow_frac Number_toString random fns (eval k) k).
  unfold Legacy.evaluateNode, evaluateNode.
  change (getAttribute "value" (Node ty cs attrs))
    with (default VUndef (attrs !! "value")).
  destruct ty; cbn [plain] in Hplain; try discriminate;
    (rewrite decide_False by done); cbn [type];
    try (apply andb_prop in Hplain as [Hfalsy Hplain];
         unfold falsyValue in Hfalsy; rewrite Hfalsy).
  - (* Integer *)
    destruct (truthy _); cbn [negb]; [by cbn|].
    eapply (agreeWith_bind (fun x y => fst x = fst y)); [by cbn|record_value].
  - (* DiceSides *)
    destruct (truthy _); cbn [negb]; [by cbn|].
    eapply (agreeWith_bind (fun x y => fst x = fst y)); [by cbn|record_value].
  - (* Dice *)
    destruct cs as [|c [|s [|? ?]]]; try discriminate.
    apply andb_prop in Hplain as [Hplain Hv].
    apply andb_prop in Hplain as [Hc Hty]. apply bool_decide_eq_true in Hty.
    eapply (agreeWith_bind (fun x y => fst x = fst y)); [by apply agree_evaluateDice|record_value].
  - (* Add *)
    destruct cs as [|a [|b [|? ?]]]; try discriminate.
    apply andb_prop in Hplain as [Ha Hb].
    eapply (agreeWith_bind (fun x y => fst x = fst y)); [by apply agree_evaluateBinary|record_value].
  - destruct cs as [|a [|b [|? ?]]]; try discriminate.
    apply andb_prop in Hplain as [Ha Hb].
    eapply (agreeWith_bind (fun x y => fst x = fst y)); [by apply agree_evaluateBinary|record_value].
  - destruct cs as [|a [|b [|? ?]]]; try discriminate.
    apply andb_prop in Hplain as [Ha Hb].
    eapply (agreeWith_bind (fun x y => fst x = fst y)); [by apply agree_evaluateBinary|record_value].
  - destruct cs as [|a [|b [|? ?]]]; try discriminate.
    apply andb_prop in Hplain as [Ha Hb].
    eapply (agreeWith_bind (fun x y => fst x = fst y)); [by apply agree_evaluateBinary|record_value].
  - destruct cs as [|a [|b [|? ?]]]; try discriminate.
    apply andb_prop in Hplain as [Ha Hb].
    eapply (agreeWith_bind (fun x y => fst x = fst y)); [by apply agree_evaluateBinary|record_value].
  - destruct cs as [|a [|b [|? ?]]]; try discriminate.
    apply andb_prop in Hplain as [Ha Hb].
    eapply (agreeWith_bind (fun x y => fst x = fst y)); [by apply agree_evaluateBinary|record_value].
  - (* Negate *)
    destruct cs as [|a [|? ?]]; try discriminate.
    eapply (agreeWith_bind (fun x y => fst x = fst y)); [|record_value].
    rewrite expectChildCount_enough by (cbn; lia).
    eapply agreeWith_bind;
      [exact (agree_evaluateChild (old k) (eval k) IH 0
                (Node NodeType.Negate [a] attrs) (Node NodeType.Negate [a] attrs)
                a st eq_refl eq_refl Hplain)|].
    intros [v c1] [v' c2] g' st' [Hv _] ->. cbn [fst] in Hv. subst v'. by cbn.
  - (* Group *)
    eapply (agreeWith_bind (fun x y => fst x = fst y)); [|record_value].
    unfold Legacy.evaluateGroup, evaluateGroup.
    apply agree_evaluateChildrenFrom; [exact IH|apply NoDup_seq|].
    intros j Hj. apply elem_of_seq in Hj.
    assert (j < length cs)%nat as Hlt by (cbn in Hj; lia).
    destruct (lookup_lt_is_Some_2 cs j Hlt) as [c Hc].
    exists c. unfold getChild. cbn [children].
    split; [done|]. split; [done|]. by eapply forallb_plain_children.
Qed.

End VersionFacts.

(** ** The parser ends *)

Module ParserEnds.
Import Lexer Parser.

Lemma within_weaken {A} d d' (p : P A) ts :
  (d' <= d)%nat -> within d p ts -> within d' p ts.
Proof. unfold within. destruct (p ts) as [[a ts']| |]; [lia|done|done]. Qed.

Lemma within_ret {A} (a : A) ts : within 0 (ret a) ts.
Proof. unfold within, ret. lia. Qed.

Lemma within_throw {A} d message ts : within (A := A) d (throw message) ts.
Proof. done. Qed.

Lemma within_bind {A B} d1 d2 {d} (p : P A) (k : A -> P B) ts :
  within d1 p ts ->
  (forall a ts', p ts = Ok (a, ts') -> (length ts' + d1 <= length ts)%nat ->
                 within d2 (k a) ts') ->
  (d <= d1 + d2)%nat ->
  within d (bind p k) ts.
Proof.
  unfold within at 1 3, bind. intros Hp Hk Hd.
  destruct (p ts) as [[a ts']| |] eqn:E; [|done|done].
  specialize (Hk a ts' eq_refl Hp). unfold within in Hk.
  destruct (k a ts') as [[b ts'']| |]; [lia|done|done].
Qed.

Lemma within_peek {A} d (k : Token -> P A) ts :
  within d (k (default endOfInput (head ts))) ts ->
  within d (bind peekNextToken k) ts.
Proof. done. Qed.

Lemma within_getNextToken ts : within 0 getNextToken ts.
Proof. unfold within, getNextToken. destruct ts; cbn; lia. Qed.

Lemma within_getNextToken_1 ts : ts <> [] -> within 1 getNextToken ts.
Proof. unfold within, getNextToken. destruct ts; [done|]. cbn. lia. Qed.

Lemma head_type ts ty :
  tokenType (default endOfInput (head ts)) = ty -> ty <> TokenType.EndOfInput ->
  ts <> [].
Proof. by destruct ts. Qed.

Lemma within_expectAndConsume expected ts :
  expected <> TokenType.EndOfInput -> within 1 (expectAndConsume expected) ts.
Proof.
  intros Hne. unfold expectAndConsume. apply within_peek.
  destruct (decide _) as [Hty|]; [|done].
  apply within_getNextToken_1. by eapply head_type.
Qed.

Lemma within_parseInteger ts : ts <> [] -> within 1 parseInteger ts.
Proof.
  intros Hts. unfold parseInteger.
  apply (within_bind 1 0); [by apply within_getNextToken_1| |lia].
  intros. apply within_ret.
Qed.

Section Grammar.
Variable parseExpression : P ExpressionNode.
Variable f : nat.
Hypothesis parseExpression_within :
  forall ts, (length ts < f)%nat -> within 1 parseExpression ts.

Lemma within_parseBracketedExpression ts :
  (length ts <= f)%nat -> ts <> [] ->
  within 1 (parseBracketedExpression parseExpression) ts.
Proof.
  intros Hlen Hts. unfold parseBracketedExpression.
  apply (within_bind 1 0); [by apply within_getNextToken_1| |lia].
  intros _ ts1 _ H1. apply (within_bind 0 0); [| |lia].
  { eapply within_weaken; [|apply parseExpression_within]; lia. }
  intros root ts2 _ H2. apply (within_bind 0 0); [| |lia].
  { eapply within_weaken; [|by apply within_expectAndConsume]. lia. }
  intros. apply within_ret.
Qed.

Lemma within_parseMore loops : forall root ts,
  (length ts < loops)%nat -> (length ts <= f)%nat ->
  within 0 (parseMore parseExpression loops root) ts.
Proof.
  induction loops as [|loops IH]; intros root ts Hloops Hlen; [lia|].
  cbn [parseMore]. apply within_peek.
  destruct (decide _) as [Hty|]; [|apply within_ret].
  apply (within_bind 1 0); [| |lia].
  { apply within_getNextToken_1. by eapply head_type. }
  intros _ ts1 _ H1. apply (within_bind 1 0); [| |lia].
  { apply parseExpression_within. lia. }
  intros child ts2 _ H2. apply IH; lia.
Qed.

Lemma within_parseList close root ts :
  close <> TokenType.EndOfInput -> (length ts < f)%nat ->
  within 1 (parseList parseExpression f close root) ts.
Proof.
  intros Hclose Hlen. unfold parseList. apply within_peek.
  apply (within_bind 0 1); [| |lia].
  - destruct (decide _); [apply within_ret|].
    apply (within_bind 0 0); [| |lia].
    { eapply within_weaken; [|by apply parseExpression_within]. lia. }
    intros child ts1 _ H1. apply within_parseMore; lia.
  - intros root' ts1 _ H1. apply (within_bind 1 0); [| |lia].
    { by apply within_expectAndConsume. }
    intros. apply within_ret.
Qed.

Lemma within_parseFunctionCall ts :
  (length ts <= f)%nat -> within 1 (parseFunctionCall parseExpression f) ts.
Proof.
  intros Hlen. unfold parseFunctionCall.
  apply (within_bind 1 0); [by apply within_expectAndConsume| |lia].
  intros functionName ts1 _ H1. apply (within_bind 0 0); [| |lia].
  { eapply within_weaken; [|by apply within_expectAndConsume]. lia. }
  intros _ ts2 _ H2. eapply within_weaken; [|apply within_parseList]; [lia|done|lia].
Qed.

Lemma within_parseExpressionGroup ts :
  (length ts <= f)%nat -> ts <> [] ->
  within 1 (parseExpressionGroup parseExpression f) ts.
Proof.
  intros Hlen Hts. unfold parseExpressionGroup.
  apply (within_bind 1 0); [by apply within_getNextToken_1| |lia].
  intros _ ts1 _ H1. eapply within_weaken; [|apply within_parseList]; [lia|done|lia].
Qed.

Lemma within_parseSimpleDiceRoll rollTimes ts :
  within 1 (parseSimpleDiceRoll parseExpression (Some rollTimes)) ts.
Proof.
  unfold parseSimpleDiceRoll. apply (within_bind 0 1); [apply within_ret| |lia].
  intros n ts1 _ _. apply (within_bind 1 0); [by apply within_expectAndConsume| |lia].
  intros token ts2 _ _.
  destruct (String.eqb _ "d").
  { apply (within_bind 0 0); [| |lia].
    { eapply within_weaken; [|by apply within_expectAndConsume]. lia. }
    intros. apply within_ret. }
  destruct (String.eqb _ "dF"); apply within_ret.
Qed.

Lemma within_parseFactor ts :
  (length ts <= f)%nat -> within 1 (parseFactor parseExpression f) ts.
Proof.
  intros Hlen. unfold parseFactor. apply within_peek.
  destruct (tokenType _) eqn:Hty; try apply within_throw.
  - (* Integer *)
    apply (within_bind 1 0); [| |lia].
    { apply within_parseInteger. by eapply head_type. }
    intros number ts1 _ _. apply within_peek.
    destruct (decide _); [apply within_ret|].
    eapply within_weaken; [|apply within_parseSimpleDiceRoll]. lia.
  - (* Identifier *) by apply within_parseFunctionCall.
  - (* ParenthesisOpen *)
    apply (within_bind 1 0); [| |lia].
    { apply within_parseBracketedExpression; [done|by eapply head_type]. }
    intros root ts1 _ _. apply within_peek.
    destruct (decide _); [|apply within_ret].
    eapply within_weaken; [|apply within_parseSimpleDiceRoll]. lia.
  - (* BraceOpen *)
    apply within_parseExpressionGroup; [done|by eapply head_type].
Qed.

Lemma within_parseTermLoop loops : forall root ts,
  (length ts < loops)%nat -> (length ts <= f)%nat ->
  within 0 (parseTermLoop parseExpression f loops root) ts.
Proof.
  induction loops as [|loops IH]; intros root ts Hloops Hlen; [lia|].
  cbn [parseTermLoop]. apply within_peek.
  destruct (MultiOperatorMap _); [|apply within_ret].
  apply (within_bind 0 0); [apply within_getNextToken| |lia].
  intros _ ts1 _ H1. apply (within_bind 1 0); [| |lia].
  { apply within_parseFactor. lia. }
  intros factor ts2 _ H2. apply IH; lia.
Qed.

Lemma within_parseTerm ts :
  (length ts <= f)%nat -> within 1 (parseTerm parseExpression f) ts.
Proof.
  intros Hlen. unfold parseTerm.
  apply (within_bind 1 0); [by apply within_parseFactor| |lia].
  intros root ts1 _ H1. apply within_parseTermLoop; lia.
Qed.

Lemma within_parseSimpleLoop loops : forall root ts,
  (length ts < loops)%nat -> (length ts <= f)%nat ->
  within 0 (parseSimpleLoop parseExpression f loops root) ts.
Proof.
  induction loops as [|loops IH]; intros root ts Hloops Hlen; [lia|].
  cbn [parseSimpleLoop]. apply within_peek.
  destruct (AddOperatorMap _); [|apply within_ret].
  apply (within_bind 0 0); [apply within_getNextToken| |lia].
  intros _ ts1 _ H1. apply (within_bind 1 0); [| |lia].
  { apply within_parseTerm. lia. }
  intros term ts2 _ H2. apply IH; lia.
Qed.

Lemma within_parseSimpleExpression ts :
  (length ts <= f)%nat -> within 1 (parseSimpleExpression parseExpression f) ts.
Proof.
  intros Hlen. unfold parseSimpleExpression. apply within_peek.
  apply (within_bind 0 1); [| |lia].
  { destruct (AddOperatorMap _); [apply within_getNextToken|apply within_ret]. }
  intros _ ts1 _ H1. apply (within_bind 1 0); [| |lia].
  { apply within_parseTerm. lia. }
  intros root ts2 _ H2. apply within_parseSimpleLoop; lia.
Qed.

Lemma within_parseExpressionBody ts :
  (length ts <= f)%nat -> within 1 (parseExpressionBody parseExpression f) ts.
Proof.
  intros Hlen. unfold parseExpressionBody.
  apply (within_bind 1 0); [by apply within_parseSimpleExpression| |lia].
  intros root ts1 _ H1. apply within_peek.
  destruct (BooleanOperatorMap _); [|apply within_ret].
  apply (within_bind 0 0); [apply within_getNextToken| |lia].
  intros _ ts2 _ H2. apply (within_bind 0 0); [| |lia].
  { eapply within_weaken; [|apply within_parseSimpleExpression]; lia. }
  intros. apply within_ret.
Qed.

End Grammar.

Lemma within_parseExpression fuel : forall ts,
  (length ts < fuel)%nat -> within 1 (parseExpression fuel) ts.
Proof.
  induction fuel as [|fuel IH]; intros ts Hlen; [lia|].
  cbn [parseExpression]. apply within_parseExpressionBody; [done|lia].
Qed.

End ParserEnds.

(** X14.  The parser ends on every list of tokens: it returns a tree or reports
    an error.  The recursion of [parseExpression] is never deeper, and no
    loop longer, than there are tokens. *)
Theorem parse_terminates (input : list Token) : Parser.parse input <> Diverge.
Proof.
  unfold Parser.parse.
  pose proof (ParserEnds.within_parseExpression (S (length input)) input ltac:(lia)) as H.
  unfold within in H.
  by destruct (Parser.parseExpression (S (length input)) input) as [[root rest]| |].
Qed.

(** ** The parser on sums of products *)

Module ParserSums.
Import Lexer Parser.

Lemma peek_cons {A} (k : Token -> P A) t ts :
  bind peekNextToken k (t :: ts) = k t (t :: ts).
Proof. reflexivity. Qed.

Lemma get_cons {A} (k : Token -> P A) t ts :
  bind getNextToken k (t :: ts) = k t ts.
Proof. reflexivity. Qed.

Section Grammar.
Variable parseExpression : P ExpressionNode.
Variable fuel : nat.

Lemma parseFactor_literal n ts :
  tokenType n = TokenType.Integer -> nextType ts <> TokenType.Identifier ->
  parseFactor parseExpression fuel (n :: ts) = Ok (literal n, ts).
Proof.
  intros Hn Hts. unfold parseFactor. rewrite peek_cons, Hn.
  unfold parseInteger. unfold bind at 1. rewrite get_cons.
  unfold ret, bind, peekNextToken. fold (nextType ts). by rewrite decide_True.
Qed.

Lemma nextType_product_rest (rest : list (Token * Token)) ts :
  Forall (fun x => is_Some (MultiOperatorMap (tokenType (fst x))) /\
                   tokenType (snd x) = TokenType.Integer) rest ->
  nextType ts <> TokenType.Identifier ->
  nextType (flat_map (fun x => [fst x; snd x]) rest ++ ts) <> TokenType.Identifier.
Proof.
  intros Hrest Hts. destruct Hrest as [|[op n] rest [[ty Hop] _] _]; [done|].
  cbn. unfold nextType. cbn. cbn in Hop. intros Heq. by rewrite Heq in Hop.
Qed.

Lemma parseTermLoop_product (rest : list (Token * Token)) : forall loops root ts,
  Forall (fun x => is_Some (MultiOperatorMap (tokenType (fst x))) /\
                   tokenType (snd x) = TokenType.Integer) rest ->
  (length rest < loops)%nat ->
  nextType ts <> TokenType.Identifier ->
  MultiOperatorMap (nextType ts) = None ->
  parseTermLoop parseExpression fuel loops root
    (flat_map (fun x => [fst x; snd x]) rest ++ ts) =
  Ok (foldl (fun root x => operatorNode MultiOperatorMap (fst x) root (literal (snd x)))
        root rest, ts).
Proof.
  induction rest as [|[op n] rest IH]; intros loops root ts Hrest Hloops Hid Hop.
  - destruct loops; [cbn in Hloops; lia|]. cbn [flat_map app parseTermLoop foldl].
    unfold bind, peekNextToken. fold (nextType ts). by rewrite Hop.
  - destruct loops; [cbn in Hloops; lia|]. cbn [length] in Hloops.
    apply Forall_cons in Hrest as [[[ty Hty] Hn] Hrest]. cbn [fst snd] in Hty, Hn.
    cbn [flat_map app parseTermLoop foldl fst snd].
    rewrite peek_cons, Hty, get_cons. unfold bind at 1.
    rewrite parseFactor_literal by (done || by apply nextType_product_rest).
    rewrite IH by (done || lia). unfold operatorNode, binaryNode. by rewrite Hty.
Qed.

Lemma parseTerm_product (p : writtenProduct) ts :
  wellFormedProduct p -> (length (snd p) < fuel)%nat ->
  nextType ts <> TokenType.Identifier ->
  MultiOperatorMap (nextType ts) = None ->
  parseTerm parseExpression fuel (productTokens p ++ ts) = Ok (productTree p, ts).
Proof.
  intros [Hfirst Hrest] Hfuel Hid Hop. unfold parseTerm, productTokens, bind.
  cbn [app]. rewrite parseFactor_literal by (done || by apply nextType_product_rest).
  by apply parseTermLoop_product.
Qed.

Lemma nextType_sum_rest (rest : list (Token * writtenProduct)) ts :
  Forall (fun x => is_Some (AddOperatorMap (tokenType (fst x))) /\
                   wellFormedProduct (snd x)) rest ->
  nextType ts <> TokenType.Identifier ->
  MultiOperatorMap (nextType ts) = None ->
  nextType (flat_map (fun x => fst x :: productTokens (snd x)) rest ++ ts)
    <> TokenType.Identifier /\
  MultiOperatorMap
    (nextType (flat_map (fun x => fst x :: productTokens (snd x)) rest ++ ts)) = None.
Proof.
  intros Hrest Hid Hop. destruct Hrest as [|[op p] rest [[ty Hty] _] _]; [done|].
  cbn [flat_map app fst]. unfold nextType. cbn [head from_option id].
  cbn [fst] in Hty. by destruct (tokenType op).
Qed.

Lemma parseSimpleLoop_sum (rest : list (Token * writtenProduct)) : forall loops root ts,
  Forall (fun x => is_Some (AddOperatorMap (tokenType (fst x))) /\
                   wellFormedProduct (snd x)) rest ->
  Forall (fun x => (length (snd (snd x)) < fuel)%nat) rest ->
  (length rest < loops)%nat ->
  nextType ts <> TokenType.Identifier ->
  MultiOperatorMap (nextType ts) = None ->
  AddOperatorMap (nextType ts) = None ->
  parseSimpleLoop parseExpression fuel loops root
    (flat_map (fun x => fst x :: productTokens (snd x)) rest ++ ts) =
  Ok (foldl (fun root x =>
               operatorNode AddOperatorMap (fst x) root (productTree (snd x)))
        root rest, ts).
Proof.
  induction rest as [|[op p] rest IH];
    intros loops root ts Hrest Hfuel Hloops Hid Hmul Hadd.
  - destruct loops; [cbn in Hloops; lia|]. cbn [flat_map app parseSimpleLoop foldl].
    unfold bind, peekNextToken. fold (nextType ts). by rewrite Hadd.
  - destruct loops; [cbn in Hloops; lia|]. cbn [length] in Hloops.
    apply Forall_cons in Hrest as [[[ty Hty] Hp] Hrest].
    apply Forall_cons in Hfuel as [Hpfuel Hfuel]. cbn [fst snd] in Hty, Hp, Hpfuel.
    cbn [flat_map parseSimpleLoop foldl fst snd].
    rewrite <- app_assoc, <- app_comm_cons.
    rewrite peek_cons, Hty, get_cons. unfold bind at 1.
    destruct (nextType_sum_rest rest ts Hrest Hid Hmul) as [Hid' Hmul'].
    rewrite parseTerm_product by done.
    rewrite IH by (done || lia). unfold operatorNode, binaryNode. by rewrite Hty.
Qed.

Lemma parseSimpleExpression_sum (s : writtenSum) ts :
  wellFormedSum s ->
  (length (snd (snd (fst s))) < fuel)%nat ->
  Forall (fun x => (length (snd (snd x)) < fuel)%nat) (snd s) ->
  (length (snd s) < fuel)%nat ->
  nextType ts <> TokenType.Identifier ->
  MultiOperatorMap (nextType ts) = None ->
  AddOperatorMap (nextType ts) = None ->
  parseSimpleExpression parseExpression fuel (sumTokens s ++ ts) = Ok (sumTree s, ts).
Proof.
  destruct s as [[sign p] rest]. cbn [fst snd].
  intros (Hsign & Hp & Hrest) Hpfuel Hfuel Hloops Hid Hmul Hadd.
  cbn [fst snd] in Hsign, Hp, Hrest.
  destruct (nextType_sum_rest rest ts Hrest Hid Hmul) as [Hid' Hmul'].
  pose proof (parseTerm_product p
                (flat_map (fun x => fst x :: productTokens (snd x)) rest ++ ts)
                Hp Hpfuel Hid' Hmul') as Hterm.
  unfold parseSimpleExpression, sumTokens, sumTree. cbn [fst snd].
  destruct sign as [sign|].
  - destruct (Hsign sign eq_refl) as [ty Hty].
    cbn [app]. rewrite peek_cons. cbn zeta. rewrite Hty. rewrite get_cons.
    rewrite <- app_assoc. unfold bind at 1. rewrite Hterm.
    by rewrite parseSimpleLoop_sum.
  - cbn [app]. rewrite <- app_assoc.
    destruct p as [first pairs]. destruct Hp as [Hfirst Hp]. cbn [fst snd] in *.
    unfold productTokens at 1 in Hterm. unfold productTokens at 1.
    cbn [fst snd app] in *.
    rewrite peek_cons. cbn zeta. rewrite Hfirst. cbn [AddOperatorMap].
    unfold bind at 1, ret. unfold bind at 1. rewrite Hterm.
    rewrite decide_False by done.
    by rewrite parseSimpleLoop_sum.
Qed.

End Grammar.

Lemma productTokens_length (p : writtenProduct) :
  length (productTokens p) = S (2 * length (snd p)).
Proof.
  unfold productTokens. cbn [length]. f_equal.
  induction (snd p) as [|x rest IH]; [done|]. cbn [flat_map app length]. lia.
Qed.

Lemma sum_rest_fuel (rest : list (Token * writtenProduct)) n :
  (length (flat_map (fun x => fst x :: productTokens (snd x)) rest) <= n)%nat ->
  Forall (fun x => (length (snd (snd x)) < n)%nat) rest /\ (length rest <= n)%nat.
Proof.
  revert n. induction rest as [|x rest IH]; intros n Hn; [split; [done|cbn; lia]|].
  cbn [flat_map] in Hn. rewrite length_app in Hn. cbn [length] in Hn.
  rewrite productTokens_length in Hn.
  destruct (IH (n - 2)%nat ltac:(lia)) as [Hall Hlen]. split.
  - constructor; [cbn beta; lia|]. eapply Forall_impl; [exact Hall|]. cbn. intros; lia.
  - cbn [length]. lia.
Qed.

Lemma sum_fuel (s : writtenSum) n :
  (length (sumTokens s) <= n)%nat ->
  (length (snd (snd (fst s))) < n)%nat /\
  Forall (fun x => (length (snd (snd x)) < n)%nat) (snd s) /\
  (length (snd s) < n)%nat.
Proof.
  destruct s as [[sign p] rest]. unfold sumTokens. cbn [fst snd].
  rewrite !length_app, productTokens_length. intros Hn.
  destruct (sum_rest_fuel rest (n - 1)%nat ltac:(lia)) as [Hall Hlen].
  split; [lia|]. split; [|lia].
  eapply Forall_impl; [exact Hall|]. cbn. intros; lia.
Qed.

Lemma nextType_sum (s : writtenSum) ts :
  wellFormedSum s -> BooleanOperatorMap (nextType (sumTokens s ++ ts)) = None.
Proof.
  destruct s as [[sign [first pairs]] rest]. intros (Hsign & [Hfirst _] & _).
  unfold sumTokens, productTokens. cbn [fst snd] in *.
  destruct sign as [sign|]; cbn [app]; unfold nextType; cbn [head from_option id].
  - destruct (Hsign sign eq_refl) as [ty Hty]. by destruct (tokenType sign).
  - by rewrite Hfirst.
Qed.

End ParserSums.

(** X15.  A sum of products of integers is parsed as it is written: what stands
    between two operators of a sum is one operand, the operators of a sum
    and those of a product group from the left, and a leading minus negates
    the first product as a whole. *)
Theorem parse_sum_of_products (s : writtenSum) :
  wellFormedSum s -> Parser.parse (sumTokens s) = Ok (sumTree s).
Proof.
  intros Hs. unfold Parser.parse. cbn [Parser.parseExpression].
  unfold Parser.parseExpressionBody.
  destruct (ParserSums.sum_fuel s (length (sumTokens s)) ltac:(lia))
    as (Hp & Hall & Hrest).
  pose proof (ParserSums.parseSimpleExpression_sum
                (Parser.parseExpression (length (sumTokens s)))
                (length (sumTokens s)) s [] Hs Hp Hall Hrest
                ltac:(done) eq_refl eq_refl) as H.
  rewrite app_nil_r in H. unfold bind at 1. by rewrite H.
Qed.

(** X16.  A comparison of two sums: the operator of [BooleanOperatorMap] is
    looked for once, after the first sum. *)
Theorem parse_comparison_of_sums (s1 s2 : writtenSum) (op : Token) (ty : NodeType.t) :
  wellFormedSum s1 -> wellFormedSum s2 ->
  Parser.BooleanOperatorMap (tokenType op) = Some ty ->
  Parser.parse (sumTokens s1 ++ op :: sumTokens s2) =
  Ok (binaryNode ty (sumTree s1) (sumTree s2)).
Proof.
  intros Hs1 Hs2 Hop. unfold Parser.parse. cbn [Parser.parseExpression].
  unfold Parser.parseExpressionBody.
  set (n := length (sumTokens s1 ++ op :: sumTokens s2)).
  assert (Hn : n = (length (sumTokens s1) + S (length (sumTokens s2)))%nat)
    by (unfold n; by rewrite length_app).
  destruct (ParserSums.sum_fuel s1 n ltac:(lia)) as (Hp1 & Hall1 & Hrest1).
  destruct (ParserSums.sum_fuel s2 n ltac:(lia)) as (Hp2 & Hall2 & Hrest2).
  assert (Hnext : nextType (op :: sumTokens s2) = tokenType op) by done.
  pose proof (ParserSums.parseSimpleExpression_sum (Parser.parseExpression n) n s1
                (op :: sumTokens s2) Hs1 Hp1 Hall1 Hrest1) as H1.
  rewrite Hnext in H1.
  pose proof (ParserSums.parseSimpleExpression_sum (Parser.parseExpression n) n s2
                [] Hs2 Hp2 Hall2 Hrest2 ltac:(done) eq_refl eq_refl) as H2.
  rewrite app_nil_r in H2.
  unfold bind at 1. rewrite H1 by (by destruct (tokenType op)).
  rewrite ParserSums.peek_cons, Hop, ParserSums.get_cons.
  unfold bind. rewrite H2. reflexivity.
Qed.


(** X17.  [parse] returns after the first expression and does not look at what
    follows: a token that cannot continue the expression, and all the
    tokens after it, are dropped without an error. *)
Theorem parse_ignores_rest (s : writtenSum) (ts : list Token) :
  wellFormedSum s -> endsExpression (nextType ts) ->
  Parser.parse (sumTokens s ++ ts) = Ok (sumTree s).
Proof.
  intros Hs (Hid & Hmul & Hadd & Hbool). unfold Parser.parse.
  cbn [Parser.parseExpression]. unfold Parser.parseExpressionBody.
  set (n := length (sumTokens s ++ ts)).
  assert (Hn : (length (sumTokens s) <= n)%nat)
    by (unfold n; rewrite length_app; lia).
  destruct (ParserSums.sum_fuel s n Hn) as (Hp & Hall & Hrest).
  unfold bind at 1.
  rewrite (ParserSums.parseSimpleExpression_sum (Parser.parseExpression n) n s ts)
    by done.
  unfold bind, Lexer.peekNextToken. fold (nextType ts). by rewrite Hbool.
Qed.

(** ** The parser on dice rolls, brackets and lists *)

Module ParserLists.
Import Lexer Parser.

Lemma expect_cons {A} (k : Token -> P A) ty t ts :
  tokenType t = ty -> bind (expectAndConsume ty) k (t :: ts) = k t ts.
Proof.
  intros H. unfold expectAndConsume, bind at 1.
  rewrite ParserSums.peek_cons. by rewrite decide_True.
Qed.

Lemma peek_next {A} (k : Token -> P A) ts :
  bind peekNextToken k ts = k (default endOfInput (head ts)) ts.
Proof. reflexivity. Qed.

Lemma endsExpression_noOperator ty : endsExpression ty -> noOperator ty.
Proof. by intros (_ & ? & ? & ?). Qed.

(** What follows a term that is not signed, when no operator of a sum or
    of a comparison comes next. *)
Lemma parseExpressionBody_term pe fuel t input root ts :
  Parser.AddOperatorMap (tokenType t) = None ->
  parseTerm pe (S fuel) (t :: input) = Ok (root, ts) ->
  Parser.AddOperatorMap (nextType ts) = None ->
  Parser.BooleanOperatorMap (nextType ts) = None ->
  parseExpressionBody pe (S fuel) (t :: input) = Ok (root, ts).
Proof.
  intros Hsign Hterm Hadd Hbool.
  assert (parseSimpleExpression pe (S fuel) (t :: input) = Ok (root, ts)) as H.
  { unfold parseSimpleExpression. rewrite ParserSums.peek_cons. cbn zeta.
    rewrite Hsign. unfold bind at 1, ret at 1.
    unfold bind at 1. rewrite Hterm.
    rewrite decide_False by (intros Heq; by rewrite Heq in Hsign).
    cbn [parseSimpleLoop]. rewrite peek_next. fold (nextType ts). by rewrite Hadd. }
  unfold parseExpressionBody. unfold bind at 1. rewrite H.
  rewrite peek_next. fold (nextType ts). by rewrite Hbool.
Qed.

Lemma parseExpressionBody_factor pe fuel t input root ts :
  Parser.AddOperatorMap (tokenType t) = None ->
  parseFactor pe (S fuel) (t :: input) = Ok (root, ts) ->
  noOperator (nextType ts) ->
  parseExpressionBody pe (S fuel) (t :: input) = Ok (root, ts).
Proof.
  intros Hsign Hfactor (Hmul & Hadd & Hbool).
  apply parseExpressionBody_term; [done| |done..].
  unfold parseTerm. unfold bind at 1. rewrite Hfactor.
  cbn [parseTermLoop]. rewrite peek_next. fold (nextType ts). by rewrite Hmul.
Qed.

Lemma parseExpression_sum k (s : writtenSum) ts :
  wellFormedSum s -> (length (sumTokens s) <= k)%nat ->
  endsExpression (nextType ts) ->
  parseExpression (S k) (sumTokens s ++ ts) = Ok (sumTree s, ts).
Proof.
  intros Hs Hk (Hid & Hmul & Hadd & Hbool).
  cbn [parseExpression]. unfold parseExpressionBody.
  destruct (ParserSums.sum_fuel s k Hk) as (Hp & Hall & Hrest).
  unfold bind at 1.
  rewrite (ParserSums.parseSimpleExpression_sum (parseExpression k) k s ts) by done.
  rewrite peek_next. fold (nextType ts). by rewrite Hbool.
Qed.

Lemma nextType_sum_first (s : writtenSum) ts :
  wellFormedSum s ->
  nextType (sumTokens s ++ ts) = TokenType.Integer \/
  is_Some (AddOperatorMap (nextType (sumTokens s ++ ts))).
Proof.
  destruct s as [[sign [first pairs]] rest]. intros (Hsign & [Hfirst _] & _).
  unfold sumTokens, productTokens. cbn [fst snd] in *.
  destruct sign as [sign|]; cbn [app]; unfold nextType; cbn [head from_option id].
  - right. by apply Hsign.
  - by left.
Qed.

Lemma nextType_more (more : list (Token * writtenSum)) close ts :
  Forall (fun x => tokenType (fst x) = TokenType.Comma /\
                   wellFormedSum (snd x)) more ->
  endsExpression (tokenType close) ->
  endsExpression
    (nextType (flat_map (fun x => fst x :: sumTokens (snd x)) more ++ close :: ts)).
Proof.
  intros Hmore Hclose. destruct Hmore as [|[comma s] more [Hcomma _] _]; [done|].
  cbn [flat_map app fst]. unfold nextType. cbn [head from_option id].
  cbn [fst] in Hcomma. rewrite Hcomma. by repeat split.
Qed.

Lemma parseMore_sums k (more : list (Token * writtenSum)) :
  forall loops root close ts,
  Forall (fun x => tokenType (fst x) = TokenType.Comma /\
                   wellFormedSum (snd x)) more ->
  Forall (fun x => (length (sumTokens (snd x)) <= k)%nat) more ->
  (length more < loops)%nat ->
  endsExpression (tokenType close) ->
  tokenType close <> TokenType.Comma ->
  parseMore (parseExpression (S k)) loops root
    (flat_map (fun x => fst x :: sumTokens (snd x)) more ++ close :: ts) =
  Ok (foldl (fun root x => addChild (sumTree (snd x)) root) root more, close :: ts).
Proof.
  induction more as [|[comma s] more IH];
    intros loops root close ts Hmore Hk Hloops Hclose Hcomma.
  - destruct loops; [cbn in Hloops; lia|]. cbn [flat_map app parseMore foldl].
    rewrite ParserSums.peek_cons. by rewrite decide_False.
  - destruct loops; [cbn in Hloops; lia|]. cbn [length] in Hloops.
    apply Forall_cons in Hmore as [[Hc Hs] Hmore].
    apply Forall_cons in Hk as [Hsk Hk]. cbn [fst snd] in Hc, Hs, Hsk.
    cbn [flat_map parseMore foldl fst snd].
    rewrite <- app_assoc, <- app_comm_cons.
    rewrite ParserSums.peek_cons. rewrite decide_True by done.
    rewrite ParserSums.get_cons. unfold bind at 1.
    rewrite parseExpression_sum by (done || by apply nextType_more).
    apply IH; (done || lia).
Qed.

Lemma foldl_addChild (f : Token * writtenSum -> ExpressionNode) more : forall root,
  foldl (fun root x => addChild (f x) root) root more =
  Node (type root) (children root ++ (f <$> more)) (attributes root).
Proof.
  induction more as [|x more IH]; intros root.
  - destruct root; cbn. by rewrite app_nil_r.
  - cbn [foldl fmap list_fmap]. rewrite IH. cbn [addChild type children attributes].
    by rewrite <- app_assoc.
Qed.

Lemma list_fuel (l : writtenList) k :
  (length (listTokens l) <= k)%nat ->
  match l with
  | None => True
  | Some (s, more) =>
      (length (sumTokens s) <= k)%nat /\
      Forall (fun x => (length (sumTokens (snd x)) <= k)%nat) more /\
      (length more <= k)%nat
  end.
Proof.
  destruct l as [[s more]|]; [|done]. cbn [listTokens]. rewrite length_app.
  intros Hk. split; [lia|].
  assert (length (flat_map (fun x => fst x :: sumTokens (snd x)) more) <= k)%nat
    as Hmore by lia.
  clear Hk. revert k Hmore. induction more as [|x more IH]; intros k Hk.
  - split; [done|cbn; lia].
  - cbn [flat_map] in Hk. rewrite length_app in Hk. cbn [length] in Hk.
    destruct (IH (k - 1)%nat ltac:(lia)) as [Hall Hlen]. split.
    + constructor; [lia|]. eapply Forall_impl; [exact Hall|]. cbn. intros; lia.
    + cbn [length]. lia.
Qed.

(** The list of a function call or of a group. *)
Lemma parseList_sums k (l : writtenList) root close ts :
  wellFormedList l ->
  (length (listTokens l) <= k)%nat ->
  tokenType close = TokenType.ParenthesisClose \/
  tokenType close = TokenType.BraceClose ->
  parseList (parseExpression (S k)) (S k) (tokenType close) root
    (listTokens l ++ close :: ts) =
  Ok (Node (type root) (children root ++ listTrees l) (attributes root), ts).
Proof.
  intros Hl Hk Hclose.
  assert (endsExpression (tokenType close)) as Hends
    by (destruct Hclose as [-> | ->]; by repeat split).
  assert (tokenType close <> TokenType.Comma) as Hcomma
    by (destruct Hclose as [-> | ->]; done).
  pose proof (list_fuel l k Hk) as Hfuel.
  unfold parseList. destruct l as [[s more]|].
  - destruct Hl as [Hs Hmore]. destruct Hfuel as (Hsk & Hall & Hlen).
    cbn [listTokens listTrees]. rewrite <- app_assoc.
    rewrite peek_next. fold (nextType (sumTokens s ++
      flat_map (fun x => fst x :: sumTokens (snd x)) more ++ close :: ts)).
    rewrite decide_False.
    2:{ destruct (nextType_sum_first s
                    (flat_map (fun x => fst x :: sumTokens (snd x)) more
                       ++ close :: ts) Hs) as [Heq|[ty Hty]].
        - rewrite Heq. destruct Hclose as [-> | ->]; done.
        - intros Heq. rewrite Heq in Hty. destruct Hclose as [Hc | Hc];
            rewrite Hc in Hty; discriminate. }
    unfold bind at 1 2.
    rewrite parseExpression_sum by (done || by apply nextType_more).
    rewrite parseMore_sums by (done || lia).
    rewrite expect_cons by done. unfold ret.
    rewrite foldl_addChild. cbn [addChild type children attributes].
    by rewrite <- app_assoc.
  - cbn [listTokens listTrees app]. rewrite ParserSums.peek_cons.
    rewrite decide_True by done. unfold bind at 1, ret at 1.
    rewrite expect_cons by done. unfold ret. destruct root; cbn.
    by rewrite app_nil_r.
Qed.

Lemma parseFactor_bracket k fuel (open : Token) (s : writtenSum) (close : Token) ts :
  tokenType open = TokenType.ParenthesisOpen ->
  wellFormedSum s -> (length (sumTokens s) <= k)%nat ->
  tokenType close = TokenType.ParenthesisClose ->
  nextType ts <> TokenType.Identifier ->
  parseFactor (parseExpression (S k)) fuel (open :: sumTokens s ++ close :: ts) =
  Ok (sumTree s, ts).
Proof.
  intros Hopen Hs Hk Hclose Hts.
  unfold parseFactor. rewrite ParserSums.peek_cons, Hopen.
  unfold parseBracketedExpression. unfold bind at 1.
  rewrite ParserSums.get_cons.
  unfold bind at 1. rewrite parseExpression_sum;
    [|done|done|change (nextType (close :: ts)) with (tokenType close);
      rewrite Hclose; by repeat split].
  rewrite expect_cons by done. unfold ret at 1.
  rewrite peek_next. fold (nextType ts).
  by rewrite decide_False.
Qed.

Lemma parseFactor_roll pe fuel (n id : Token) (s : option Token) ts :
  wellFormedRoll n id s ->
  parseFactor pe fuel (rollTokens n id s ++ ts) = Ok (rollTree n id s, ts).
Proof.
  intros (Hn & Hid & Hs). unfold rollTokens. cbn [app].
  unfold parseFactor. rewrite ParserSums.peek_cons, Hn.
  unfold parseInteger. unfold bind at 1. rewrite ParserSums.get_cons.
  unfold ret at 1. rewrite ParserSums.peek_cons.
  rewrite decide_False by (by rewrite Hid; intros H; apply H).
  unfold parseDiceRoll, parseSimpleDiceRoll.
  unfold bind at 1, ret at 1. rewrite expect_cons by done.
  unfold rollTree. destruct s as [s|].
  - destruct Hs as [Hd Hs]. rewrite Hd. cbn [String.eqb Ascii.eqb Bool.eqb].
    cbn [app]. by rewrite expect_cons.
  - apply String.eqb_neq in Hs. rewrite Hs. cbn [app].
    by destruct (String.eqb (tokenValue id) "dF").
Qed.

End ParserLists.

(** X19.  A dice roll that is written as an integer and an identifier: after
    [d] the next integer is the sides, [dF] stands for fate dice, and any
    other identifier is accepted too and leaves a Dice node that has the
    count as its only child. *)
Theorem parse_dice_roll (n id : Token) (s : option Token) (ts : list Token) :
  wellFormedRoll n id s -> noOperator (nextType ts) ->
  Parser.parse (rollTokens n id s ++ ts) = Ok (rollTree n id s).
Proof.
  intros Hroll Hts. pose proof Hroll as (Hn & _).
  unfold Parser.parse, rollTokens. cbn [app length].
  change (Parser.parseExpression (S (S ?k))) with
    (Parser.parseExpressionBody (Parser.parseExpression (S k)) (S k)).
  erewrite ParserLists.parseExpressionBody_factor;
    [reflexivity|by rewrite Hn| |exact Hts].
  by apply (ParserLists.parseFactor_roll _ _ n id s ts).
Qed.

(** X20.  An integer followed by an identifier other than [d] and [dF] is
    parsed without an error, and the tree cannot be evaluated: the Dice
    node has one child, and [evaluate] asks for two. *)
Theorem roll_without_sides_throws {R} (pow_frac : Q -> Q -> Js.number)
    (Number_toString : Js.number -> string) (random : RandomProvider R)
    (fns : FunctionDefinitionList R) (n id : Token) (ts : list Token)
    (fuel : nat) (st : estate R) :
  tokenType n = TokenType.Integer -> tokenType id = TokenType.Identifier ->
  tokenValue id <> "d" -> tokenValue id <> "dF" ->
  noOperator (nextType ts) ->
  exists t,
    Parser.parse (n :: id :: ts) = Ok t /\
    evaluate pow_frac Number_toString random fns (S fuel) t st =
    Throw "Expected Dice node to have 2 children, but found 1.".
Proof.
  intros Hn Hid Hd HdF Hts. exists (rollTree n id None). split.
  - unfold Parser.parse. cbn [length].
    change (Parser.parseExpression (S (S ?k))) with
      (Parser.parseExpressionBody (Parser.parseExpression (S k)) (S k)).
    erewrite ParserLists.parseExpressionBody_factor;
      [reflexivity|by rewrite Hn| |exact Hts].
    by apply (ParserLists.parseFactor_roll _ _ n id None ts).
  - unfold rollTree. apply String.eqb_neq in HdF. rewrite HdF. reflexivity.
Qed.

(** X21.  A function call: the name is recorded in the attribute [name],
    and the arguments, sums that commas separate, become the children in
    the order in which they are written; the list may be empty. *)
Theorem parse_function_call (name open : Token) (l : writtenList) (close : Token)
    (ts : list Token) :
  tokenType name = TokenType.Identifier ->
  tokenType open = TokenType.ParenthesisOpen ->
  wellFormedList l ->
  tokenType close = TokenType.ParenthesisClose ->
  noOperator (nextType ts) ->
  Parser.parse (name :: open :: listTokens l ++ close :: ts) =
  Ok (Node NodeType.Function (listTrees l) {["name" := VStr (tokenValue name)]}).
Proof.
  intros Hname Hopen Hl Hclose Hts. unfold Parser.parse.
  cbn [app length].
  change (Parser.parseExpression (S (S ?k))) with
    (Parser.parseExpressionBody (Parser.parseExpression (S k)) (S k)).
  erewrite ParserLists.parseExpressionBody_factor; [reflexivity|by rewrite Hname| |exact Hts].
  unfold Parser.parseFactor. rewrite ParserSums.peek_cons, Hname.
  unfold Parser.parseFunctionCall. rewrite ParserLists.expect_cons by done.
  rewrite ParserLists.expect_cons by done. rewrite <- Hclose.
  rewrite length_app. cbn [length].
  replace (length (listTokens l) + S (length ts))%nat
    with (S (length (listTokens l) + length ts)) by lia.
  rewrite ParserLists.parseList_sums; [reflexivity|done|lia|by left].
Qed.

(** X22.  A group: the members, sums that commas separate, become the
    children of a Group node in the order in which they are written; the
    group may be empty. *)
Theorem parse_group (open : Token) (l : writtenList) (close : Token)
    (ts : list Token) :
  tokenType open = TokenType.BraceOpen ->
  wellFormedList l ->
  tokenType close = TokenType.BraceClose ->
  noOperator (nextType ts) ->
  Parser.parse (open :: listTokens l ++ close :: ts) =
  Ok (Node NodeType.Group (listTrees l) ∅).
Proof.
  intros Hopen Hl Hclose Hts. unfold Parser.parse.
  cbn [app length]. rewrite length_app. cbn [length].
  replace (length (listTokens l) + S (length ts))%nat
    with (S (length (listTokens l) + length ts)) by lia.
  change (Parser.parseExpression (S (S ?k))) with
    (Parser.parseExpressionBody (Parser.parseExpression (S k)) (S k)).
  erewrite ParserLists.parseExpressionBody_factor; [reflexivity|by rewrite Hopen| |exact Hts].
  unfold Parser.parseFactor. rewrite ParserSums.peek_cons, Hopen.
  unfold Parser.parseExpressionGroup. rewrite ParserSums.get_cons. rewrite <- Hclose.
  rewrite ParserLists.parseList_sums; [reflexivity|done|lia|by right].
Qed.

(** X23.  Brackets leave no node of their own, and what they enclose is
    one factor: a sum in brackets, followed by further factors, is parsed
    into the product whose first operand is the tree of the sum. *)
Theorem parse_bracketed_sum (open : Token) (s : writtenSum) (close : Token)
    (pairs : list (Token * Token)) (ts : list Token) :
  tokenType open = TokenType.ParenthesisOpen ->
  wellFormedSum s ->
  tokenType close = TokenType.ParenthesisClose ->
  wellFormedFactors pairs ->
  endsExpression (nextType ts) ->
  Parser.parse (open :: sumTokens s ++ close :: factorTokens pairs ++ ts) =
  Ok (factorsOn (sumTree s) pairs).
Proof.
  intros Hopen Hs Hclose Hpairs (Hid & Hmul & Hadd & Hbool). unfold Parser.parse.
  cbn [app length]. rewrite length_app. cbn [length]. rewrite length_app.
  replace (length (sumTokens s) + S (length (factorTokens pairs) + length ts))%nat
    with (S (length (sumTokens s) + length (factorTokens pairs) + length ts))
    by lia.
  change (Parser.parseExpression (S (S ?k))) with
    (Parser.parseExpressionBody (Parser.parseExpression (S k)) (S k)).
  pose proof (ParserSums.nextType_product_rest pairs ts Hpairs Hid) as Hnext.
  fold (factorTokens pairs) in Hnext.
  erewrite ParserLists.parseExpressionBody_term;
    [reflexivity|by rewrite Hopen| |exact Hadd|exact Hbool].
  unfold Parser.parseTerm. unfold bind at 1.
  rewrite ParserLists.parseFactor_bracket by (done || lia).
  assert (length (factorTokens pairs) = 2 * length pairs)%nat as Hlen.
  { unfold factorTokens. clear. induction pairs as [|x pairs IH]; [done|].
    cbn [flat_map app length]. lia. }
  rewrite Hlen. unfold factorTokens, factorsOn.
  apply ParserSums.parseTermLoop_product; [done|lia|done|done].
Qed.

(** ** Examples for the interpreter *)


Lemma comparison_value_is_zero_witness :
  exists a' st',
    evaluateScripted 4
      (Node NodeType.GreaterOrEqual [nds 2 6; integerNode (VInt 7)] ∅)
      (EState [5; 6] []) =
    Ok (VInt 0,
        Node NodeType.GreaterOrEqual [a'; integerNode (VInt 7)] {["value" := VInt 0]},
        st') /\
    getAttribute "value" a' = VInt 11.
Proof.
  eexists _, _. split.
  - eapply (comparison_value_is_zero no_pow_frac no_toString scripted ∅ 3
             NodeType.GreaterOrEqual (nds 2 6) (integerNode (VInt 7)) ∅).
    + set_solver.
    + reflexivity.
    + vm_compute. reflexivity.
    + vm_compute. reflexivity.
  - vm_compute. reflexivity.
Defined.

Lemma operator_arity_error_witness :
  evaluateScripted 1 (Node NodeType.Multiply [integerNode (VInt 3)] ∅) (EState [] []) =
  Throw "Expected Multiply node to have 2 children, but found 1.".
Proof.
  apply (operator_arity_error no_pow_frac no_toString scripted ∅ 0 NodeType.Multiply
           [integerNode (VInt 3)] ∅ (EState [] [])).
  - set_solver.
  - reflexivity.
  - cbn. lia.
Defined.

Lemma no_roll_for_count_below_one_witness :
  exists t,
    Parser.parseString "(2-5)d6" = Ok t /\
    evaluateScripted 5 t (EState [4; 4; 4] []) =
    Ok (VInt 0,
        Node NodeType.Dice [] (<["value" := VInt 0]> (<["sides" := VInt 6]> ∅)),
        EState [4; 4; 4] []).
Proof.
  eexists. split; [vm_compute; reflexivity|].
  eapply (no_roll_for_count_below_one no_pow_frac no_toString scripted ∅ 3
           _ (sidesNode (VInt 6)) [] ∅).
  - reflexivity.
  - vm_compute. reflexivity.
  - reflexivity.
  - reflexivity.
  - vm_compute. reflexivity.
Defined.


Lemma unknown_function_throws_witness :
  exists t,
    Parser.parseString "max(1, 2)" = Ok t /\
    evaluate no_pow_frac no_toString scripted {["floor" := customFloor]} 1 t
      (EState [] []) = Throw "Unknown function: max".
Proof.
  eexists. split; [vm_compute; reflexivity|].
  apply unknown_function_throws; reflexivity.
Defined.

Lemma modifier_without_dice_throws_witness :
  evaluateScripted 3
    (modifierNode NodeType.Keep {["type" := VStr "highest"]} [integerNode (VInt 5)])
    (EState [] []) = Throw "Missing dice node.".
Proof.
  eapply (modifier_without_dice_throws no_pow_frac no_toString scripted ∅ 0
            NodeType.Keep (integerNode (VInt 5)) [] _ _ _ (EState [] [])).
  - set_solver.
  - reflexivity.
  - vm_compute. reflexivity.
  - done.
  - reflexivity.
Defined.

Lemma critical_marks_default_witness :
  exists dice st',
    evaluateScripted 3
      (modifierNode NodeType.Critical {["type" := VStr "success"]} [nds 3 6])
      (EState [6; 2; 6] []) =
    Ok (VInt 14,
        Node NodeType.Critical [dice]
          (<["value" := VInt 14]> {["type" := VStr "success"]}), st') /\
    (fun c => (getAttribute "value" c, getAttribute "critical" c)) <$> children dice =
      [(VInt 6, VStr "success"); (VInt 2, VUndef); (VInt 6, VStr "success")].
Proof.
  pose proof (critical_marks_default no_pow_frac no_toString scripted ∅ 0 (nds 3 6)
                (Node NodeType.Dice (integerRolls [6; 2; 6])
                   (<["value" := VInt 14]> (<["sides" := VInt 6]> ∅)))
                {["type" := VStr "success"]} (VInt 14)
                (EState [6; 2; 6] []) (EState [] [])) as H.
  eexists _, _. split.
  - unfold evaluateScripted, modifierNode. rewrite H.
    + vm_compute. reflexivity.
    + reflexivity.
    + vm_compute. reflexivity.
    + reflexivity.
    + reflexivity.
    + repeat constructor; eexists; vm_compute; reflexivity.
    + intros _. cbn. lia.
  - vm_compute. reflexivity.
Defined.

Lemma critical_success_needs_two_rolls_witness :
  evaluateScripted 3
    (modifierNode NodeType.Critical {["type" := VStr "success"]} [nds 1 20])
    (EState [20] []) =
  Throw "Expected Dice node to have 2 children, but found 1.".
Proof.
  unfold evaluateScripted, modifierNode.
  rewrite (critical_success_needs_two_rolls no_pow_frac no_toString scripted ∅ 0
             (nds 1 20)
             (Node NodeType.Dice (integerRolls [20])
                (<["value" := VInt 20]> (<["sides" := VInt 20]> ∅)))
             {["type" := VStr "success"]} (VInt 20) (EState [20] []) (EState [] [])).
  - reflexivity.
  - reflexivity.
  - reflexivity.
  - vm_compute. reflexivity.
  - reflexivity.
  - cbn. lia.
Defined.


Lemma reroll_once_witness :
  exists new dice st',
    evaluateScripted 3
      (modifierNode NodeType.Reroll {["once" := VStr "yes"]} [nds 3 6])
      (EState [1; 4; 1; 1; 5] []) =
    Ok (VInt (foldr Z.add 0 (rerolled [1; 4; 1] new)),
        Node NodeType.Reroll [dice]
          (<["value" := VInt (foldr Z.add 0 (rerolled [1; 4; 1] new))]>
             {["once" := VStr "yes"]}),
        st') /\
    children dice = integerRolls (rerolled [1; 4; 1] new) /\
    length (rerolled [1; 4; 1] new) = 3%nat.
Proof.
  destruct (reroll_once no_pow_frac no_toString scripted ∅ 0 (nds 3 6)
              (Node NodeType.Dice (integerRolls [1; 4; 1])
                 (<["value" := VInt 6]> (<["sides" := VInt 6]> ∅)))
              {["once" := VStr "yes"]} (VInt 6) 6 [1; 4; 1]
              (EState [1; 4; 1; 1; 5] []) (EState [1; 5] []))
    as (new & g & _ & _ & Hlen & Heval).
  - reflexivity.
  - reflexivity.
  - by apply scripted_meetsContract.
  - vm_compute. reflexivity.
  - reflexivity.
  - reflexivity.
  - reflexivity.
  - reflexivity.
  - exists new. eexists _, _. split; [exact Heval|]. split; [reflexivity|exact Hlen].
Defined.

Lemma interpret_reports_no_error_witness :
  exists t r w',
    Parser.parseString "floor(7d6 / 2) + 1" = Ok t /\
    interpret no_pow_frac no_toString 6 (mkDiceInterpreter O scripted) 1%nat
      (World [3; 1; 4; 1; 5; 2; 6] {[DefaultFunctionDefinitions := {["floor" := customFloor]}]}
         {[1%nat := t]}) = Ok (r, w') /\
    resultErrors r = [].
Proof.
  eexists.
  destruct (interpret no_pow_frac no_toString 6 (mkDiceInterpreter O scripted) 1%nat
              (World [3; 1; 4; 1; 5; 2; 6]
                 {[DefaultFunctionDefinitions := {["floor" := customFloor]}]}
                 {[1%nat := _]})) as [[r w']| |] eqn:Hi.
  - exists r, w'. split; [vm_compute; reflexivity|]. split; [reflexivity|].
    eapply interpret_reports_no_error; [|exact Hi].
    intros name f Hf. unfold tableAt, DefaultFunctionDefinitions in Hf.
    cbn [functions tables] in Hf. rewrite lookup_singleton_eq in Hf.
    cbn [default from_option id] in Hf.
    apply lookup_singleton_Some in Hf as [_ <-]. apply customFloor_quiet.
  - exfalso. vm_compute in Hi. discriminate.
  - exfalso. vm_compute in Hi. discriminate.
Defined.

Lemma versions_agree_witness :
  exists t,
    Parser.parseString "{2d6 + 3, -(4dF) * 2} % 7 - 2 ** 3" = Ok t /\
    plain t = true /\
    agree (Legacy.evaluate no_pow_frac no_toString scripted ∅ 9 t [3; 5; 1; -1; 0; 1])
          (evaluateScripted 9 t (EState [3; 5; 1; -1; 0; 1] [])) /\
    exists e,
      evaluateScripted 9 t (EState [3; 5; 1; -1; 0; 1] []) =
      Ok (VInt (-6), e, EState [] []).
Proof.
  eexists. split; [vm_compute; reflexivity|].
  split; [vm_compute; reflexivity|]. split.
  - apply (versions_agree no_pow_frac no_toString scripted ∅ ∅ 9 _
             (EState [3; 5; 1; -1; 0; 1] [])).
    vm_compute. reflexivity.
  - eexists. vm_compute. reflexivity.
Defined.

Lemma alternating_meetsContract (lo hi : Z) :
  lo <= hi -> meetsContract alternating lo hi.
Proof.
  intros H [|]; cbn [alternating fst]; [exists lo|exists hi]; (split; [done|lia]).
Qed.

Lemma explosion_chain_witness :
  exists new dice st',
    evaluate no_pow_frac no_toString alternating ∅ 5
      (modifierNode NodeType.Explode ∅ [nds 3 6]) (EState false []) =
    Ok (VInt (foldr Z.add 0 [6; 1; 6] + foldr Z.add 0 new),
        Node NodeType.Explode [dice]
          (<["value" := VInt (foldr Z.add 0 [6; 1; 6] + foldr Z.add 0 new)]> ∅),
        st') /\
    children dice = integerRolls [6; 1; 6] ++ integerRolls new /\
    length new = showing 6 ([6; 1; 6] ++ new).
Proof.
  destruct (explosion_chain no_pow_frac no_toString alternating ∅ 2 2 (nds 3 6)
              (Node NodeType.Dice (integerRolls [6; 1; 6])
                 (<["value" := VInt 13]> (<["sides" := VInt 6]> ∅)))
              ∅ (VInt 13) 6 [6; 1; 6]
              (EState false []) (EState true []))
    as (new & g & _ & Hlen & Heval).
  - reflexivity.
  - reflexivity.
  - by apply alternating_meetsContract.
  - intros [|]; reflexivity.
  - lia.
  - vm_compute. reflexivity.
  - reflexivity.
  - reflexivity.
  - reflexivity.
  - reflexivity.
  - exists new. eexists _, _. split; [exact Heval|]. split; [reflexivity|exact Hlen].
Defined.

Lemma reroll_until_not_one_witness :
  exists final dice st',
    evaluate no_pow_frac no_toString alternating ∅ 5
      (modifierNode NodeType.Reroll ∅ [nds 3 6]) (EState true []) =
    Ok (VInt (foldr Z.add 0 final),
        Node NodeType.Reroll [dice]
          (<["value" := VInt (foldr Z.add 0 final)]> ∅),
        st') /\
    children dice = integerRolls final /\
    Forall2 (rerolledFrom 6) [1; 6; 1] final.
Proof.
  destruct (reroll_until_not_one no_pow_frac no_toString alternating ∅ 2 2 (nds 3 6)
              (Node NodeType.Dice (integerRolls [1; 6; 1])
                 (<["value" := VInt 8]> (<["sides" := VInt 6]> ∅)))
              ∅ (VInt 8) 6 [1; 6; 1]
              (EState true []) (EState false []))
    as (final & g & Hfinal & Heval).
  - reflexivity.
  - reflexivity.
  - by apply alternating_meetsContract.
  - intros [|]; reflexivity.
  - lia.
  - vm_compute. reflexivity.
  - reflexivity.
  - reflexivity.
  - reflexivity.
  - reflexivity.
  - exists final. eexists _, _. split; [exact Heval|]. split; [reflexivity|exact Hfinal].
Defined.

(** ** Examples for the parser *)

Lemma parse_sum_of_products_witness :
  Lexer.tokens "-2*3+4**2/5" = sumTokens exampleSum /\
  Parser.parseString "-2*3+4**2/5" = Ok (sumTree exampleSum) /\
  sumTree exampleSum =
    binaryNode NodeType.Add
      (addChild
         (binaryNode NodeType.Multiply (integerNode (VInt 2)) (integerNode (VInt 3)))
         (Factory.create NodeType.Negate))
      (binaryNode NodeType.Divide
         (binaryNode NodeType.Exponent (integerNode (VInt 4)) (integerNode (VInt 2)))
         (integerNode (VInt 5))).
Proof.
  split; [vm_compute; reflexivity|]. split; [|vm_compute; reflexivity].
  unfold Parser.parseString.
  replace (Lexer.tokens "-2*3+4**2/5") with (sumTokens exampleSum)
    by (vm_compute; reflexivity).
  apply parse_sum_of_products.
  split; [|split].
  - intros sign [= <-]. by eexists.
  - split; [reflexivity|]. repeat constructor; by eexists.
  - repeat constructor; by eexists.
Defined.

Lemma parse_comparison_of_sums_witness :
  Parser.parseString "1+2>=3*4" =
  Ok (binaryNode NodeType.GreaterOrEqual (sumTree exampleLeft) (sumTree exampleRight)).
Proof.
  unfold Parser.parseString.
  replace (Lexer.tokens "1+2>=3*4")
    with (sumTokens exampleLeft ++
          mkToken TokenType.GreaterOrEqual 3 ">=" :: sumTokens exampleRight)
    by (vm_compute; reflexivity).
  apply parse_comparison_of_sums.
  - split; [done|]. split; [by split|]. repeat constructor; by eexists.
  - split; [done|]. split; [|done]. split; [reflexivity|].
    repeat constructor; by eexists.
  - reflexivity.
Defined.


Lemma parse_ignores_rest_witness :
  Parser.parseString "1+2)3" = Ok (sumTree exampleLeft) /\
  sumTree exampleLeft =
    binaryNode NodeType.Add (integerNode (VInt 1)) (integerNode (VInt 2)).
Proof.
  split; [|vm_compute; reflexivity]. unfold Parser.parseString.
  replace (Lexer.tokens "1+2)3")
    with (sumTokens exampleLeft ++
          [mkToken TokenType.ParenthesisClose 3 ")"; mkToken TokenType.Integer 4 "3"])
    by (vm_compute; reflexivity).
  apply parse_ignores_rest.
  - split; [done|]. split; [by split|]. repeat constructor; by eexists.
  - by repeat split.
Defined.

Lemma parse_dice_roll_witness :
  Lexer.tokens "3d6" =
    rollTokens (mkToken TokenType.Integer 0 "3") (mkToken TokenType.Identifier 1 "d")
      (Some (mkToken TokenType.Integer 2 "6")) ++ [] /\
  Parser.parseString "3d6" = Ok (nds 3 6).
Proof.
  split; [vm_compute; reflexivity|].
  unfold Parser.parseString.
  change (Lexer.tokens "3d6") with
    (rollTokens (mkToken TokenType.Integer 0 "3") (mkToken TokenType.Identifier 1 "d")
       (Some (mkToken TokenType.Integer 2 "6")) ++ []).
  rewrite parse_dice_roll.
  - vm_compute. reflexivity.
  - repeat split; reflexivity.
  - repeat split; reflexivity.
Defined.

Lemma roll_without_sides_throws_witness :
  exists t,
    Parser.parseString "2x" = Ok t /\
    evaluateScripted 1 t (EState [] []) =
    Throw "Expected Dice node to have 2 children, but found 1.".
Proof.
  apply (roll_without_sides_throws no_pow_frac no_toString scripted ∅
           (mkToken TokenType.Integer 0 "2") (mkToken TokenType.Identifier 1 "x")
           [] 0 (EState [] [])); try reflexivity; try discriminate.
  repeat split; reflexivity.
Defined.

Lemma parse_function_call_witness :
  Lexer.tokens "max(1+2,3*4)" =
    mkToken TokenType.Identifier 0 "max" :: mkToken TokenType.ParenthesisOpen 3 "("
      :: listTokens exampleList ++ [mkToken TokenType.ParenthesisClose 11 ")"] /\
  Parser.parseString "max(1+2,3*4)" =
    Ok (Node NodeType.Function
          [binaryNode NodeType.Add (integerNode (VInt 1)) (integerNode (VInt 2));
           binaryNode NodeType.Multiply (integerNode (VInt 3)) (integerNode (VInt 4))]
          {["name" := VStr "max"]}).
Proof.
  split; [vm_compute; reflexivity|].
  unfold Parser.parseString.
  change (Lexer.tokens "max(1+2,3*4)") with
    (mkToken TokenType.Identifier 0 "max" :: mkToken TokenType.ParenthesisOpen 3 "("
       :: listTokens exampleList ++ [mkToken TokenType.ParenthesisClose 11 ")"]).
  rewrite parse_function_call.
  - vm_compute. reflexivity.
  - reflexivity.
  - reflexivity.
  - vm_compute. repeat split; repeat constructor; eauto; discriminate.
  - reflexivity.
  - repeat split; reflexivity.
Defined.

Lemma parse_group_witness :
  Parser.parse
    (mkToken TokenType.BraceOpen 3 "{" :: listTokens exampleList
       ++ [mkToken TokenType.BraceClose 11 "}"]) =
  Ok (Node NodeType.Group
        [binaryNode NodeType.Add (integerNode (VInt 1)) (integerNode (VInt 2));
         binaryNode NodeType.Multiply (integerNode (VInt 3)) (integerNode (VInt 4))]
        ∅).
Proof.
  rewrite parse_group.
  - vm_compute. reflexivity.
  - reflexivity.
  - vm_compute. repeat split; repeat constructor; eauto; discriminate.
  - reflexivity.
  - repeat split; reflexivity.
Defined.

Lemma parse_bracketed_sum_witness :
  Lexer.tokens "(1+2)*3" =
    mkToken TokenType.ParenthesisOpen 0 "(" :: sumTokens exampleBracketed
      ++ mkToken TokenType.ParenthesisClose 4 ")"
      :: factorTokens [(mkToken TokenType.Asterisk 5 "*",
                        mkToken TokenType.Integer 6 "3")] ++ [] /\
  Parser.parseString "(1+2)*3" =
    Ok (binaryNode NodeType.Multiply
          (binaryNode NodeType.Add (integerNode (VInt 1)) (integerNode (VInt 2)))
          (integerNode (VInt 3))).
Proof.
  split; [vm_compute; reflexivity|].
  unfold Parser.parseString.
  change (Lexer.tokens "(1+2)*3") with
    (mkToken TokenType.ParenthesisOpen 0 "(" :: sumTokens exampleBracketed
       ++ mkToken TokenType.ParenthesisClose 4 ")"
       :: factorTokens [(mkToken TokenType.Asterisk 5 "*",
                         mkToken TokenType.Integer 6 "3")] ++ []).
  rewrite parse_bracketed_sum.
  - vm_compute. reflexivity.
  - reflexivity.
  - vm_compute. repeat split; repeat constructor; eauto; discriminate.
  - reflexivity.
  - vm_compute. repeat constructor; eauto.
  - repeat split; (reflexivity || discriminate).
Defined.
